(** * review-cli: a shallow embedding of [code_review/__init__.py] and
      [code_review/powershell_utils.py]

    The first part holds the program, module by module:

    - [PyStr]     the fragment of Python's [str] the package relies on
                  ([replace], [in], [strip]);
    - [PowershellUtils]  [sanitize_branch_name];
    - [Py]        exceptions and the monad of state and exceptions in which
                  the stateful code is written;
    - [Tracker]   the [StepTracker] class;
    - [World]     the keyboard, the console and the file system;
    - [Selector]  [get_key] and [select_with_arrows];
    - [Cli]       [create_file] and the [init] command;
    - [Utf8Bom], [AsciiLog]  [ensure_utf8_bom] and [format_ascii_log];
    - [SafeNames], [Steps], [SelectorKeys], [Frame], [Outcome]  what the
                  further properties are stated with: safe names, steps
                  by key, kinds of key press, what a run leaves of the
                  files and how it ends.

    The second part holds the properties, in modules named after these.
    What the two [Live] displays draw is kept as the data it is drawn from
    (the options and the highlighted index, the title and the steps), not
    as [rich] markup; [time.sleep] is left out.

    Python strings are sequences of code points.  Where only equality,
    concatenation and ASCII patterns matter (everything in [__init__.py])
    they are kept as [string], the UTF-8 image of the Python value; where
    Unicode white space matters ([str.strip] in [powershell_utils.py]) they
    are lists of code points. *)

From Stdlib Require Import ZArith Ascii String.
From stdpp Require Import base tactics option list strings pretty gmap.

Set Warnings "-clear-no-such-hyp".
Open Scope Z_scope.

(** ** A fragment of Python's [str] *)

Module PyStr.

Section Generic.
Context {A : Type} `{EqDecision A}.

(** [s.startswith(old)] *)
Fixpoint starts_with (old s : list A) : bool :=
  match old, s with
  | [], _ => true
  | _ :: _, [] => false
  | a :: old', c :: s' => bool_decide (a = c) && starts_with old' s'
  end.

(** [old in s] *)
Fixpoint contains (old s : list A) : bool :=
  starts_with old s ||
  match s with
  | [] => false
  | _ :: s' => contains old s'
  end.

(** The scan of [s.replace(old, new)] for a non-empty [old]: left to
    right, a match is replaced and the scan resumes behind it, so matches
    never overlap.  [skip] counts the characters of the current match
    that are still to be passed over. *)
Fixpoint replace_from (old new : list A) (skip : nat) (s : list A) : list A :=
  match s with
  | [] => []
  | c :: s' =>
      match skip with
      | S k => replace_from old new k s'
      | O =>
          if starts_with old s
          then new ++ replace_from old new (length old - 1) s'
          else c :: replace_from old new 0 s'
      end
  end.

(** [s.replace(old, new)].  With an empty [old] Python puts [new] in front
    of every character and at the end. *)
Definition replace (old new s : list A) : list A :=
  match old with
  | [] => new ++ flat_map (λ c, c :: new) s
  | _ :: _ => replace_from old new 0 s
  end.

(** [s.lstrip()], [s.rstrip()] and [s.strip()] for a white-space test. *)
Fixpoint lstrip (sp : A → bool) (s : list A) : list A :=
  match s with
  | [] => []
  | c :: s' => if sp c then lstrip sp s' else s
  end.

Definition rstrip (sp : A → bool) (s : list A) : list A :=
  reverse (lstrip sp (reverse s)).

Definition strip (sp : A → bool) (s : list A) : list A :=
  rstrip sp (lstrip sp s).
End Generic.

(** Code points. *)
Definition char := N.
Definition str := list char.

(** The code points of an ASCII literal. *)
Fixpoint lit (s : string) : str :=
  match s with
  | EmptyString => []
  | String a s' => N_of_ascii a :: lit s'
  end.

(** [str.isspace] on one character: the code points CPython lists in
    [_PyUnicode_IsWhitespace]. *)
Definition isspace (c : char) : bool :=
  let c := Z.of_N c in
  ((9 <=? c) && (c <=? 13)) || ((28 <=? c) && (c <=? 32)) ||
  (c =? 133) || (c =? 160) || (c =? 5760) ||
  ((8192 <=? c) && (c <=? 8202)) || (c =? 8232) || (c =? 8233) ||
  (c =? 8239) || (c =? 8287) || (c =? 12288).

(** The same operations on UTF-8 strings; the patterns used with them are
    ASCII, so matching bytes is matching code points. *)
Definition replace_s (old new s : string) : string :=
  string_of_list_ascii
    (replace (list_ascii_of_string old) (list_ascii_of_string new)
             (list_ascii_of_string s)).

Definition contains_s (old s : string) : bool :=
  contains (list_ascii_of_string old) (list_ascii_of_string s).

End PyStr.

(** ** [powershell_utils.py] *)

Module PowershellUtils.
Import PyStr.

Definition tokens : list str :=
  [lit "/"; lit "\"; lit ":"; lit " "; lit "."; lit "~"; lit "^"; lit "[";
   lit "]"].

Definition dash : str := lit "-".
Definition dashdash : str := lit "--".

(** The characters of the tokens, [/ \ : space . ~ ^ [ ]], and the dash. *)
Definition token_chars : list char :=
  [47; 92; 58; 32; 46; 126; 94; 91; 93]%N.

Definition dash_char : char := 45%N.

(** [for token in (...): safe = safe.replace(token, "-")] *)
Definition replace_tokens (safe : str) : str :=
  foldl (λ safe token, replace token dash safe) safe tokens.

(** [while "--" in safe: safe = safe.replace("--", "-")]; [None] when the
    fuel is used up before the loop ends. *)
Fixpoint collapse (fuel : nat) (safe : str) : option str :=
  if contains dashdash safe then
    match fuel with
    | O => None
    | S fuel' => collapse fuel' (replace dashdash dash safe)
    end
  else Some safe.

(** [return safe or "branch"] *)
Definition or_branch (safe : str) : str :=
  match safe with
  | [] => lit "branch"
  | _ :: _ => safe
  end.

Definition sanitize_branch_name_fuel (fuel : nat) (branch : str) : option str :=
  or_branch <$> collapse fuel (replace_tokens (strip isspace branch)).

(** Every pass of the loop shortens the string, so its length is fuel
    enough. *)
Definition sanitize_branch_name (branch : str) : option str :=
  sanitize_branch_name_fuel (length branch) branch.

End PowershellUtils.

(** ** Exceptions and the state-and-exception monad *)

Module Py.

(** What a [raise] carries.  [Exception cls msg] stands for an instance of
    any class below [Exception] (the [OSError] family, [ZeroDivisionError],
    [IndexError], [KeyError], ...) whose [str] is [msg]; [Exit] is
    [typer.Exit], a [RuntimeError]; [KeyboardInterrupt] and [SystemExit]
    derive from [BaseException] only. *)
Inductive exc :=
| Exception (cls msg : string)
| Exit (code : Z)
| KeyboardInterrupt
| SystemExit (code : Z).

(** [isinstance(e, Exception)] *)
Definition is_Exception (e : exc) : bool :=
  match e with
  | Exception _ _ | Exit _ => true
  | KeyboardInterrupt | SystemExit _ => false
  end.

(** [isinstance(e, KeyboardInterrupt)] *)
Definition is_KeyboardInterrupt (e : exc) : bool :=
  match e with
  | KeyboardInterrupt => true
  | _ => false
  end.

(** [str(e)] *)
Definition exc_str (e : exc) : string :=
  match e with
  | Exception _ msg => msg
  | Exit code | SystemExit code => pretty code
  | KeyboardInterrupt => ""
  end.

(** How a call ends: it returns, it raises, or it waits for a key press
    that never comes. *)
Inductive res (A : Type) :=
| Ok (a : A)
| Raise (e : exc)
| Blocked.
Arguments Ok {A} a.
Arguments Raise {A} e.
Arguments Blocked {A}.

(** A computation over a mutable state [S].  The state survives a [raise]:
    whatever was mutated before it stays mutated. *)
Definition M (S A : Type) : Type := S → res A * S.

Definition ret {S A} (a : A) : M S A := λ s, (Ok a, s).

Definition bind {S A B} (m : M S A) (k : A → M S B) : M S B :=
  λ s, match m s with
       | (Ok a, s') => k a s'
       | (Raise e, s') => (Raise e, s')
       | (Blocked, s') => (Blocked, s')
       end.

Definition raise {S A} (e : exc) : M S A := λ s, (Raise e, s).

Definition gets {S A} (f : S → A) : M S A := λ s, (Ok (f s), s).

Definition modify {S} (f : S → S) : M S unit := λ s, (Ok tt, f s).

(** [try: body except <class>: handler], the class given by its
    [isinstance] test. *)
Definition try_except {S A} (body : M S A) (cls : exc → bool)
    (handler : exc → M S A) : M S A :=
  λ s, match body s with
       | (Raise e, s') => if cls e then handler e s' else (Raise e, s')
       | r => r
       end.

(** Running a computation on the second component of the state. *)
Definition on_snd {S1 S2 A} (m : M S2 A) : M (S1 * S2) A :=
  λ '(s1, s2), let '(r, s2') := m s2 in (r, (s1, s2')).

Declare Scope py_scope.
Delimit Scope py_scope with py.
Notation "x <- m ;; k" := (bind m (λ x, k))
  (at level 100, m at next level, right associativity) : py_scope.
Notation "m ;;; k" := (bind m (λ _, k))
  (at level 100, right associativity) : py_scope.

(** [m] takes every state to an [R]-related one, however it ends. *)
Definition keeps {S A} (R : S → S → Prop) (m : M S A) : Prop :=
  ∀ s, R s (m s).2.

(** What holds of the state before holds after. *)
Definition stays {S} (Q : S → Prop) (s s' : S) : Prop := Q s → Q s'.

(** The exit status of the process for the way the command ended: [0] when
    it returns, the code of a [typer.Exit] or [SystemExit], [1] for an
    uncaught exception (the traceback) and for an interrupt ([click] turns
    it into [Abort]); none while it waits for input. *)
Definition exit_status {A} (r : res A) : option Z :=
  match r with
  | Ok _ => Some 0
  | Raise (Exit code) | Raise (SystemExit code) => Some code
  | Raise (Exception _ _) | Raise KeyboardInterrupt => Some 1
  | Blocked => None
  end.

End Py.

(** ** [StepTracker] *)

Module Tracker.
Import Py.
Local Open Scope py_scope.

(** The four status strings the program uses. *)
Inductive status := Pending | Running | Done | Error.

(** The Python literal of a status. *)
Definition status_str (st : status) : string :=
  match st with
  | Pending => "pending"
  | Running => "running"
  | Done => "done"
  | Error => "error"
  end.

#[global] Instance status_eq_dec : EqDecision status.
Proof. solve_decision. Defined.

(** One entry of [self.steps]. *)
Record step := Step {
  key : string;
  label : string;
  status_of : status;
  detail : string
}.

#[global] Instance step_eq_dec : EqDecision step.
Proof. solve_decision. Defined.

Section WithEnv.
(** [E] is whatever the refresh callback acts on (the live display). *)
Context {E : Type}.

(** The callback reads the tracker it closes over when it is called. *)
Definition callback : Type := string → list step → M E unit.

Record StepTracker := {
  title : string;
  steps : list step;
  _refresh_cb : option callback
}.

(** [StepTracker(title)] *)
Definition new (title : string) : StepTracker :=
  {| title := title; steps := []; _refresh_cb := None |}.

Definition set_steps (l : list step) (t : StepTracker) : StepTracker :=
  {| title := title t; steps := l; _refresh_cb := _refresh_cb t |}.

(** The same tracker with the callback [cb] attached. *)
Definition with_cb (cb : callback) (t : StepTracker) : StepTracker :=
  {| title := title t; steps := steps t; _refresh_cb := Some cb |}.

Definition attach_refresh (cb : callback) : M (StepTracker * E) unit :=
  modify (λ '(t, e), (with_cb cb t, e)).

Definition _maybe_refresh : M (StepTracker * E) unit :=
  cb <- gets (λ '(t, _), _refresh_cb t) ;;
  match cb with
  | None => ret tt
  | Some cb =>
      try_except
        (t <- gets fst ;; on_snd (cb (title t) (steps t)))
        is_Exception
        (λ _, ret tt)
  end.

Definition add (key0 label0 : string) : M (StepTracker * E) unit :=
  l <- gets (λ '(t, _), steps t) ;;
  if bool_decide (key0 ∈ key <$> l) then ret tt
  else
    modify (λ '(t, e),
      (set_steps (steps t ++ [Step key0 label0 Pending ""]) t, e)) ;;;
    _maybe_refresh.

(** The [for] loop of [_update]: the first step with the key is changed
    in place; [None] when the loop ends without a match. *)
Fixpoint update_first (key0 : string) (st : status) (detail0 : string)
    (l : list step) : option (list step) :=
  match l with
  | [] => None
  | s :: l' =>
      if bool_decide (key s = key0)
      then Some (Step (key s) (label s) st
                   (if bool_decide (detail0 = "") then detail s else detail0)
                 :: l')
      else (s ::.) <$> update_first key0 st detail0 l'
  end.

Definition _update (key0 : string) (st : status) (detail0 : string)
    : M (StepTracker * E) unit :=
  l <- gets (λ '(t, _), steps t) ;;
  match update_first key0 st detail0 l with
  | Some l' =>
      modify (λ '(t, e), (set_steps l' t, e)) ;;;
      _maybe_refresh
  | None =>
      modify (λ '(t, e),
        (set_steps (steps t ++ [Step key0 key0 st detail0]) t, e)) ;;;
      _maybe_refresh
  end.

Definition start (key0 detail0 : string) := _update key0 Running detail0.
Definition complete (key0 detail0 : string) := _update key0 Done detail0.
Definition error (key0 detail0 : string) := _update key0 Error detail0.

(** The mutating calls of the class. *)
Inductive call :=
| CallAdd (key0 label0 : string)
| CallStart (key0 detail0 : string)
| CallComplete (key0 detail0 : string)
| CallError (key0 detail0 : string).

Definition do_call (c : call) : M (StepTracker * E) unit :=
  match c with
  | CallAdd key0 label0 => add key0 label0
  | CallStart key0 detail0 => start key0 detail0
  | CallComplete key0 detail0 => complete key0 detail0
  | CallError key0 detail0 => error key0 detail0
  end.

(** The steps after [_update]. *)
Definition updated (k : string) (st : status) (d : string) (l : list step)
    : list step :=
  default (l ++ [Step k k st d]) (update_first k st d l).

(** The same tracker with no callback attached. *)
Definition detached (t : StepTracker) : StepTracker :=
  {| title := title t; steps := steps t; _refresh_cb := None |}.

(** A callback that returns or raises a fault, an instance of
    [Exception], each time it is called. *)
Definition returns_or_faults (cb : callback) : Prop :=
  ∀ title0 steps0 e,
    match (cb title0 steps0 e).1 with
    | Ok _ => True
    | Raise x => is_Exception x = true
    | Blocked => False
    end.

(** What a call that appends the step [s] does to the tracker [t]: the
    steps grow by [s] at the end and nothing else of the tracker changes;
    the call raises no fault, and with no callback attached it returns
    and leaves the environment alone. *)
Definition appends (op : M (StepTracker * E) unit) (t : StepTracker) (e : E)
    (s : step) : Prop :=
  ∃ r t' e',
    op (t, e) = (r, (t', e')) ∧
    t' = set_steps (steps t ++ [s]) t ∧
    (∀ x, r = Raise x → is_Exception x = false) ∧
    (_refresh_cb t = None → r = Ok tt ∧ e' = e).

(** The callback of the tracker keeps the relation [R] on the
    environment. *)
Definition cb_keeps (R : E → E → Prop) (t : StepTracker) : Prop :=
  ∀ cb, _refresh_cb t = Some cb → ∀ title0 steps0, keeps R (cb title0 steps0).

(** [R] on the environment of a tracker whose callback keeps [R]. *)
Definition lifted (R : E → E → Prop) (s s' : StepTracker * E) : Prop :=
  cb_keeps R s.1 → R s.2 s'.2 ∧ cb_keeps R s'.1.
End WithEnv.

Arguments StepTracker : clear implicits.
Arguments callback : clear implicits.

End Tracker.

(** ** The terminal, the console and the file system *)

Module World.
Import Py Tracker.
Local Open Scope py_scope.

(** What [readchar.readkey()] returns: one of the named keys of
    [readchar.key] that [get_key] tests for, or any other key string. *)
Inductive readkey :=
| UP | CTRL_P | DOWN | CTRL_N | ENTER | ESC | CTRL_C
| Char (s : string).

(** What reaches the user through [console]: printed text and the
    renderables of the two [Live] displays, each given by the data it is
    drawn from. *)
Inductive out :=
| Line (s : string)
| Banner
| SelectionPanel (prompt_text : string) (option_keys : list string)
    (selected_index : Z)
| TrackerTree (title : string) (steps : list step)
| SummaryPanel (title body : string).

#[global] Instance out_eq_dec : EqDecision out.
Proof. solve_decision. Defined.

(** A path below the working directory, as its components. *)
Abbreviation path := (list string).

Inductive node :=
| Dir (writable : bool)
| File (st_mode : Z) (data : string).

(** The host the command runs on. *)
Record host := {
  stdin_isatty : bool;
  platform_system : string;
  os_name : string;
  umask : Z
}.

Record world := {
  keys : list readkey;
  fs : gmap path node;
  console : list out
}.

Definition set_keys (ks : list readkey) (w : world) : world :=
  {| keys := ks; fs := fs w; console := console w |}.
Definition set_fs (f : gmap path node) (w : world) : world :=
  {| keys := keys w; fs := f; console := console w |}.
Definition set_console (c : list out) (w : world) : world :=
  {| keys := keys w; fs := fs w; console := c |}.

(** Showing something on the console. *)
Definition show (o : out) : M world unit :=
  modify (λ w, set_console (console w ++ [o]) w).

(** [console.print(s)] *)
Definition print (s : string) : M world unit := show (Line s).

(** [readchar.readkey()] *)
Definition readchar_readkey : M world readkey :=
  λ w, match keys w with
       | [] => (Blocked, w)
       | k :: ks => (Ok k, set_keys ks w)
       end.

(** *** Characters *)

Definition CR : string := String (ascii_of_nat 13) "".
Definition LF : string := String (ascii_of_nat 10) "".
Definition CRLF : string := CR +:+ LF.

(** *** Paths *)

Definition parent (p : path) : path := reverse (tail (reverse p)).

Definition sep (h : host) : string :=
  if bool_decide (os_name h = "nt") then "\" else "/".

(** [str(p)] for a relative path. *)
Definition path_str (h : host) (p : path) : string :=
  match p with
  | [] => "."
  | _ :: _ => String.concat (sep h) p
  end.

(** The components of a relative path written with [/]. *)
Fixpoint split_slash (cur : string) (s : string) : path :=
  match s with
  | EmptyString => if bool_decide (cur = "") then [] else [cur]
  | String c s' =>
      if bool_decide (c = "/"%char)
      then (if bool_decide (cur = "") then [] else [cur]) ++ split_slash "" s'
      else split_slash (cur +:+ String c "") s'
  end.

(** [p / s] *)
Definition joinpath (p : path) (s : string) : path := p ++ split_slash "" s.

(** *** The [OSError] family *)

Definition OSError (cls strerror : string) (h : host) (p : path) : exc :=
  Exception cls (strerror +:+ ": '" +:+ path_str h p +:+ "'").

Definition FileExistsError := OSError "FileExistsError" "[Errno 17] File exists".
Definition FileNotFoundError :=
  OSError "FileNotFoundError" "[Errno 2] No such file or directory".
Definition NotADirectoryError :=
  OSError "NotADirectoryError" "[Errno 20] Not a directory".
Definition IsADirectoryError :=
  OSError "IsADirectoryError" "[Errno 21] Is a directory".
Definition PermissionError :=
  OSError "PermissionError" "[Errno 13] Permission denied".

Definition is_FileNotFoundError (e : exc) : bool :=
  match e with
  | Exception cls _ => bool_decide (cls = "FileNotFoundError")
  | _ => false
  end.

Definition is_OSError (e : exc) : bool :=
  match e with
  | Exception cls _ =>
      bool_decide (cls ∈ ["OSError"; "FileExistsError"; "FileNotFoundError";
                          "NotADirectoryError"; "IsADirectoryError";
                          "PermissionError"])
  | _ => false
  end.

(** The file system alone, and a computation on it run in the world. *)
Abbreviation files := (gmap path node).

Definition on_fs {A} (m : M files A) : M world A :=
  λ w, let '(r, f) := m (fs w) in (r, set_fs f w).

Section Host.
Variable h : host.

(** What stands in the way of creating the entry [p], if anything. *)
Definition creatable (p : path) (f : files) : option exc :=
  match p with
  | [] => Some (FileNotFoundError h p)
  | _ :: _ =>
      match f !! parent p with
      | None => Some (FileNotFoundError h p)
      | Some (File _ _) => Some (NotADirectoryError h p)
      | Some (Dir false) => Some (PermissionError h p)
      | Some (Dir true) => None
      end
  end.

(** [os.mkdir(p)] *)
Definition os_mkdir (p : path) : M files unit :=
  λ f, match f !! p with
       | Some _ => (Raise (FileExistsError h p), f)
       | None =>
           match creatable p f with
           | Some e => (Raise e, f)
           | None => (Ok tt, <[p := Dir true]> f)
           end
       end.

(** [p.is_dir()] *)
Definition is_dir (p : path) : M files bool :=
  gets (λ f, match f !! p with Some (Dir _) => true | _ => false end).

(** [Path(p).mkdir(parents=True, exist_ok=True)] for [p = reverse rp], as
    [pathlib] defines it: [os.mkdir]; on [FileNotFoundError] the parent
    is made first and [os.mkdir] tried again; any other [OSError] is
    forgiven when [p] is a directory. *)
Fixpoint mkdir_rev (rp : list string) : M files unit :=
  let p := reverse rp in
  let exist_ok (e : exc) : M files unit :=
    (d <- is_dir p ;; if d then ret tt else raise e) in
  try_except (os_mkdir p) is_OSError (λ e,
    if is_FileNotFoundError e then
      match rp with
      | [] => raise e
      | _ :: rp' =>
          mkdir_rev rp' ;;;
          try_except (os_mkdir p) is_OSError exist_ok
      end
    else exist_ok e).

Definition mkdir (p : path) : M files unit := mkdir_rev (reverse p).

(** [with open(p, 'w', encoding='utf-8', newline='\n') as f:
    f.write(content)]: the text is stored as it is given, a new file gets
    the mode [0o666 & ~umask], an existing one keeps its mode. *)
Definition write_text (p : path) (content : string) : M files unit :=
  λ f, match f !! p with
       | Some (Dir _) => (Raise (IsADirectoryError h p), f)
       | Some (File mode _) =>
           if Z.testbit mode 7
           then (Ok tt, <[p := File mode content]> f)
           else (Raise (PermissionError h p), f)
       | None =>
           match creatable p f with
           | Some e => (Raise e, f)
           | None =>
               (Ok tt, <[p := File (Z.ldiff 438 (umask h)) content]> f)
           end
       end.

(** [os.stat(p).st_mode], the permission bits. *)
Definition os_stat (p : path) : M files Z :=
  λ f, match f !! p with
       | Some (File mode _) => (Ok mode, f)
       | Some (Dir true) => (Ok 493, f)
       | Some (Dir false) => (Ok 365, f)
       | None => (Raise (FileNotFoundError h p), f)
       end.

(** [os.chmod(p, mode)] *)
Definition os_chmod (p : path) (mode : Z) : M files unit :=
  λ f, match f !! p with
       | Some (File _ data) => (Ok tt, <[p := File mode data]> f)
       | Some (Dir _) => (Ok tt, <[p := Dir (Z.testbit mode 7)]> f)
       | None => (Raise (FileNotFoundError h p), f)
       end.
End Host.

(** The bytes of the file at [p], read back without newline translation. *)
Definition read_back (p : path) (f : files) : option string :=
  match f !! p with
  | Some (File _ data) => Some data
  | _ => None
  end.

(** From [w] to [w'] the console has only grown, by outputs that satisfy
    [P], and, when [frozen], the file system is the same. *)
Definition grows (P : out → Prop) (frozen : bool) (w w' : world) : Prop :=
  (∃ evs, console w' = console w ++ evs ∧ Forall P evs) ∧
  (frozen = true → fs w' = fs w).

(** The file at [p] holds the text [data]. *)
Definition holds_text (p : path) (data : string) (w : world) : Prop :=
  read_back p (fs w) = Some data.

End World.

(** ** The arrow-key selector *)

Module Selector.
Import Py Tracker World.
Local Open Scope py_scope.

(** [get_key()] *)
Definition get_key : M world string :=
  key <- readchar_readkey ;;
  match key with
  | UP | CTRL_P => ret "up"
  | DOWN | CTRL_N => ret "down"
  | ENTER => ret "enter"
  | ESC => ret "escape"
  | CTRL_C => raise KeyboardInterrupt
  | Char s => ret s
  end.

(** [a % n] *)
Definition py_mod {S} (a n : Z) : M S Z :=
  if n =? 0 then raise (Exception "ZeroDivisionError" "integer modulo by zero")
  else ret (a mod n).

(** [len(l)] *)
Definition len {A} (l : list A) : Z := Z.of_nat (length l).

(** [l[i]], negative indices counting from the end. *)
Definition py_getitem {S A} (l : list A) (i : Z) : M S A :=
  let j := if i <? 0 then len l + i else i in
  match (if j <? 0 then None else l !! Z.to_nat j) with
  | Some x => ret x
  | None => raise (Exception "IndexError" "list index out of range")
  end.

(** [l.index(x)] for an [x] that is in [l]. *)
Fixpoint index (x : string) (l : list string) : Z :=
  match l with
  | [] => 0
  | y :: l' => if bool_decide (y = x) then 0 else 1 + index x l'
  end.

Definition cancelled : string := "[yellow]Seleção cancelada.[/yellow]".

(** One pass of the [while True] loop: the panel is redrawn, one key is
    read and handled.  The result is the new [selected_index] and, after
    [break], the [selected_key]. *)
Definition select_pass (prompt_text : string) (option_keys : list string)
    (selected_index : Z) : M world (Z * option string) :=
  show (SelectionPanel prompt_text option_keys selected_index) ;;;
  try_except
    (key <- get_key ;;
     if bool_decide (key = "up") then
       i <- py_mod (selected_index - 1) (len option_keys) ;;
       ret (i, None)
     else if bool_decide (key = "down") then
       i <- py_mod (selected_index + 1) (len option_keys) ;;
       ret (i, None)
     else if bool_decide (key = "enter") then
       selected_key <- py_getitem option_keys selected_index ;;
       ret (selected_index, Some selected_key)
     else if bool_decide (key = "escape") then
       print cancelled ;;;
       raise (Exit 1)
     else ret (selected_index, None))
    is_KeyboardInterrupt
    (λ _, print (LF +:+ cancelled) ;;; raise (Exit 1)).

(** The loop; a pass reads one key, so one more pass than there are keys
    left is never needed. *)
Fixpoint select_loop (fuel : nat) (prompt_text : string)
    (option_keys : list string) (selected_index : Z) : M world string :=
  match fuel with
  | O => λ w, (Blocked, w)
  | S fuel' =>
      r <- select_pass prompt_text option_keys selected_index ;;
      match r with
      | (_, Some selected_key) => ret selected_key
      | (i, None) => select_loop fuel' prompt_text option_keys i
      end
  end.

(** The index the selector starts at: that of [default_key] when it is
    given and is an option, else [0]. *)
Definition initial_index (option_keys : list string)
    (default_key : option string) : Z :=
  match default_key with
  | Some d =>
      if bool_decide (d ≠ "") && bool_decide (d ∈ option_keys)
      then index d option_keys else 0
  | None => 0
  end.

(** [select_with_arrows(options, prompt_text, default_key)]; the options
    are the dictionary in its order. *)
Definition select_with_arrows {V} (options : list (string * V))
    (prompt_text : string) (default_key : option string) : M world string :=
  let option_keys := options.*1 in
  let selected_index := initial_index option_keys default_key in
  print "" ;;;
  show (SelectionPanel prompt_text option_keys selected_index) ;;;
  fuel <- gets (λ w, S (length (keys w))) ;;
  select_loop fuel prompt_text option_keys selected_index.

(** The index after one arrow key, as the specification writes it. *)
Definition spec_move (n : Z) (selected_index : Z) (k : readkey) : Z :=
  match k with
  | UP | CTRL_P => (selected_index - 1) mod n
  | DOWN | CTRL_N => (selected_index + 1) mod n
  | _ => selected_index
  end.

Definition is_arrow (k : readkey) : bool :=
  match k with
  | UP | CTRL_P | DOWN | CTRL_N => true
  | _ => false
  end.

(** The indices the loop passes through on a run of key presses, before
    each press. *)
Fixpoint positions (n : Z) (selected_index : Z) (presses : list readkey)
    : list Z :=
  match presses with
  | [] => []
  | k :: presses' =>
      selected_index :: positions n (spec_move n selected_index k) presses'
  end.

(** How the selector can end when its index is in range: with one of the
    options, with [typer.Exit(1)], or waiting for a key. *)
Definition selector_end (option_keys : list string) (r : res string) : Prop :=
  match r with
  | Ok k => k ∈ option_keys
  | Raise e => e = Exit 1
  | Blocked => True
  end.

(** The highlighted index of a selection panel lies in [[0, n-1]]. *)
Definition panel_in_range (n : Z) (o : out) : Prop :=
  match o with
  | SelectionPanel _ _ i => 0 <= i <= n - 1
  | _ => True
  end.

End Selector.

(** ** [create_file] and the [init] command *)

Module Cli.
Import Py Tracker World Selector.
Local Open Scope py_scope.

Record agent := { name : string; prompt_dir : string }.

Definition AGENT_CONFIG : list (string * agent) :=
  [("copilot", {| name := "GitHub Copilot"; prompt_dir := ".github/prompts" |});
   ("claude", {| name := "Claude Code"; prompt_dir := ".claude/prompts" |});
   ("gemini", {| name := "Gemini CLI"; prompt_dir := ".gemini/prompts" |});
   ("cursor", {| name := "Cursor (IDE)"; prompt_dir := ".cursor/prompts" |});
   ("openai", {| name := "OpenAI / Codex"; prompt_dir := ".openai/prompts" |});
   ("generic", {| name := "Genérico (Outros)";
                  prompt_dir := "code_review/prompts" |})].

Definition SCRIPT_TYPE_CHOICES : list (string * string) :=
  [("sh", "POSIX Shell (Bash/Zsh) - Linux/Mac"); ("ps", "PowerShell - Windows")].

(** [d[k]] on a dictionary kept in its order. *)
Definition py_lookup {S V} (d : list (string * V)) (k : string) : M S V :=
  match list_find (λ kv, kv.1 = k) d with
  | Some (_, (_, v)) => ret v
  | None => raise (Exception "KeyError" k)
  end.

(** [k in d] *)
Definition py_in {V} (k : string) (d : list (string * V)) : bool :=
  bool_decide (k ∈ d.*1).

(** [', '.join(d.keys())] *)
Definition join_keys {V} (d : list (string * V)) : string :=
  String.concat ", " (d.*1).

(** [s.upper()] on ASCII text. *)
Definition upper_char (c : ascii) : ascii :=
  let n := nat_of_ascii c in
  if ((97 <=? n) && (n <=? 122))%nat then ascii_of_nat (n - 32) else c.

Fixpoint upper (s : string) : string :=
  match s with
  | EmptyString => EmptyString
  | String c s' => String (upper_char c) (upper s')
  end.

(** The value of an option that was given and is not empty: what
    [if ai:] lets through. *)
Definition truthy (o : option string) : option string :=
  match o with
  | Some s => if bool_decide (s = "") then None else Some s
  | None => None
  end.

Definition ai_prompt : string := "Escolha seu Assistente de IA".
Definition script_prompt : string := "Escolha o Formato do Script".

Definition invalid_ai_message (ai : string) : string :=
  "[red]Erro: IA inválida '" +:+ ai +:+ "'.[/red] Opções: " +:+
  join_keys AGENT_CONFIG.

Definition invalid_script_message (script_type : string) : string :=
  "[red]Erro: Tipo de script inválido '" +:+ script_type +:+
  "'.[/red] Opções: " +:+ join_keys SCRIPT_TYPE_CHOICES.

Definition default_message (choice : string) : string :=
  "[dim]Ambiente não interativo, usando '" +:+ choice +:+
  "' como padrão.[/dim]".

(** No panel of the assistant menu. *)
Definition no_ai_panel (o : out) : Prop :=
  ∀ ks i, o ≠ SelectionPanel ai_prompt ks i.

Section Command.
(** The host, and the three embedded texts. *)
Variable h : host.
Variables SCRIPT_CONTENT_SH SCRIPT_CONTENT_PS PROMPT_CONTENT : string.

Abbreviation TM := (M (StepTracker world * world)).

Definition create_file (p : path) (content : string) (step_key : string)
    (make_executable : bool) : TM unit :=
  try_except
    (start step_key "" ;;;
     on_snd (on_fs (mkdir h (parent p))) ;;;
     let content := PyStr.replace_s CRLF LF content in
     on_snd (on_fs (write_text h p content)) ;;;
     if make_executable && negb (bool_decide (os_name h = "nt")) then
       st_mode <- on_snd (on_fs (os_stat h p)) ;;
       on_snd (on_fs (os_chmod h p (Z.lor st_mode 73))) ;;;
       complete step_key "criado & chmod +x"
     else
       complete step_key "criado")
    is_Exception
    (λ e, error step_key (exc_str e) ;;; raise e).

(** [# 1. Seleciona IA] *)
Definition resolve_ai (ai : option string) : M world string :=
  match truthy ai with
  | Some ai =>
      if py_in ai AGENT_CONFIG then ret ai
      else print (invalid_ai_message ai) ;;; raise (Exit 1)
  | None =>
      if negb (stdin_isatty h) then
        print (default_message "copilot") ;;;
        ret "copilot"
      else select_with_arrows AGENT_CONFIG ai_prompt (Some "copilot")
  end.

(** [# 2. Seleciona Tipo de Script] *)
Definition resolve_script (script_type : option string) : M world string :=
  match truthy script_type with
  | Some script_type =>
      if py_in script_type SCRIPT_TYPE_CHOICES then ret script_type
      else print (invalid_script_message script_type) ;;; raise (Exit 1)
  | None =>
      let default_script :=
        if bool_decide (platform_system h = "Windows") then "ps" else "sh" in
      if negb (stdin_isatty h) then
        print (default_message default_script) ;;;
        ret default_script
      else
        select_with_arrows SCRIPT_TYPE_CHOICES script_prompt
          (Some default_script)
  end.

(** [lambda: live.update(tracker.render())] *)
Definition live_update : callback world :=
  λ title steps, show (TrackerTree title steps).

Definition script_dir : path := [".code_review"; "scripts"].

(** The body of [with Live(tracker.render(), ...) as live:].  [None] is
    the [return] of the directory step; otherwise the two paths for the
    summary. *)
Definition with_live (selected_ai selected_script : string)
    : TM (option (path * path)) :=
  attach_refresh live_update ;;;
  cfg <- py_lookup AGENT_CONFIG selected_ai ;;
  let prompt_dir := joinpath [] (prompt_dir cfg) in
  start "dirs" "" ;;;
  made <- try_except
    (on_snd (on_fs (mkdir h script_dir)) ;;;
     on_snd (on_fs (mkdir h prompt_dir)) ;;;
     complete "dirs" "pronto" ;;;
     ret true)
    is_Exception
    (λ e, error "dirs" (exc_str e) ;;; ret false) ;;
  if negb made then ret None
  else
    script_path <-
      (if bool_decide (selected_script = "sh") then
         let script_path := joinpath script_dir "git-relatorio.sh" in
         create_file script_path SCRIPT_CONTENT_SH "script" true ;;;
         ret script_path
       else
         let script_path := joinpath script_dir "git-relatorio.ps1" in
         create_file script_path SCRIPT_CONTENT_PS "script" false ;;;
         ret script_path) ;;
    let prompt_path := joinpath prompt_dir "code_review.prompt.md" in
    create_file prompt_path PROMPT_CONTENT "prompt" false ;;;
    ret (Some (script_path, prompt_path)).

(** [# 3. Setup do Tracker] up to the end of the [with] block; the
    result carries the tracker as the block leaves it. *)
Definition tracked (selected_ai selected_script : string)
    : M world (option (path * path) * StepTracker world) :=
  λ w,
    let m : TM (option (path * path)) :=
      add "dirs" "Criar estrutura de diretórios" ;;;
      add "script" ("Gerar script " +:+ upper selected_script) ;;;
      add "prompt" ("Gerar Prompt para " +:+ selected_ai) ;;;
      t <- gets fst ;;
      on_snd (show (TrackerTree (title t) (steps t))) ;;;
      with_live selected_ai selected_script in
    match m (new "Inicializando Review Kit", w) with
    | (Ok r, (t, w')) => (Ok (r, t), w')
    | (Raise e, (_, w')) => (Raise e, w')
    | (Blocked, (_, w')) => (Blocked, w')
    end.

(** The tracker [init] has when it enters the [with] block. *)
Definition registered (selected_ai selected_script : string)
    : StepTracker world :=
  {| title := "Inicializando Review Kit";
     steps :=
       [Step "dirs" "Criar estrutura de diretórios" Pending "";
        Step "script" ("Gerar script " +:+ upper selected_script) Pending "";
        Step "prompt" ("Gerar Prompt para " +:+ selected_ai) Pending ""];
     _refresh_cb := None |}.

(** [# Sumário Final] *)
Definition summary (selected_script : string) (script_path prompt_path : path)
    : M world unit :=
  print (LF +:+ "[bold green]✨ Ambiente pronto![/bold green]") ;;;
  let rel_script := path_str h script_path in
  let rel_prompt := path_str h prompt_path in
  let run_command :=
    (if bool_decide (selected_script = "sh") then "./" else ".\") +:+
    rel_script +:+ " feature-branch" in
  show (SummaryPanel "Próximos Passos"
          ("Script: [cyan]" +:+ rel_script +:+ "[/cyan]" +:+ LF +:+
           "Prompt: [cyan]" +:+ rel_prompt +:+ "[/cyan]" +:+ LF +:+ LF +:+
           "[dim]Para executar (exemplo):[/dim]" +:+ LF +:+
           "[cyan]" +:+ run_command +:+ "[/cyan]")).

(** What [init] does once both choices are made. *)
Definition proceed (selected_ai selected_script : string)
    : M world (StepTracker world) :=
  cfg <- py_lookup AGENT_CONFIG selected_ai ;;
  print ("[cyan]Alvo:[/cyan] " +:+ name cfg) ;;;
  print ("[cyan]Script:[/cyan] " +:+ upper selected_script +:+ LF) ;;;
  r <- tracked selected_ai selected_script ;;
  match r with
  | (None, t) => ret t
  | (Some (script_path, prompt_path), t) =>
      summary selected_script script_path prompt_path ;;;
      ret t
  end.

(** The [init] command.  Its result is the tracker of the run, when the
    run got as far as making one. *)
Definition init (ai script_type : option string) (here : bool)
    : M world (StepTracker world) :=
  show Banner ;;;
  selected_ai <- resolve_ai ai ;;
  selected_script <- resolve_script script_type ;;
  proceed selected_ai selected_script.

(** Running the command from a fresh console. *)
Definition run (ai script_type : option string) (here : bool)
    (ks : list readkey) (f : files)
    : res (StepTracker world) * world :=
  init ai script_type here {| keys := ks; fs := f; console := [] |}.
End Command.

End Cli.

(** ** Hosts and working directories used as examples *)

Module Scenarios.
Import Py Tracker World.

(** A Linux host without a terminal on standard input, and one with. *)
Definition linux_pipe : host :=
  {| stdin_isatty := false; platform_system := "Linux"; os_name := "posix";
     umask := 18 |}.

Definition linux_tty : host :=
  {| stdin_isatty := true; platform_system := "Linux"; os_name := "posix";
     umask := 18 |}.

(** An empty, writable working directory. *)
Definition empty_dir : gmap path node := {[ [] := Dir true ]}.

(** A working directory in which [.code_review] is a regular file. *)
Definition blocked_dir : gmap path node :=
  <[ [".code_review"] := File 420 "" ]> empty_dir.

(** A working directory in which the place of the script is taken by a
    directory. *)
Definition taken_dir : gmap path node :=
  <[ [".code_review"; "scripts"; "git-relatorio.sh"] := Dir true ]>
    (<[ [".code_review"; "scripts"] := Dir true ]>
       (<[ [".code_review"] := Dir true ]> empty_dir)).

(** A renderer that fails, one that is interrupted, and a tracker with a
    callback attached. *)
Definition failing_cb : callback unit :=
  λ _ _ e, (Raise (Exception "RuntimeError" "render failed"), e).

Definition interrupted_cb : callback unit :=
  λ _ _ e, (Raise KeyboardInterrupt, e).

Definition tracker_with (cb : callback unit) : StepTracker unit :=
  {| title := "T"; steps := []; _refresh_cb := Some cb |}.

End Scenarios.

(** ** [powershell_utils.py]: [ensure_utf8_bom] and [format_ascii_log] *)

Module Utf8Bom.
Import PyStr.

(** Bytes, as numbers below 256. *)
Definition bytes := list N.

Definition CR : char := 13%N.
Definition LF : char := 10%N.

(** A code point [str.encode("utf-8")] accepts: not a surrogate, and not
    beyond U+10FFFF (no Python character is). *)
Definition encodable (c : char) : bool :=
  ((c <? 55296) || (57343 <? c))%N && (c <? 1114112)%N.

(** The UTF-8 bytes of one code point. *)
Definition utf8_char (c : char) : bytes :=
  if (c <? 128)%N then [c]
  else if (c <? 2048)%N then [192 + c / 64; 128 + c mod 64]%N
  else if (c <? 65536)%N then
    [224 + c / 4096; 128 + (c / 64) mod 64; 128 + c mod 64]%N
  else
    [240 + c / 262144; 128 + (c / 4096) mod 64; 128 + (c / 64) mod 64;
     128 + c mod 64]%N.

(** [s.encode("utf-8")]; [None] is [UnicodeEncodeError], raised at the
    first code point that is not [encodable]. *)
Fixpoint encode_utf8 (s : str) : option bytes :=
  match s with
  | [] => Some []
  | c :: s' =>
      if encodable c then (utf8_char c ++.) <$> encode_utf8 s' else None
  end.

(** The signature of [utf-8-sig]. *)
Definition BOM : bytes := [239; 187; 191]%N.

(** The text [ensure_utf8_bom] encodes: the three [replace] calls. *)
Definition normalized (content newline : str) : str :=
  let normalized := replace [CR] [LF] (replace [CR; LF] [LF] content) in
  replace [LF] newline normalized.

(** [ensure_utf8_bom(content, newline)] *)
Definition ensure_utf8_bom (content newline : str) : option bytes :=
  (BOM ++.) <$> encode_utf8 (normalized content newline).

(** The default [newline="\r\n"]. *)
Definition default_newline : str := [CR; LF].

(** Universal newlines in one pass: a CR LF pair, a CR and a LF each become
    [nl]; [after_cr] says that the character before was a CR. *)
Fixpoint universal (nl : str) (after_cr : bool) (s : str) : str :=
  match s with
  | [] => []
  | c :: s' =>
      if bool_decide (c = CR) then nl ++ universal nl true s'
      else if bool_decide (c = LF)
           then (if after_cr then [] else nl) ++ universal nl false s'
           else c :: universal nl false s'
  end.

(** Every LF comes right after a CR and every CR is followed by a LF;
    [after_cr] as above. *)
Fixpoint paired (after_cr : bool) (s : list N) : bool :=
  match s with
  | [] => negb after_cr
  | c :: s' =>
      if bool_decide (c = LF) then after_cr && paired false s'
      else if bool_decide (c = CR) then negb after_cr && paired true s'
      else negb after_cr && paired false s'
  end.

End Utf8Bom.

Module AsciiLog.

Definition prefix_map : list (string * string) :=
  [("info", "[INFO]"); ("success", "[OK]"); ("error", "[ERR]")].

(** [d.get(k, default)] *)
Definition py_get (d : list (string * string)) (k default : string) : string :=
  match list_find (λ kv, kv.1 = k) d with
  | Some (_, (_, v)) => v
  | None => default
  end.

(** [format_ascii_log(message, status)] *)
Definition format_ascii_log (message status : string) : string :=
  let prefix := py_get prefix_map status "[INFO]" in
  prefix +:+ " " +:+ message.

End AsciiLog.

(** ** Safe branch names *)

Module SafeNames.
Import PyStr PowershellUtils.

(** What [sanitize_branch_name] is sure of about its result, in one
    predicate: not empty, free of the token characters and of [--], and
    without white space at either end. *)
Definition safe_name (r : str) : Prop :=
  r ≠ [] ∧
  (∀ c, c ∈ token_chars → c ∉ r) ∧
  contains dashdash r = false ∧
  (∀ c, head r = Some c ∨ last r = Some c → isspace c = false).

End SafeNames.

(** ** Steps by key *)

Module Steps.
Import Py Tracker.

(** The step a call with the key [k] acts on: the first one with that
    key, with its position. *)
Definition find_step (k : string) (l : list step) : option (nat * step) :=
  list_find (λ s, key s = k) l.

(** What [_update] makes of the step it finds. *)
Definition touched (st : status) (d : string) (s : step) : step :=
  Step (key s) (label s) st (if bool_decide (d = "") then detail s else d).

(** The key a call is about. *)
Definition call_key (c : call) : string :=
  match c with
  | CallAdd k _ | CallStart k _ | CallComplete k _ | CallError k _ => k
  end.

(** A call that leaves the steps as they are: [add] with a key that is
    taken. *)
Definition idle (c : call) (l : list step) : bool :=
  match c with
  | CallAdd k _ => bool_decide (k ∈ key <$> l)
  | _ => false
  end.

End Steps.

(** ** Keys as the selector reads them *)

Module SelectorKeys.
Import Py World Selector.

(** What [get_key] makes of a key press: the string it returns, and
    nothing for Ctrl-C, on which it raises. *)
Definition key_name (k : readkey) : option string :=
  match k with
  | UP | CTRL_P => Some "up"
  | DOWN | CTRL_N => Some "down"
  | ENTER => Some "enter"
  | ESC => Some "escape"
  | CTRL_C => None
  | Char s => Some s
  end.

(** The three kinds of key press for the loop: one that selects, one
    that cancels, and every other one, after which the loop goes on. *)
Definition confirms (k : readkey) : bool :=
  bool_decide (key_name k = Some "enter").

Definition cancels (k : readkey) : bool :=
  match key_name k with
  | Some s => bool_decide (s = "escape")
  | None => true
  end.

Definition navigates (k : readkey) : bool :=
  negb (confirms k) && negb (cancels k).

(** The index after a key press that lets the loop go on. *)
Definition step_index (n : Z) (selected_index : Z) (k : readkey) : Z :=
  match key_name k with
  | Some s =>
      if bool_decide (s = "up") then (selected_index - 1) mod n
      else if bool_decide (s = "down") then (selected_index + 1) mod n
      else selected_index
  | None => selected_index
  end.

(** The indices the panel is redrawn with on a run of such presses, one
    before each press. *)
Fixpoint trail (n : Z) (selected_index : Z) (presses : list readkey) : list Z :=
  match presses with
  | [] => []
  | k :: presses' =>
      selected_index :: trail n (step_index n selected_index k) presses'
  end.

(** The line printed when the selection is cancelled: Ctrl-C is handled
    by the [except] clause, which starts a new line first. *)
Definition cancel_notice (k : readkey) : string :=
  match key_name k with
  | Some _ => cancelled
  | None => LF +:+ cancelled
  end.

(** The option the selector starts on. *)
Definition preselected (option_keys : list string)
    (default_key : option string) : option string :=
  match default_key with
  | Some d =>
      if bool_decide (d ≠ "") && bool_decide (d ∈ option_keys) then Some d
      else head option_keys
  | None => head option_keys
  end.

(** The world after the panel is drawn and one key is taken. *)
Definition drawn (prompt_text : string) (option_keys : list string) (i : Z)
    (rest : list readkey) (w : world) : world :=
  {| keys := rest; fs := fs w;
     console := console w ++ [SelectionPanel prompt_text option_keys i] |}.

End SelectorKeys.

(** ** What a run leaves of the files, and how it ends *)

Module Frame.
Import Py Tracker World Selector Cli.

(** Outside the paths [ps] the files [f'] are the files [f], but for
    directories made where there was nothing. *)
Definition touches (ps : list path) (f f' : files) : Prop :=
  ∀ q, q ∉ ps →
    f' !! q = f !! q ∨ (f !! q = None ∧ f' !! q = Some (Dir true)).

Definition touches_world (ps : list path) (w w' : world) : Prop :=
  touches ps (fs w) (fs w').

(** The files are the same. *)
Definition same_fs (w w' : world) : Prop := fs w' = fs w.

(** A tracker whose callback, if it has one, returns or raises a fault
    each time it is called. *)
Definition quiet {E} (t : StepTracker E) : Prop :=
  ∀ cb, _refresh_cb t = Some cb → returns_or_faults cb.

(** The status and the detail of the step a key stands for. *)
Definition shows_step (k : string) (st : status) (d : string)
    (l : list step) : Prop :=
  ∃ i s, Steps.find_step k l = Some (i, s) ∧ status_of s = st ∧ detail s = d.

(** The mode [create_file] leaves the file with: that of the file it
    found, or [0o666 & ~umask] for a new one, with the three execute bits
    added when asked for and not on Windows. *)
Definition written_mode (h : host) (make_executable : bool)
    (old : option node) : Z :=
  let st_mode :=
    match old with
    | Some (File mode _) => mode
    | _ => Z.ldiff 438 (umask h)
    end in
  if make_executable && negb (bool_decide (os_name h = "nt"))
  then Z.lor st_mode 73 else st_mode.

(** An [OSError] with a message. *)
Definition os_fault (e : exc) : bool :=
  is_OSError e && negb (bool_decide (exc_str e = "")).

(** How a call on the files can end: it returns, or it raises such an
    error. *)
Definition fails_os {A} (m : M files A) : Prop :=
  ∀ f, match (m f).1 with
       | Ok _ => True
       | Raise e => os_fault e = true
       | Blocked => False
       end.

(** The directories made on the way to [d]: where [f'] differs from [f]
    there was nothing, there is a directory now, and the place is [d] or
    above it. *)
Definition made_above (d : path) (f f' : files) : Prop :=
  ∀ q, f' !! q = f !! q ∨
       (f !! q = None ∧ f' !! q = Some (Dir true) ∧ q `prefix_of` d).

(** The calls of [create_file] on the files, in a row, and the detail
    of the step when they have succeeded. *)
Definition fs_calls (h : host) (p : path) (content : string)
    (make_executable : bool) : M files unit :=
  bind (mkdir h (parent p)) (λ _,
  bind (write_text h p content) (λ _,
  if make_executable && negb (bool_decide (os_name h = "nt")) then
    bind (os_stat h p) (λ st_mode, os_chmod h p (Z.lor st_mode 73))
  else ret tt)).

Definition done_detail (h : host) (make_executable : bool) : string :=
  if make_executable && negb (bool_decide (os_name h = "nt"))
  then "criado & chmod +x" else "criado".

(** Every file [init] can write: the two scripts and the prompt of each
    assistant. *)
Definition init_targets : list path :=
  [joinpath script_dir "git-relatorio.sh";
   joinpath script_dir "git-relatorio.ps1"] ++
  ((λ kv, joinpath (joinpath [] (prompt_dir kv.2)) "code_review.prompt.md")
     <$> AGENT_CONFIG).

End Frame.

(** ** How a computation ends *)

Module Outcome.
Import Py Tracker World Selector Cli Frame.

(** No key is read. *)
Definition same_keys (w w' : world) : Prop := keys w' = keys w.

(** From a state in [I] the computation [m] ends in a state in [I]; it
    raises nothing but exceptions in [Q], and it waits for a key only if
    [B]. *)
Definition ends {S A} (I : S → Prop) (Q : exc → Prop) (B : Prop)
    (m : M S A) : Prop :=
  ∀ s, I s →
    match m s with
    | (Ok _, s') => I s'
    | (Raise e, s') => Q e ∧ I s'
    | (Blocked, _) => B
    end.

(** The tracker is quiet. *)
Definition quiet_state (s : StepTracker world * world) : Prop := quiet s.1.

(** What [init] can raise: [typer.Exit(1)], or an [OSError] with a
    message. *)
Definition init_raises (e : exc) : Prop := e = Exit 1 ∨ os_fault e = true.

(** The two files a run with the assistant [cfg] and the script type
    [s] writes, and the text of the script. *)
Definition script_path_of (s : string) : path :=
  joinpath script_dir
    (if bool_decide (s = "sh") then "git-relatorio.sh" else "git-relatorio.ps1").

Definition prompt_path_of (cfg : agent) : path :=
  joinpath (joinpath [] (prompt_dir cfg)) "code_review.prompt.md".

Definition script_content_of (SCRIPT_CONTENT_SH SCRIPT_CONTENT_PS s : string)
    : string :=
  if bool_decide (s = "sh") then SCRIPT_CONTENT_SH else SCRIPT_CONTENT_PS.

(** The steps of the tracker when all went well. *)
Definition all_done (h : host) (selected_ai selected_script : string)
    : list step :=
  [Step "dirs" "Criar estrutura de diretórios" Done "pronto";
   Step "script" ("Gerar script " +:+ upper selected_script) Done
     (done_detail h (bool_decide (selected_script = "sh")));
   Step "prompt" ("Gerar Prompt para " +:+ selected_ai) Done "criado"].

End Outcome.

(** ** A tracker and worlds used as examples *)

Module Examples.
Import Py Tracker World Scenarios.

(** A tracker of two steps, without a callback. *)
Definition two_steps : StepTracker unit :=
  {| title := "T";
     steps := [Step "dirs" "Criar" Pending ""; Step "script" "Gerar" Running "x"];
     _refresh_cb := None |}.

(** The empty working directory with the keys [ks] waiting to be read. *)
Definition typed (ks : list readkey) : world :=
  {| keys := ks; fs := empty_dir; console := [] |}.

(** The tracker a run returns; a fresh one when it does not return. *)
Definition tracker_of {A} (r : res (StepTracker world) * A)
    : StepTracker world :=
  match r.1 with
  | Ok t => t
  | _ => new ""
  end.

End Examples.

(** * Properties *)

(** ** [str] operations *)

Module PyStrFacts.
Import PyStr.

Section Generic.
Context {A : Type} `{EqDecision A}.
Implicit Types old new s : list A.

Lemma starts_with_spec old s :
  starts_with old s = true ↔ ∃ l, s = old ++ l.
Proof.
  revert s; induction old as [|a old IH]; intros s; simpl.
  - split; [intros _; by exists s | done].
  - destruct s as [|c s]; simpl.
    + split; [done | by intros [l ?]].
    + rewrite andb_true_iff, bool_decide_eq_true, IH. split.
      * intros [-> [l ->]]. by exists l.
      * intros [l Hl]. simplify_eq. eauto.
Qed.

Lemma starts_with_length old s :
  starts_with old s = true → (length old ≤ length s)%nat.
Proof.
  rewrite starts_with_spec. intros [l ->]. rewrite length_app. lia.
Qed.

Lemma contains_spec old s :
  contains old s = true ↔ ∃ l1 l2, s = l1 ++ old ++ l2.
Proof.
  induction s as [|c s IH].
  - cbn [contains]. rewrite orb_false_r, starts_with_spec. split.
    + intros [l ->]. by exists [], l.
    + intros (l1 & l2 & Hs). symmetry in Hs.
      apply app_eq_nil in Hs as [-> Hs]. apply app_eq_nil in Hs as [-> ->].
      by exists [].
  - cbn [contains]. rewrite orb_true_iff, IH, starts_with_spec. split.
    + intros [[l ->] | (l1 & l2 & ->)].
      * by exists [], l.
      * by exists (c :: l1), l2.
    + intros ([|c' l1] & l2 & Hs); simpl in Hs.
      * left. eauto.
      * right. simplify_eq. eauto.
Qed.

(** The scan never lengthens the text when [new] is no longer than
    [old], and it passes over the [k] characters it has to skip. *)
Lemma replace_from_length old new k s :
  (length new ≤ length old)%nat → (k ≤ length s)%nat →
  (length (replace_from old new k s) + k ≤ length s)%nat.
Proof.
  intros Hnew. revert k. induction s as [|c s IH]; intros k Hk; simpl in *.
  - lia.
  - destruct k as [|k].
    + destruct (starts_with old (c :: s)) eqn:Hsw.
      * apply starts_with_length in Hsw. simpl in Hsw.
        rewrite length_app.
        specialize (IH (length old - 1)%nat). lia.
      * specialize (IH 0%nat). simpl. lia.
    + specialize (IH k). lia.
Qed.

(** A pass that finds [old] and puts a shorter [new] in its place
    shortens the text. *)
Lemma replace_from_shorter old new s :
  (length new < length old)%nat → contains old s = true →
  (length (replace_from old new 0 s) < length s)%nat.
Proof.
  intros Hnew. induction s as [|c s IH]; cbn [contains replace_from].
  - rewrite orb_false_r. intros Hsw%starts_with_length. simpl in Hsw. lia.
  - destruct (starts_with old (c :: s)) eqn:Hsw.
    + intros _. apply starts_with_length in Hsw. simpl in Hsw.
      rewrite length_app. simpl.
      pose proof (replace_from_length old new (length old - 1) s). lia.
    + simpl. intros Hc%IH. lia.
Qed.

(** Whatever is in the result was in the text or comes from [new]. *)
Lemma replace_from_elem old new k s x :
  x ∈ replace_from old new k s → x ∈ s ∨ x ∈ new.
Proof.
  revert k. induction s as [|c s IH]; intros k; simpl.
  - by left.
  - destruct k as [|k].
    + destruct (starts_with old (c :: s)).
      * rewrite elem_of_app. intros [?|[?|?]%IH]; set_solver.
      * rewrite elem_of_cons. intros [->|[?|?]%IH]; set_solver.
    + intros [?|?]%IH; set_solver.
Qed.

(** Replacing a single character is a map. *)
Lemma replace_char (t d : A) s :
  replace [t] [d] s = (λ c, if bool_decide (t = c) then d else c) <$> s.
Proof.
  unfold replace. induction s as [|c s IH]; [done|].
  cbn [replace_from starts_with length]. rewrite andb_true_r.
  cbn [fmap list_fmap]. simpl in IH. rewrite <-IH.
  by destruct (bool_decide (t = c)).
Qed.

Lemma lstrip_length sp s : (length (lstrip sp s) ≤ length s)%nat.
Proof.
  induction s as [|c s IH]; simpl; [lia|]. destruct (sp c); simpl; lia.
Qed.

Lemma strip_length sp s : (length (strip sp s) ≤ length s)%nat.
Proof.
  unfold strip, rstrip. rewrite length_reverse.
  etrans; [apply lstrip_length|]. rewrite length_reverse.
  apply lstrip_length.
Qed.

Lemma lstrip_all sp s : Forall (λ c, sp c = true) s → lstrip sp s = [].
Proof. induction 1 as [|c s Hc _ IH]; simpl; [done|]. by rewrite Hc. Qed.

Lemma strip_all sp s : Forall (λ c, sp c = true) s → strip sp s = [].
Proof. intros Hs. unfold strip. by rewrite lstrip_all. Qed.
End Generic.

End PyStrFacts.

(** ** [sanitize_branch_name] *)

Module PowershellUtilsFacts.
Import PyStr PyStrFacts PowershellUtils.

Lemma tokens_chars : tokens = (λ c, [c]) <$> token_chars.
Proof. reflexivity. Qed.

(** The [for] loop over the tokens maps every token character to a dash
    and leaves the others alone. *)
Lemma replace_chars (d : char) (ts : list char) (s : str) :
  d ∉ ts →
  foldl (λ safe token, replace token [d] safe) s ((λ c, [c]) <$> ts)
  = (λ c, if bool_decide (c ∈ ts) then d else c) <$> s.
Proof.
  revert s. induction ts as [|t ts IH]; intros s Hd.
  - cbn [fmap list_fmap foldl]. rewrite <-(list_fmap_id s) at 1.
    apply list_fmap_ext. intros _ c _.
    by rewrite bool_decide_eq_false_2 by set_solver.
  - cbn [fmap list_fmap foldl]. rewrite replace_char, IH by set_solver.
    rewrite <-list_fmap_compose. apply list_fmap_ext. intros _ c _. simpl.
    destruct (decide (t = c)) as [->|Hne].
    + rewrite (bool_decide_eq_true_2 (c = c)) by done.
      rewrite (bool_decide_eq_false_2 (d ∈ ts)) by set_solver.
      by rewrite bool_decide_eq_true_2 by set_solver.
    + rewrite (bool_decide_eq_false_2 (t = c)) by done.
      destruct (decide (c ∈ ts)).
      * rewrite !bool_decide_eq_true_2; [done| |done].
        rewrite elem_of_cons. by right.
      * rewrite !bool_decide_eq_false_2; [done| |done].
        rewrite elem_of_cons. by intros [->|?].
Qed.

Lemma replace_tokens_map (s : str) :
  replace_tokens s
  = (λ c, if bool_decide (c ∈ token_chars) then dash_char else c) <$> s.
Proof.
  unfold replace_tokens. rewrite tokens_chars.
  apply (replace_chars dash_char), (bool_decide_unpack _). by vm_compute.
Qed.

Lemma replace_tokens_length (s : str) : length (replace_tokens s) = length s.
Proof. by rewrite replace_tokens_map, length_fmap. Qed.

Lemma replace_tokens_clean (s : str) (c : char) :
  c ∈ replace_tokens s → c ∉ token_chars.
Proof.
  rewrite replace_tokens_map. intros (x & -> & _)%list_elem_of_fmap.
  case_bool_decide as Hx; [|done].
  apply (bool_decide_unpack _). by vm_compute.
Qed.

(** With the length of the text as fuel the [while] loop ends, on a text
    without [--], and it brings in no character the text did not have. *)
Lemma collapse_total (fuel : nat) (s : str) :
  (length s ≤ fuel)%nat →
  ∃ r, collapse fuel s = Some r ∧ contains dashdash r = false ∧
       ∀ c, c ∈ r → c ∈ s.
Proof.
  revert s. induction fuel as [|fuel IH]; intros s Hlen; simpl.
  - destruct s; [|simpl in Hlen; lia]. by exists [].
  - destruct (contains dashdash s) eqn:Hc; [|by exists s].
    pose proof (replace_from_shorter dashdash dash s) as Hlt.
    destruct (IH (replace dashdash dash s)) as (r & Hr & Hclean & Helem).
    { unfold replace. simpl in *. specialize (Hlt ltac:(lia) Hc). lia. }
    exists r. repeat split; [done..|]. intros c Hin.
    apply Helem, replace_from_elem in Hin as [?|Hd]; [done|].
    apply contains_spec in Hc as (l1 & l2 & ->).
    apply list_elem_of_singleton in Hd as ->. set_solver.
Qed.

(** More fuel does not change the outcome. *)
Lemma collapse_fuel_mono (fuel fuel' : nat) (s r : str) :
  collapse fuel s = Some r → (fuel ≤ fuel')%nat → collapse fuel' s = Some r.
Proof.
  revert fuel' s. induction fuel as [|fuel IH]; intros fuel' s; simpl.
  - destruct (contains dashdash s) eqn:Hc; [done|].
    intros ? _. destruct fuel'; simpl; by rewrite Hc.
  - destruct (contains dashdash s) eqn:Hc.
    + intros Hr Hle. destruct fuel' as [|fuel']; [lia|]. simpl.
      rewrite Hc. apply IH; [done | lia].
    + intros ? _. destruct fuel'; simpl; by rewrite Hc.
Qed.

(** C10.  [sanitize_branch_name] returns on every input, and what it
    returns is a non-empty string that holds none of the characters
    [/ \ : space . ~ ^ [ ]] and nowhere two dashes in a row; for an empty
    input, or one of white space only, it is the literal [branch]. *)
Theorem sanitize_branch_name_safe (branch : str) :
  ∃ r, sanitize_branch_name branch = Some r ∧
       r ≠ [] ∧
       (∀ c, c ∈ token_chars → c ∉ r) ∧
       (¬ ∃ l1 l2, r = l1 ++ lit "--" ++ l2) ∧
       (Forall (λ c, isspace c = true) branch → r = lit "branch").
Proof.
  unfold sanitize_branch_name, sanitize_branch_name_fuel.
  destruct (collapse_total (length branch) (replace_tokens (strip isspace branch)))
    as (r0 & Hr0 & Hclean & Helem).
  { rewrite replace_tokens_length. apply strip_length. }
  rewrite Hr0. exists (or_branch r0). split; [done|].
  destruct r0 as [|c0 r0]; cbn [or_branch].
  - split_and!; [by vm_compute| | |done].
    + intros c Hc Hin. vm_compute in Hin. unfold token_chars in Hc.
      set_unfold. naive_solver.
    + intros Hsub%contains_spec. by vm_compute in Hsub.
  - split_and!; [done| | |].
    + intros c Hc Hin%Helem. by apply replace_tokens_clean in Hin.
    + intros Hsub%contains_spec. unfold dashdash in Hclean. congruence.
    + intros Hws. rewrite (strip_all _ _ Hws) in Hr0.
      by destruct (length branch).
Qed.

Example sanitize_feature :
  sanitize_branch_name (lit "feature/my branch.v2")
  = Some (lit "feature-my-branch-v2").
Proof. reflexivity. Qed.

Example sanitize_runs :
  sanitize_branch_name (lit "  a//b - c  ") = Some (lit "a-b-c").
Proof. reflexivity. Qed.

Example sanitize_nbsp :
  sanitize_branch_name [160%N; 12288%N] = Some (lit "branch").
Proof. reflexivity. Qed.

(** The theorem at the blank branch name of three spaces. *)
Lemma sanitize_branch_name_safe_witness :
  ∃ r, sanitize_branch_name (lit "   ") = Some r ∧ r = lit "branch".
Proof.
  destruct (sanitize_branch_name_safe (lit "   ")) as (r & Hr & _ & _ & _ & Hb).
  exists r. split; [exact Hr|]. apply Hb. repeat constructor.
Defined.

End PowershellUtilsFacts.


(** ** Computations: relations kept by every step, and single steps *)

Module Keeps.
Import Py.

Section Generic.
Context {S : Type} {R : S → S → Prop} `{!Reflexive R, !Transitive R}.

Lemma keeps_ret {A} (a : A) : keeps R (ret a).
Proof. intros s. simpl. reflexivity. Qed.

Lemma keeps_raise {A} (e : exc) : keeps R (raise (A:=A) e).
Proof. intros s. simpl. reflexivity. Qed.

Lemma keeps_gets {A} (f : S → A) : keeps R (gets f).
Proof. intros s. simpl. reflexivity. Qed.

Lemma keeps_modify (f : S → S) : (∀ s, R s (f s)) → keeps R (modify f).
Proof. intros Hf s. apply Hf. Qed.

Lemma keeps_bind {A B} (m : M S A) (k : A → M S B) :
  keeps R m → (∀ a, keeps R (k a)) → keeps R (bind m k).
Proof.
  intros Hm Hk s. unfold bind. specialize (Hm s).
  destruct (m s) as [[a|e|] s']; simpl in *; [|done..].
  etrans; [exact Hm | apply Hk].
Qed.

Lemma keeps_try_except {A} (body : M S A) cls (handler : exc → M S A) :
  keeps R body → (∀ e, keeps R (handler e)) →
  keeps R (try_except body cls handler).
Proof.
  intros Hb Hh s. unfold try_except. specialize (Hb s).
  destruct (body s) as [[a|e|] s']; simpl in *; [done| |done].
  destruct (cls e); simpl; [|done]. etrans; [exact Hb | apply Hh].
Qed.

Lemma keeps_if {A} (b : bool) (m1 m2 : M S A) :
  keeps R m1 → keeps R m2 → keeps R (if b then m1 else m2).
Proof. by destruct b. Qed.
End Generic.

(** Running a computation step by step. *)

Lemma bind_ok {S A B} (m : M S A) (k : A → M S B) s a s' :
  m s = (Ok a, s') → bind m k s = k a s'.
Proof. intros Hm. unfold bind. by rewrite Hm. Qed.

Lemma bind_raise {S A B} (m : M S A) (k : A → M S B) s e s' :
  m s = (Raise e, s') → bind m k s = (Raise e, s').
Proof. intros Hm. unfold bind. by rewrite Hm. Qed.

Lemma try_caught {S A} (body : M S A) cls handler s e s' :
  body s = (Raise e, s') → cls e = true →
  try_except body cls handler s = handler e s'.
Proof. intros Hb He. unfold try_except. by rewrite Hb, He. Qed.

(** What [bind] can return is what its second part returns. *)
Lemma bind_inv_ok {S A B} (m : M S A) (k : A → M S B) s b s2 :
  bind m k s = (Ok b, s2) → ∃ a s1, m s = (Ok a, s1) ∧ k a s1 = (Ok b, s2).
Proof.
  unfold bind. destruct (m s) as [[a|e|] s1]; [|done..]. intros Hk. eauto.
Qed.

#[global] Instance stays_refl {S} (Q : S → Prop) : Reflexive (stays Q).
Proof. intros s Hs. exact Hs. Qed.

#[global] Instance stays_trans {S} (Q : S → Prop) : Transitive (stays Q).
Proof. intros s1 s2 s3 H12 H23 H1. by apply H23, H12. Qed.

End Keeps.

(** ** [StepTracker] *)

Module TrackerFacts.
Import Py Tracker Scenarios.

Section WithEnv.
Context {E : Type}.
Implicit Types (t : StepTracker E) (e : E) (l : list step).

(** [_maybe_refresh] by cases on the callback and on how it ends. *)
Lemma maybe_refresh_eq t e :
  _maybe_refresh (t, e) =
  match _refresh_cb t with
  | None => (Ok tt, (t, e))
  | Some cb =>
      match cb (title t) (steps t) e with
      | (Ok _, e') => (Ok tt, (t, e'))
      | (Raise x, e') =>
          if is_Exception x then (Ok tt, (t, e')) else (Raise x, (t, e'))
      | (Blocked, e') => (Blocked, (t, e'))
      end
  end.
Proof.
  unfold _maybe_refresh, bind, gets, try_except, on_snd, ret. cbn.
  destruct (_refresh_cb t) as [cb|]; [|done]. cbn.
  by destruct (cb (title t) (steps t) e) as [[[]|x|] e'].
Qed.

(** It never touches the tracker and never raises a fault. *)
Lemma maybe_refresh_safe t e :
  ∃ r e', _maybe_refresh (t, e) = (r, (t, e')) ∧
          (∀ x, r = Raise x → is_Exception x = false) ∧
          (_refresh_cb t = None → r = Ok tt ∧ e' = e).
Proof.
  rewrite maybe_refresh_eq. destruct (_refresh_cb t) as [cb|].
  - destruct (cb (title t) (steps t) e) as [[[]|x|] e'].
    + exists (Ok tt), e'. by split_and!.
    + destruct (is_Exception x) eqn:Hx.
      * exists (Ok tt), e'. by split_and!.
      * exists (Raise x), e'. split_and!; [done| |done]. congruence.
    + exists Blocked, e'. by split_and!.
  - exists (Ok tt), e. by split_and!.
Qed.

(** With a callback that returns or faults it returns. *)
Lemma maybe_refresh_swallows t e cb :
  _refresh_cb t = Some cb → returns_or_faults cb →
  ∃ e', _maybe_refresh (t, e) = (Ok tt, (t, e')).
Proof.
  intros Hcb Hok. rewrite maybe_refresh_eq, Hcb.
  specialize (Hok (title t) (steps t) e).
  destruct (cb (title t) (steps t) e) as [[[]|x|] e']; simpl in Hok.
  - by exists e'.
  - rewrite Hok. by exists e'.
  - done.
Qed.

Lemma update_first_None k st d l :
  k ∉ key <$> l → update_first k st d l = None.
Proof.
  induction l as [|s l IH]; [done|]. cbn [fmap list_fmap update_first].
  rewrite elem_of_cons. intros Hk.
  rewrite bool_decide_eq_false_2 by naive_solver.
  rewrite IH by naive_solver. done.
Qed.

Lemma update_first_keys k st d l l' :
  update_first k st d l = Some l' → key <$> l' = key <$> l.
Proof.
  revert l'. induction l as [|s l IH]; intros l'; [done|].
  cbn [update_first]. case_bool_decide.
  - by intros [= <-].
  - destruct (update_first k st d l) as [l0|]; [|done].
    intros [= <-]. cbn [fmap list_fmap]. f_equal. by apply IH.
Qed.

Lemma filter_key_absent k l :
  k ∉ key <$> l → filter (λ s, key s = k) l = [].
Proof.
  induction l as [|s l IH]; [done|]. cbn [fmap list_fmap].
  rewrite elem_of_cons. intros Hk.
  rewrite filter_cons_False by naive_solver. apply IH. naive_solver.
Qed.

(** [_update] is the change of the steps followed by the refresh. *)
Lemma update_eq k st d t e :
  _update k st d (t, e) =
  _maybe_refresh (set_steps (updated k st d (steps t)) t, e).
Proof.
  unfold _update, updated, bind, gets, modify. simpl.
  by destruct (update_first k st d (steps t)).
Qed.

(** [add] likewise, when the key is new; otherwise it does nothing. *)
Lemma add_eq k lbl t e :
  add k lbl (t, e) =
  if bool_decide (k ∈ key <$> steps t) then (Ok tt, (t, e))
  else _maybe_refresh (set_steps (steps t ++ [Step k lbl Pending ""]) t, e).
Proof.
  unfold add, bind, gets, modify, ret. simpl. by case_bool_decide.
Qed.

Lemma update_appends k st d t e :
  k ∉ key <$> steps t → appends (_update k st d) t e (Step k k st d).
Proof.
  intros Hk. unfold appends. rewrite update_eq. unfold updated.
  rewrite update_first_None by done. simpl.
  destruct (maybe_refresh_safe (set_steps (steps t ++ [Step k k st d]) t) e)
    as (r & e' & -> & Hr & Hnone).
  by eexists r, _, e'.
Qed.

(** C4.  [start], [complete] and [error] on a key that no step carries
    append exactly one step with that key (as key and as label) in status
    running, done and error respectively, change nothing else of the
    tracker, and raise no fault. *)
Theorem update_unregistered_appends t e (k d : string) :
  k ∉ key <$> steps t →
  appends (start k d) t e (Step k k Running d) ∧
  appends (complete k d) t e (Step k k Done d) ∧
  appends (error k d) t e (Step k k Error d).
Proof. intros Hk. split_and!; by apply update_appends. Qed.

(** C5.  Registering a key twice with [add], on a tracker that does not
    have it yet, leaves exactly one step with that key, in status pending
    and with the label of the first call: the second call returns without
    changing the tracker or calling the callback. *)
Theorem add_twice_once t e (k l1 l2 : string) :
  k ∉ key <$> steps t →
  ∃ r1 t1 e1,
    add k l1 (t, e) = (r1, (t1, e1)) ∧
    steps t1 = steps t ++ [Step k l1 Pending ""] ∧
    add k l2 (t1, e1) = (Ok tt, (t1, e1)) ∧
    filter (λ s, key s = k) (steps t1) = [Step k l1 Pending ""].
Proof.
  intros Hk. rewrite add_eq, bool_decide_eq_false_2 by done.
  destruct (maybe_refresh_safe (set_steps (steps t ++ [Step k l1 Pending ""]) t) e)
    as (r & e' & -> & _).
  eexists r, _, e'. split_and!; [done..| |].
  - rewrite add_eq, bool_decide_eq_true_2; [done|].
    simpl. rewrite fmap_app. set_solver.
  - simpl. rewrite filter_app, filter_cons_True, filter_nil by done.
    by rewrite filter_key_absent.
Qed.

(** C9.  With a callback attached that faults (raises an instance of
    [Exception]) or returns, every mutating call returns normally, and the
    steps it leaves are those the same call leaves on the tracker with no
    callback. *)
Theorem refresh_fault_swallowed t e cb (c : call) :
  _refresh_cb t = Some cb → returns_or_faults cb →
  ∃ t' e' t0,
    do_call c (t, e) = (Ok tt, (t', e')) ∧
    do_call c (detached t, e) = (Ok tt, (t0, e)) ∧
    steps t' = steps t0 ∧ title t' = title t0 ∧
    _refresh_cb t' = Some cb.
Proof.
  intros Hcb Hok.
  assert (∀ l, ∃ e', _maybe_refresh (set_steps l t, e)
                     = (Ok tt, (set_steps l t, e'))) as Hswallow.
  { intros l. by apply (maybe_refresh_swallows _ _ cb). }
  destruct c as [k lbl|k d|k d|k d]; cbn [do_call];
    unfold start, complete, error;
    rewrite ?update_eq, ?add_eq; cbn [detached steps];
    try case_bool_decide;
    try (by exists t, e, (detached t));
    rewrite (maybe_refresh_eq (set_steps _ (detached _))); cbn [_refresh_cb set_steps detached];
    match goal with
    | |- context [_maybe_refresh (set_steps ?l t, e)] =>
        destruct (Hswallow l) as [e' ->]
    end;
    by eexists _, e', _.
Qed.
End WithEnv.

(** The theorem at a fresh tracker with no callback. *)
Lemma update_unregistered_appends_witness :
  appends (start "dirs" "x") (new (E:=unit) "T") tt (Step "dirs" "dirs" Running "x") ∧
  appends (complete "dirs" "x") (new (E:=unit) "T") tt (Step "dirs" "dirs" Done "x") ∧
  appends (error "dirs" "x") (new (E:=unit) "T") tt (Step "dirs" "dirs" Error "x").
Proof.
  apply (update_unregistered_appends (new "T") tt "dirs" "x"). simpl.
  apply not_elem_of_nil.
Defined.

(** The theorem at a fresh tracker with no callback. *)
Lemma add_twice_once_witness :
  ∃ r1 t1 e1,
    add "dirs" "first" (new (E:=unit) "T", tt) = (r1, (t1, e1)) ∧
    steps t1 = [Step "dirs" "first" Pending ""] ∧
    add "dirs" "second" (t1, e1) = (Ok tt, (t1, e1)) ∧
    filter (λ s, key s = "dirs") (steps t1) = [Step "dirs" "first" Pending ""].
Proof.
  apply (add_twice_once (new "T") tt "dirs" "first" "second"). simpl.
  apply not_elem_of_nil.
Defined.

(** The theorem at [start] under the failing renderer. *)
Lemma refresh_fault_swallowed_witness :
  ∃ t' e' t0,
    do_call (CallStart "dirs" "") (tracker_with failing_cb, tt)
      = (Ok tt, (t', e')) ∧
    do_call (CallStart "dirs" "") (detached (tracker_with failing_cb), tt)
      = (Ok tt, (t0, tt)) ∧
    steps t' = steps t0 ∧ title t' = title t0 ∧
    _refresh_cb t' = Some failing_cb.
Proof.
  apply (refresh_fault_swallowed (tracker_with failing_cb) tt failing_cb).
  - reflexivity.
  - intros title0 steps0 e. reflexivity.
Defined.

(** An interrupt is no fault: [except Exception] lets it pass, after the
    step has been changed. *)
Lemma refresh_interrupt_passes :
  start "dirs" "" (tracker_with interrupted_cb, tt) =
  (Raise KeyboardInterrupt,
   (set_steps [Step "dirs" "dirs" Running ""] (tracker_with interrupted_cb), tt)).
Proof. reflexivity. Qed.

End TrackerFacts.


(** ** The selector *)

Module SelectorFacts.
Import Py Tracker World Selector.

Lemma spec_move_range (n i : Z) (k : readkey) :
  1 <= n → 0 <= i <= n - 1 → 0 <= spec_move n i k <= n - 1.
Proof.
  intros Hn Hi.
  destruct k; simpl; try done;
    match goal with |- context [?a mod n] =>
      pose proof (Z.mod_pos_bound a n ltac:(lia)); lia
    end.
Qed.

Lemma index_range (d : string) (l : list string) :
  d ∈ l → 0 <= index d l <= len l - 1.
Proof.
  unfold len. induction l as [|y l IH]; [by intros ?%elem_of_nil|].
  rewrite elem_of_cons. cbn [index length]. case_bool_decide; [lia|].
  intros [->|Hin]; [done|]. specialize (IH Hin). lia.
Qed.

Lemma initial_index_range (option_keys : list string) (default_key : option string) :
  1 <= len option_keys →
  0 <= initial_index option_keys default_key <= len option_keys - 1.
Proof.
  intros Hn. unfold initial_index. destruct default_key as [d|]; [|lia].
  destruct (bool_decide (d ≠ "")); simpl; [|lia].
  case_bool_decide; [by apply index_range | lia].
Qed.

(** One pass on an arrow key: the panel is drawn, the key is taken, the
    index moves as the specification says and the loop goes on. *)
Lemma select_pass_arrow prompt_text option_keys i k ks w :
  1 <= len option_keys → is_arrow k = true → keys w = k :: ks →
  select_pass prompt_text option_keys i w =
  (Ok (spec_move (len option_keys) i k, None),
   {| keys := ks; fs := fs w;
      console := console w ++ [SelectionPanel prompt_text option_keys i] |}).
Proof.
  intros Hn Hk Hw.
  unfold select_pass, bind, show, modify, try_except, get_key, bind,
    readchar_readkey, py_mod. cbn. rewrite Hw.
  replace (len option_keys =? 0) with false by lia.
  by destruct k.
Qed.

(** A run of arrow keys takes the loop through [positions] to the index
    that folding [spec_move] over the run gives. *)
Lemma select_loop_arrows prompt_text option_keys presses :
  ∀ fuel i rest w,
    1 <= len option_keys → Forall (λ k, is_arrow k = true) presses →
    keys w = presses ++ rest →
    select_loop (length presses + fuel) prompt_text option_keys i w =
    select_loop fuel prompt_text option_keys
      (foldl (spec_move (len option_keys)) i presses)
      {| keys := rest; fs := fs w;
         console := console w ++
           (SelectionPanel prompt_text option_keys
              <$> positions (len option_keys) i presses) |}.
Proof.
  induction presses as [|k presses IH]; intros fuel i rest w Hn Hks Hw.
  - simpl in *. rewrite app_nil_r. destruct w; simpl in *. by subst.
  - apply Forall_cons in Hks as [Hk Hks].
    cbn [length Nat.add select_loop]. unfold bind at 1.
    rewrite (select_pass_arrow _ _ _ k (presses ++ rest)) by done.
    rewrite (IH fuel _ rest) by done.
    cbn [foldl positions fmap list_fmap keys fs console].
    by rewrite <-app_assoc.
Qed.

Lemma positions_range (n : Z) (presses : list readkey) :
  ∀ i, 1 <= n → 0 <= i <= n - 1 →
       Forall (λ j, 0 <= j <= n - 1) (positions n i presses) ∧
       0 <= foldl (spec_move n) i presses <= n - 1.
Proof.
  induction presses as [|k presses IH]; intros i Hn Hi; simpl.
  - by split.
  - destruct (IH (spec_move n i k) Hn) as [Hpos Hlast].
    { by apply spec_move_range. }
    split; [by constructor | done].
Qed.

(** C3.  For options of size [n >= 1], the selector started on a run of
    UP/DOWN presses (or their control-key doubles) is, after the run, in
    its loop at the index obtained by moving from the initial index with
    [(i - 1) mod n] for UP and [(i + 1) mod n] for DOWN; that index, the
    initial index and every index shown on the way lie in [[0, n-1]]; and
    the moves wrap: UP at [0] gives [n - 1], DOWN at [n - 1] gives [0]. *)
Theorem selector_index_in_range {V} (options : list (string * V))
    (prompt_text : string) (default_key : option string)
    (presses rest : list readkey) (w : world) :
  let n := len (options.*1) in
  let i0 := initial_index (options.*1) default_key in
  let shown := i0 :: positions n i0 presses in
  let i := foldl (spec_move n) i0 presses in
  1 <= n → Forall (λ k, is_arrow k = true) presses →
  keys w = presses ++ rest →
  select_with_arrows options prompt_text default_key w =
    select_loop (S (length rest)) prompt_text (options.*1) i
      {| keys := rest; fs := fs w;
         console := console w ++ Line "" ::
           (SelectionPanel prompt_text (options.*1) <$> shown) |} ∧
  Forall (panel_in_range n) (SelectionPanel prompt_text (options.*1) <$> shown) ∧
  0 <= i <= n - 1 ∧
  (∀ j, spec_move n j UP = (j - 1) mod n ∧ spec_move n j DOWN = (j + 1) mod n) ∧
  spec_move n 0 UP = n - 1 ∧ spec_move n (n - 1) DOWN = 0.
Proof.
  intros n i0 shown i Hn Hks Hw.
  pose proof (initial_index_range (options.*1) default_key Hn) as Hi0.
  destruct (positions_range n presses i0 Hn Hi0) as [Hpos Hlast].
  refine (conj _ (conj _ (conj Hlast (conj (λ j, conj eq_refl eq_refl) (conj _ _))))).
  - unfold select_with_arrows, print, show, bind, modify, gets.
    cbn -[select_loop]. rewrite Hw, length_app.
    replace (S (length presses + length rest))
      with (length presses + S (length rest))%nat by lia.
    rewrite (select_loop_arrows _ _ presses _ _ rest);
      [|exact Hn|exact Hks|exact Hw].
    unfold set_console. cbn [keys fs console]. by rewrite <-!app_assoc.
  - apply Forall_fmap, Forall_cons. split; [exact Hi0|].
    eapply Forall_impl; [exact Hpos|]. intros j Hj. exact Hj.
  - simpl. symmetry. apply (Z.mod_unique_pos _ _ (-1)); lia.
  - simpl. replace (n - 1 + 1) with n by lia. apply Z.mod_same. lia.
Qed.

(** The theorem on the script menu, started at [sh], for DOWN, DOWN, UP. *)
Lemma selector_index_in_range_witness :
  select_with_arrows [("sh", "Shell"); ("ps", "PowerShell")] "Script"
    (Some "sh") {| keys := [DOWN; DOWN; UP; ENTER]; fs := ∅; console := [] |}
  = select_loop 2 "Script" ["sh"; "ps"] 1
      {| keys := [ENTER]; fs := ∅;
         console := Line "" ::
           (SelectionPanel "Script" ["sh"; "ps"] <$> [0; 0; 1; 0]) |} ∧
  Forall (panel_in_range 2)
    (SelectionPanel "Script" ["sh"; "ps"] <$> [0; 0; 1; 0]).
Proof.
  pose proof (selector_index_in_range [("sh", "Shell"); ("ps", "PowerShell")]
    "Script" (Some "sh") [DOWN; DOWN; UP] [ENTER]
    {| keys := [DOWN; DOWN; UP; ENTER]; fs := ∅; console := [] |}) as H.
  cbv zeta in H. destruct H as (Hrun & Hshown & _).
  - vm_compute. discriminate.
  - repeat constructor.
  - reflexivity.
  - split; [exact Hrun | exact Hshown].
Defined.

End SelectorFacts.

(** ** Relations kept by the tracker *)

Module TrackerKeeps.
Import Py Tracker Keeps.

Section WithEnv.
Context {E : Type} (R : E → E → Prop) `{!Reflexive R, !Transitive R}.

#[global] Instance lifted_refl : Reflexive (lifted R).
Proof. intros [t e] Hcb. split; [reflexivity | done]. Qed.

#[global] Instance lifted_trans : Transitive (lifted R).
Proof.
  intros [t1 e1] [t2 e2] [t3 e3] H12 H23 Hcb.
  destruct (H12 Hcb) as [He12 Hcb2]. destruct (H23 Hcb2) as [He23 Hcb3].
  split; [by etrans | done].
Qed.

Lemma keeps_on_snd {A} (m : M E A) :
  keeps R m → keeps (lifted R) (on_snd (S1:=StepTracker E) m).
Proof.
  intros Hm [t e] Hcb. unfold on_snd. specialize (Hm e).
  destruct (m e) as [r e']. simpl in *. done.
Qed.

Lemma keeps_set_steps (f : StepTracker E → list step) :
  keeps (lifted R) (modify (λ '(t, e), (set_steps (f t) t, e))).
Proof. apply keeps_modify. intros [t e] Hcb. split; [reflexivity | done]. Qed.

Lemma keeps_maybe_refresh : keeps (lifted R) _maybe_refresh.
Proof.
  intros [t e] Hcb. rewrite TrackerFacts.maybe_refresh_eq.
  destruct (_refresh_cb t) as [cb|] eqn:Ht; [|by split].
  pose proof (Hcb cb Ht (title t) (steps t) e) as He.
  destruct (cb (title t) (steps t) e) as [[[]|x|] e']; simpl in *;
    [done| |done].
  by destruct (is_Exception x).
Qed.

Lemma keeps_add k lbl : keeps (lifted R) (add k lbl).
Proof.
  unfold add. apply keeps_bind; [apply keeps_gets|]. intros l.
  apply keeps_if; [apply keeps_ret|].
  apply keeps_bind; [apply (keeps_set_steps (λ t, steps t ++ _))|].
  intros _. apply keeps_maybe_refresh.
Qed.

Lemma keeps_update k st d : keeps (lifted R) (_update k st d).
Proof.
  unfold _update. apply keeps_bind; [apply keeps_gets|]. intros l.
  destruct (update_first k st d l) as [l'|].
  - apply keeps_bind; [apply (keeps_set_steps (λ _, l'))|].
    intros _. apply keeps_maybe_refresh.
  - apply keeps_bind; [apply (keeps_set_steps (λ t, steps t ++ _))|].
    intros _. apply keeps_maybe_refresh.
Qed.

Lemma keeps_attach_refresh cb :
  (∀ title0 steps0, keeps R (cb title0 steps0)) →
  keeps (lifted R) (attach_refresh cb).
Proof.
  intros Hcb. apply keeps_modify. intros [t e] _. split; [reflexivity|].
  intros cb' [= <-]. done.
Qed.
End WithEnv.

End TrackerKeeps.

(** ** The console and the file system along a run *)

Module WorldFacts.
Import Py Tracker World Selector Keeps.

#[global] Instance grows_refl P frozen : Reflexive (grows P frozen).
Proof. intros w. split; [|done]. exists []. by rewrite app_nil_r. Qed.

#[global] Instance grows_trans P frozen : Transitive (grows P frozen).
Proof.
  intros w1 w2 w3 [(evs1 & H1 & HP1) Hf1] [(evs2 & H2 & HP2) Hf2]. split.
  - exists (evs1 ++ evs2). rewrite H2, H1, app_assoc. split; [done|].
    by apply Forall_app.
  - intros Hfr. by rewrite Hf2, Hf1.
Qed.

Section Grows.
Context (P : out → Prop) (frozen : bool).
Local Abbreviation R := (grows P frozen).

Lemma keeps_show (o : out) : P o → keeps R (show o).
Proof.
  intros Ho. apply keeps_modify. intros w. split; [|done].
  exists [o]. split; [done|]. by constructor.
Qed.

Lemma keeps_readkey : keeps R readchar_readkey.
Proof.
  intros w. unfold readchar_readkey. destruct (keys w); simpl; [reflexivity|].
  split; [|done]. exists []. by rewrite app_nil_r.
Qed.

Lemma keeps_get_key : keeps R get_key.
Proof.
  apply keeps_bind; [apply keeps_readkey|].
  intros []; (apply keeps_ret || apply keeps_raise).
Qed.

Lemma keeps_py_mod (a n : Z) : keeps R (py_mod a n).
Proof. unfold py_mod. apply keeps_if; [apply keeps_raise | apply keeps_ret]. Qed.

Lemma keeps_py_getitem {A} (l : list A) (i : Z) : keeps R (py_getitem l i).
Proof.
  unfold py_getitem. destruct (if _ <? 0 then _ else _);
    [apply keeps_ret | apply keeps_raise].
Qed.

(** The selector shows an empty line and its own panels, and never
    touches the file system. *)
Section Select.
Context (prompt_text : string).
Context (HLine : ∀ s, P (Line s)).
Context (HPanel : ∀ ks i, P (SelectionPanel prompt_text ks i)).

Lemma keeps_select_pass option_keys i :
  keeps R (select_pass prompt_text option_keys i).
Proof.
  unfold select_pass. apply keeps_bind; [by apply keeps_show|]. intros _.
  apply keeps_try_except.
  - apply keeps_bind; [apply keeps_get_key|]. intros key.
    repeat apply keeps_if;
      repeat first
        [ apply keeps_ret | apply keeps_raise
        | apply keeps_bind; [|intros ?]
        | apply keeps_py_mod | apply keeps_py_getitem
        | by apply keeps_show ].
  - intros _. apply keeps_bind; [by apply keeps_show|]. intros _.
    apply keeps_raise.
Qed.

Lemma keeps_select_loop fuel option_keys :
  ∀ i, keeps R (select_loop fuel prompt_text option_keys i).
Proof.
  induction fuel as [|fuel IH]; intros i; simpl.
  - intros w. reflexivity.
  - apply keeps_bind; [apply keeps_select_pass|].
    intros [j [k|]]; [apply keeps_ret | apply IH].
Qed.

Lemma keeps_select_with_arrows {V} (options : list (string * V)) default_key :
  keeps R (select_with_arrows options prompt_text default_key).
Proof.
  unfold select_with_arrows.
  apply keeps_bind; [by apply keeps_show|]. intros _.
  apply keeps_bind; [by apply keeps_show|]. intros _.
  apply keeps_bind; [apply keeps_gets|]. intros fuel.
  apply keeps_select_loop.
Qed.
End Select.
End Grows.

(** A call on the file system shows nothing. *)
Lemma keeps_on_fs (P : out → Prop) {A} (m : M files A) :
  keeps (grows P false) (on_fs m).
Proof.
  intros w. unfold on_fs. destruct (m (fs w)) as [r f]. split; [|done].
  exists []. by rewrite app_nil_r.
Qed.

Lemma py_getitem_in_range {S A} (l : list A) (i : Z) (s : S) :
  0 <= i <= len l - 1 → ∃ x, py_getitem l i s = (Ok x, s) ∧ x ∈ l.
Proof.
  intros Hi. unfold py_getitem, len in *.
  replace (i <? 0) with false by lia. replace (i <? 0) with false by lia.
  destruct (lookup_lt_is_Some_2 l (Z.to_nat i)) as [x Hx]; [lia|].
  rewrite Hx. exists x. split; [done|]. by eapply list_elem_of_lookup_2.
Qed.

Lemma select_pass_end prompt_text option_keys i w :
  1 <= len option_keys → 0 <= i <= len option_keys - 1 →
  match (select_pass prompt_text option_keys i w).1 with
  | Ok (j, None) => 0 <= j <= len option_keys - 1
  | Ok (_, Some k) => k ∈ option_keys
  | Raise e => e = Exit 1
  | Blocked => True
  end.
Proof.
  intros Hn Hi.
  assert (∀ a, 0 <= a mod len option_keys <= len option_keys - 1) as Hmod.
  { intros a. pose proof (Z.mod_pos_bound a (len option_keys)). lia. }
  unfold select_pass, bind, show, modify, try_except, get_key, bind,
    readchar_readkey, py_mod, print, show, modify, raise, ret. cbn.
  replace (len option_keys =? 0) with false by lia.
  destruct (keys w) as [|k ks]; [done|].
  destruct k as [| | | | | | |s]; cbn -[py_getitem];
    repeat case_bool_decide; cbn -[py_getitem]; try done; try apply Hmod;
    match goal with
    | |- context [py_getitem option_keys i ?s] =>
        destruct (py_getitem_in_range option_keys i s Hi) as (x & -> & Hx)
    end; done.
Qed.

Lemma select_loop_end fuel prompt_text option_keys :
  ∀ i w, 1 <= len option_keys → 0 <= i <= len option_keys - 1 →
    selector_end option_keys (select_loop fuel prompt_text option_keys i w).1.
Proof.
  induction fuel as [|fuel IH]; intros i w Hn Hi; [done|].
  cbn [select_loop]. unfold bind.
  pose proof (select_pass_end prompt_text option_keys i w Hn Hi) as Hpass.
  destruct (select_pass prompt_text option_keys i w) as [[[j [k|]]|e|] w'];
    simpl in *; try done.
  by apply IH.
Qed.

Lemma select_with_arrows_end {V} (options : list (string * V)) prompt_text
    default_key w :
  1 <= len (options.*1) →
  selector_end (options.*1)
    (select_with_arrows options prompt_text default_key w).1.
Proof.
  intros Hn. unfold select_with_arrows, bind, print, show, modify, gets.
  cbn -[select_loop]. apply select_loop_end; [done|].
  by apply SelectorFacts.initial_index_range.
Qed.

(** Invoking the selector is visible: its panel is the second thing it
    shows. *)
Lemma select_with_arrows_shows {V} (options : list (string * V)) prompt_text
    default_key w :
  ∃ evs,
    console (select_with_arrows options prompt_text default_key w).2 =
    console w ++ Line "" ::
      SelectionPanel prompt_text (options.*1)
        (initial_index (options.*1) default_key) :: evs.
Proof.
  unfold select_with_arrows, bind at 1 2 3, print, show, modify, gets.
  cbn -[select_loop].
  match goal with |- context [select_loop ?fuel ?p ?ks ?i ?w0] =>
    destruct (keeps_select_loop (λ _, True) false p (λ _, I) (λ _ _, I)
                fuel ks i w0) as [(evs & -> & _) _]
  end.
  exists evs. cbn. by rewrite <-!app_assoc.
Qed.

End WorldFacts.

(** ** [create_file] and [init] *)

Module CliFacts.
Import Py Tracker World Selector Keeps TrackerKeeps WorldFacts Cli Scenarios.

(** *** What a run shows *)

Section Shows.
Context (P : out → Prop) (h : host).
Context (SCRIPT_CONTENT_SH SCRIPT_CONTENT_PS PROMPT_CONTENT : string).
Context (HLine : ∀ s, P (Line s)).
Context (HTree : ∀ title0 steps0, P (TrackerTree title0 steps0)).
Context (HSummary : ∀ title0 body, P (SummaryPanel title0 body)).
Local Abbreviation R := (grows P false).

Lemma keeps_py_lookup {S V} (R0 : S → S → Prop) `{!Reflexive R0}
    (d : list (string * V)) (k : string) :
  keeps R0 (py_lookup d k).
Proof.
  unfold py_lookup. destruct (list_find _ d) as [[? [? ?]]|];
    [apply keeps_ret | apply keeps_raise]; done.
Qed.

Lemma keeps_create_file p content step_key make_executable :
  keeps (lifted R) (create_file h p content step_key make_executable).
Proof.
  unfold create_file, start, complete, error.
  apply keeps_try_except.
  - apply keeps_bind; [apply keeps_update; apply _|]. intros _.
    apply keeps_bind; [apply keeps_on_snd, keeps_on_fs|]. intros _.
    apply keeps_bind; [apply keeps_on_snd, keeps_on_fs|]. intros _.
    apply keeps_if; [|apply keeps_update; apply _].
    apply keeps_bind; [apply keeps_on_snd, keeps_on_fs|]. intros st_mode.
    apply keeps_bind; [apply keeps_on_snd, keeps_on_fs|]. intros _.
    apply keeps_update; apply _.
  - intros e. apply keeps_bind; [apply keeps_update; apply _|]. intros _.
    apply keeps_raise.
Qed.

Lemma keeps_live_update title0 steps0 : keeps R (live_update title0 steps0).
Proof. by apply keeps_show. Qed.

Lemma keeps_with_live selected_ai selected_script :
  keeps (lifted R)
    (with_live h SCRIPT_CONTENT_SH SCRIPT_CONTENT_PS PROMPT_CONTENT
       selected_ai selected_script).
Proof.
  unfold with_live, start, complete, error.
  apply keeps_bind; [apply keeps_attach_refresh, keeps_live_update; apply _|].
  intros _. apply keeps_bind; [apply keeps_py_lookup, _|]. intros cfg.
  apply keeps_bind; [apply keeps_update; apply _|]. intros _.
  apply keeps_bind.
  - apply keeps_try_except.
    + apply keeps_bind; [apply keeps_on_snd, keeps_on_fs|]. intros _.
      apply keeps_bind; [apply keeps_on_snd, keeps_on_fs|]. intros _.
      apply keeps_bind; [apply keeps_update; apply _|]. intros _. apply keeps_ret.
    + intros e. apply keeps_bind; [apply keeps_update; apply _|]. intros _.
      apply keeps_ret.
  - intros made. apply keeps_if; [apply keeps_ret|].
    apply keeps_bind.
    + apply keeps_if;
        (apply keeps_bind; [apply keeps_create_file|]; intros _;
         apply keeps_ret).
    + intros script_path.
      apply keeps_bind; [apply keeps_create_file|]. intros _.
      apply keeps_ret.
Qed.

Lemma keeps_tracked selected_ai selected_script :
  keeps R (tracked h SCRIPT_CONTENT_SH SCRIPT_CONTENT_PS PROMPT_CONTENT
             selected_ai selected_script).
Proof.
  intros w. unfold tracked.
  match goal with |- context [?m (new ?ti, w)] =>
    assert (keeps (lifted R) m) as Hm; [|specialize (Hm (new ti, w))];
    [|destruct (m (new ti, w)) as [[r|e|] [t' w']]]
  end.
  - apply keeps_bind; [apply keeps_add; apply _|]. intros _.
    apply keeps_bind; [apply keeps_add; apply _|]. intros _.
    apply keeps_bind; [apply keeps_add; apply _|]. intros _.
    apply keeps_bind; [apply keeps_gets|]. intros t.
    apply keeps_bind; [by apply keeps_on_snd, keeps_show|]. intros _.
    apply keeps_with_live.
  - by apply Hm.
  - by apply Hm.
  - by apply Hm.
Qed.

Lemma keeps_summary selected_script script_path prompt_path :
  keeps R (summary h selected_script script_path prompt_path).
Proof.
  unfold summary, print.
  apply keeps_bind; [by apply keeps_show|]. intros _. by apply keeps_show.
Qed.

Lemma keeps_proceed selected_ai selected_script :
  keeps R (proceed h SCRIPT_CONTENT_SH SCRIPT_CONTENT_PS PROMPT_CONTENT
             selected_ai selected_script).
Proof.
  unfold proceed, print.
  apply keeps_bind; [apply keeps_py_lookup, _|]. intros cfg.
  apply keeps_bind; [by apply keeps_show|]. intros _.
  apply keeps_bind; [by apply keeps_show|]. intros _.
  apply keeps_bind; [apply keeps_tracked|].
  intros [[[script_path prompt_path]|] t]; [|apply keeps_ret].
  apply keeps_bind; [apply keeps_summary|]. intros _. apply keeps_ret.
Qed.
End Shows.

(** *** Resolving the two choices *)

Section Resolve.
Context (h : host).

(** Neither resolution touches the file system. *)
Lemma keeps_resolve_ai (P : out → Prop) ai :
  (∀ s, P (Line s)) → (∀ ks i, P (SelectionPanel ai_prompt ks i)) →
  keeps (grows P true) (resolve_ai h ai).
Proof.
  intros HLine HPanel. unfold resolve_ai, print.
  destruct (truthy ai) as [a|].
  - apply keeps_if; [apply keeps_ret|].
    apply keeps_bind; [by apply keeps_show|]. intros _. apply keeps_raise.
  - apply keeps_if.
    + apply keeps_bind; [by apply keeps_show|]. intros _. apply keeps_ret.
    + by apply keeps_select_with_arrows.
Qed.

Lemma keeps_resolve_script (P : out → Prop) frozen script_type :
  (∀ s, P (Line s)) → (∀ ks i, P (SelectionPanel script_prompt ks i)) →
  keeps (grows P frozen) (resolve_script h script_type).
Proof.
  intros HLine HPanel. unfold resolve_script, print.
  destruct (truthy script_type) as [s|].
  - apply keeps_if; [apply keeps_ret|].
    apply keeps_bind; [by apply keeps_show|]. intros _. apply keeps_raise.
  - apply keeps_if.
    + apply keeps_bind; [by apply keeps_show|]. intros _. apply keeps_ret.
    + by apply keeps_select_with_arrows.
Qed.

(** The assistant is resolved to one of the table, or the run ends with
    status 1, or it waits for a key. *)
Lemma resolve_ai_end ai w :
  selector_end (AGENT_CONFIG.*1) (resolve_ai h ai w).1.
Proof.
  unfold resolve_ai, py_in. destruct (truthy ai) as [a|].
  - case_bool_decide; [done|]. reflexivity.
  - destruct (stdin_isatty h); simpl.
    + by apply select_with_arrows_end.
    + set_solver.
Qed.
End Resolve.

(** *** The claims about configuration resolution *)

Section Config.
Context (h : host).
Context (SCRIPT_CONTENT_SH SCRIPT_CONTENT_PS PROMPT_CONTENT : string).
Local Abbreviation run :=
  (Cli.run h SCRIPT_CONTENT_SH SCRIPT_CONTENT_PS PROMPT_CONTENT).
Local Abbreviation proceed :=
  (Cli.proceed h SCRIPT_CONTENT_SH SCRIPT_CONTENT_PS PROMPT_CONTENT).

Lemma valid_ai_truthy a : a ∈ AGENT_CONFIG.*1 → truthy (Some a) = Some a.
Proof.
  intros Ha. unfold truthy. case_bool_decide as Hempty; [|done].
  subst. by apply (bool_decide_pack _) in Ha.
Qed.

Lemma resolve_ai_valid a w :
  a ∈ AGENT_CONFIG.*1 → resolve_ai h (Some a) w = (Ok a, w).
Proof.
  intros Ha. unfold resolve_ai. rewrite (valid_ai_truthy a Ha).
  unfold py_in. by rewrite bool_decide_eq_true_2.
Qed.

Lemma resolve_script_valid s w :
  s ∈ SCRIPT_TYPE_CHOICES.*1 → resolve_script h (Some s) w = (Ok s, w).
Proof.
  intros Hs. unfold resolve_script, truthy, py_in.
  rewrite (bool_decide_eq_false_2 (s = "")).
  - by rewrite bool_decide_eq_true_2.
  - intros ->. by apply (bool_decide_pack _) in Hs.
Qed.

(** C7.  A valid assistant identifier given by the flag is accepted as it
    is, without any effect on the world: no key is read and nothing is
    shown; and in the whole run no panel of the assistant menu appears on
    the console. *)
Theorem valid_ai_flag_skips_selector (a : string)
    (script_type : option string) (here : bool) (ks : list readkey)
    (f : gmap path node) :
  a ∈ AGENT_CONFIG.*1 →
  (∀ w, resolve_ai h (Some a) w = (Ok a, w)) ∧
  Forall no_ai_panel (console (run (Some a) script_type here ks f).2).
Proof.
  intros Ha.
  assert (∀ w, resolve_ai h (Some a) w = (Ok a, w)) as Hres.
  { intros w. by apply resolve_ai_valid. }
  split; [done|].
  assert (keeps (grows no_ai_panel false)
            (init h SCRIPT_CONTENT_SH SCRIPT_CONTENT_PS PROMPT_CONTENT
               (Some a) script_type here)) as Hkeeps.
  { unfold init. apply keeps_bind; [by apply keeps_show|]. intros _.
    apply keeps_bind; [intros w; rewrite Hres; reflexivity|]. intros a'.
    apply keeps_bind; [by apply keeps_resolve_script|]. intros s.
    by apply keeps_proceed. }
  destruct (Hkeeps {| keys := ks; fs := f; console := [] |})
    as [(evs & Hevs & HP) _].
  unfold Cli.run. by rewrite Hevs.
Qed.

(** C8.  Without a terminal on standard input, without flags and not on
    Windows, the assistant is [copilot] and the script flavor [sh], each
    announced on the console as the default taken, right after the
    banner. *)
Theorem noninteractive_defaults (here : bool) (ks : list readkey)
    (f : gmap path node) :
  stdin_isatty h = false → platform_system h ≠ "Windows" →
  (∀ w, resolve_ai h None w =
        (Ok "copilot",
         set_console (console w ++
           [Line "[dim]Ambiente não interativo, usando 'copilot' como padrão.[/dim]"])
           w)) ∧
  (∀ w, resolve_script h None w =
        (Ok "sh",
         set_console (console w ++
           [Line "[dim]Ambiente não interativo, usando 'sh' como padrão.[/dim]"])
           w)) ∧
  ∃ evs,
    console (run None None here ks f).2 =
    [Banner;
     Line "[dim]Ambiente não interativo, usando 'copilot' como padrão.[/dim]";
     Line "[dim]Ambiente não interativo, usando 'sh' como padrão.[/dim]"]
    ++ evs.
Proof.
  intros Htty Hsys.
  assert (∀ w, resolve_ai h None w = (Ok "copilot", set_console (console w ++
           [Line (default_message "copilot")]) w)) as Hai.
  { intros w. unfold resolve_ai. simpl. by rewrite Htty. }
  assert (∀ w, resolve_script h None w = (Ok "sh", set_console (console w ++
           [Line (default_message "sh")]) w)) as Hscript.
  { intros w. unfold resolve_script. simpl.
    by rewrite Htty, bool_decide_eq_false_2. }
  split_and!; [done..|].
  unfold Cli.run, init, bind at 1 2 3, show, modify. cbn -[proceed].
  rewrite Hai, Hscript.
  match goal with |- context [Cli.proceed _ _ _ _ ?a ?s ?w0] =>
    destruct (keeps_proceed (λ _, True) h SCRIPT_CONTENT_SH SCRIPT_CONTENT_PS
                PROMPT_CONTENT (λ _, I) (λ _ _, I) (λ _ _, I) a s w0)
      as [(evs & -> & _) _]
  end.
  by exists evs.
Qed.

End Config.

(** The theorem for the assistant [claude] on a terminal. *)
Lemma valid_ai_flag_skips_selector_witness :
  (∀ w, resolve_ai linux_tty (Some "claude") w = (Ok "claude", w)) ∧
  Forall no_ai_panel
    (console (run linux_tty "sh" "ps" "md" (Some "claude") None false
                [DOWN; ENTER] empty_dir).2).
Proof.
  apply valid_ai_flag_skips_selector. by apply (bool_decide_unpack _).
Defined.

(** The theorem on the Linux host without a terminal. *)
Lemma noninteractive_defaults_witness :
  ∃ evs,
    console (run linux_pipe "sh" "ps" "md" None None false [] empty_dir).2 =
    [Banner;
     Line "[dim]Ambiente não interativo, usando 'copilot' como padrão.[/dim]";
     Line "[dim]Ambiente não interativo, usando 'sh' como padrão.[/dim]"]
    ++ evs.
Proof.
  apply (noninteractive_defaults linux_pipe "sh" "ps" "md" false [] empty_dir).
  - reflexivity.
  - discriminate.
Defined.



(** *** The directory step *)

Lemma updated_head k st d s0 l :
  key s0 = k →
  updated k st d (s0 :: l) =
  Step (key s0) (label s0) st (if bool_decide (d = "") then detail s0 else d)
  :: l.
Proof.
  intros Hk. unfold updated. cbn [update_first].
  by rewrite bool_decide_eq_true_2.
Qed.

(** [_update] under the callback of [init]: the steps change and their
    tree is shown. *)
Lemma update_live k st d (t : StepTracker world) w :
  _refresh_cb t = Some live_update →
  _update k st d (t, w) =
  (Ok tt,
   (set_steps (updated k st d (steps t)) t,
    set_console
      (console w ++ [TrackerTree (title t) (updated k st d (steps t))]) w)).
Proof.
  intros Hcb. rewrite TrackerFacts.update_eq, TrackerFacts.maybe_refresh_eq.
  simpl. by rewrite Hcb.
Qed.

(** When the first of two calls on the file system raises, or the first
    returns and the second raises, nothing after them runs. *)
Lemma fs_calls_raise {A : Type} (m1 m2 : M files unit)
    (k : M (StepTracker world * world) A) t w e f' :
  bind m1 (λ _, m2) (fs w) = (Raise e, f') →
  bind (on_snd (on_fs m1)) (λ _, bind (on_snd (on_fs m2)) (λ _, k)) (t, w)
  = (Raise e, (t, set_fs f' w)).
Proof.
  unfold bind, on_snd, on_fs.
  destruct (m1 (fs w)) as [[[]|e1|] f1]; simpl.
  - destruct (m2 f1) as [[[]|e2|] f2]; simpl; [done| |done].
    by intros [= -> ->].
  - by intros [= -> ->].
  - done.
Qed.

Lemma py_lookup_agent {S} (a : string) (cfg : agent) (s : S) :
  (a, cfg) ∈ AGENT_CONFIG → py_lookup AGENT_CONFIG a s = (Ok cfg, s).
Proof.
  unfold AGENT_CONFIG. rewrite !elem_of_cons, elem_of_nil.
  intros Hin. destruct_or!; simplify_eq; reflexivity.
Qed.

Section Dirs.
Context (h : host).
Context (SCRIPT_CONTENT_SH SCRIPT_CONTENT_PS PROMPT_CONTENT : string).
Context (a s : string) (cfg : agent) (e : exc) (f' : files).
Context (Ha : (a, cfg) ∈ AGENT_CONFIG).
Context (He : is_Exception e = true).

(** The [with] block when making the directories raises [e]: the step
    [dirs] goes to running and then to error, both trees are shown, and
    the block is left by [return]. *)
Lemma with_live_dirs_failure t w :
  bind (mkdir h script_dir) (λ _, mkdir h (joinpath [] (prompt_dir cfg)))
    (fs w) = (Raise e, f') →
  let l1 := updated "dirs" Running "" (steps t) in
  let l2 := updated "dirs" Error (exc_str e) l1 in
  with_live h SCRIPT_CONTENT_SH SCRIPT_CONTENT_PS PROMPT_CONTENT a s (t, w) =
  (Ok None,
   (set_steps l2 (with_cb live_update t),
    {| keys := keys w; fs := f';
       console := console w ++
         [TrackerTree (title t) l1; TrackerTree (title t) l2] |})).
Proof.
  intros Hmk l1 l2. unfold with_live.
  rewrite (bind_ok _ _ _ tt (with_cb live_update t, w)) by done.
  rewrite (bind_ok _ _ _ cfg (with_cb live_update t, w))
    by by apply py_lookup_agent.
  unfold start, complete, error.
  erewrite bind_ok; [|by apply update_live].
  erewrite bind_ok.
  2:{ erewrite try_caught; [| by apply fs_calls_raise | exact He].
      erewrite bind_ok; [|by apply update_live]. reflexivity. }
  cbn [negb]. unfold ret, set_steps, with_cb, set_console, set_fs.
  cbn [title steps _refresh_cb keys fs console].
  by rewrite <-app_assoc.
Qed.

(** Up to the [with] block: the three steps are registered, without a
    callback yet, and their tree is shown. *)
Lemma tracked_registers w :
  tracked h SCRIPT_CONTENT_SH SCRIPT_CONTENT_PS PROMPT_CONTENT a s w =
  match with_live h SCRIPT_CONTENT_SH SCRIPT_CONTENT_PS PROMPT_CONTENT a s
          (registered a s,
           set_console
             (console w ++
              [TrackerTree (title (registered a s)) (steps (registered a s))])
             w) with
  | (Ok r, (t, w')) => (Ok (r, t), w')
  | (Raise e0, (_, w')) => (Raise e0, w')
  | (Blocked, (_, w')) => (Blocked, w')
  end.
Proof. reflexivity. Qed.

(** On every host and working directory, for valid flags: when making the
    script directory or the prompt directory raises, the step [dirs] ends
    in status error with the text of the exception, that tree is the last
    thing shown, and [init] returns, so that the exit status is 0. *)
Lemma dirs_failure_returns (here : bool) (ks : list readkey) (f : files) :
  s ∈ SCRIPT_TYPE_CHOICES.*1 →
  bind (mkdir h script_dir) (λ _, mkdir h (joinpath [] (prompt_dir cfg))) f
    = (Raise e, f') →
  ∃ t w,
    run h SCRIPT_CONTENT_SH SCRIPT_CONTENT_PS PROMPT_CONTENT (Some a) (Some s)
      here ks f = (Ok t, w) ∧
    exit_status (Ok t) = Some 0 ∧
    steps t =
      [Step "dirs" "Criar estrutura de diretórios" Error (exc_str e);
       Step "script" ("Gerar script " +:+ upper s) Pending "";
       Step "prompt" ("Gerar Prompt para " +:+ a) Pending ""] ∧
    last (console w) = Some (TrackerTree (title t) (steps t)) ∧
    fs w = f'.
Proof.
  intros Hs Hmk.
  assert (a ∈ AGENT_CONFIG.*1) as Ha'.
  { apply list_elem_of_fmap. by exists (a, cfg). }
  unfold run, init.
  erewrite bind_ok; [|reflexivity].
  erewrite bind_ok; [|by apply resolve_ai_valid].
  erewrite bind_ok; [|by apply resolve_script_valid].
  unfold proceed.
  erewrite bind_ok; [|by apply py_lookup_agent].
  erewrite bind_ok; [|reflexivity].
  erewrite bind_ok; [|reflexivity].
  erewrite bind_ok.
  2:{ rewrite tracked_registers, with_live_dirs_failure; [reflexivity|].
      exact Hmk. }
  eexists _, _. split_and!; [reflexivity..| | |reflexivity].
  - cbn [steps set_steps registered]. rewrite !updated_head by done.
    cbn [key label detail]. repeat case_bool_decide; congruence.
  - cbn [console]. rewrite last_app_cons. reflexivity.
Qed.
End Dirs.

(** C1 fails on the code.  With [.code_review] a regular file the script
    directory cannot be made; the tracker shows the step [dirs] in status
    error, its last tree on the console says so, and [init] returns: the
    process ends with status 0, not with a non-zero one. *)
Theorem dirs_failure_exit_status
    (SCRIPT_CONTENT_SH SCRIPT_CONTENT_PS PROMPT_CONTENT : string) :
  ∃ t w,
    run linux_pipe SCRIPT_CONTENT_SH SCRIPT_CONTENT_PS PROMPT_CONTENT
      (Some "copilot") (Some "sh") false [] blocked_dir = (Ok t, w) ∧
    exit_status (Ok t) = Some 0 ∧
    steps t !! 0%nat =
      Some (Step "dirs" "Criar estrutura de diretórios" Error
              "[Errno 20] Not a directory: '.code_review/scripts'") ∧
    last (console w) = Some (TrackerTree (title t) (steps t)) ∧
    fs w = blocked_dir.
Proof. eexists _, _. split_and!; reflexivity. Qed.

(** The sibling path: when writing the script fails, [create_file] puts
    the step in status error and raises again, and the status is 1. *)
Example script_failure_exit_status :
  exit_status
    (run linux_pipe "sh" "ps" "md" (Some "copilot") (Some "sh") false []
       taken_dir).1 = Some 1 ∧
  last (console
    (run linux_pipe "sh" "ps" "md" (Some "copilot") (Some "sh") false []
       taken_dir).2) =
  Some (TrackerTree "Inicializando Review Kit"
    [Step "dirs" "Criar estrutura de diretórios" Done "pronto";
     Step "script" "Gerar script SH" Error
       "[Errno 21] Is a directory: '.code_review/scripts/git-relatorio.sh'";
     Step "prompt" "Gerar Prompt para copilot" Pending ""]).
Proof. by vm_compute. Qed.

(** *** Line endings *)

(** After [write_text] the file holds the text. *)
Lemma write_text_holds h p content w r w' :
  on_fs (write_text h p content) w = (Ok r, w') → holds_text p content w'.
Proof.
  unfold on_fs, write_text, holds_text, read_back.
  destruct (fs w !! p) as [[|mode data]|] eqn:Hp; [done| |].
  - destruct (Z.testbit mode 7); [|done]. intros [= _ <-]. simpl.
    by rewrite lookup_insert_eq.
  - destruct (creatable h p (fs w)); [done|]. intros [= _ <-]. simpl.
    by rewrite lookup_insert_eq.
Qed.

Lemma keeps_os_stat h p q data :
  keeps (stays (holds_text q data)) (on_fs (os_stat h p)).
Proof.
  intros w. unfold on_fs, os_stat.
  destruct (fs w !! p) as [[[]|]|]; simpl; by destruct w.
Qed.

Lemma keeps_os_chmod h p mode data :
  keeps (stays (holds_text p data)) (on_fs (os_chmod h p mode)).
Proof.
  intros w. unfold on_fs, os_chmod, stays, holds_text, read_back.
  destruct (fs w !! p) as [[|mode' data']|] eqn:Hp; simpl; try done.
  rewrite lookup_insert_eq. done.
Qed.

(** What [create_file] writes.  Whenever it returns, on a tracker whose
    callback leaves the file alone, the file holds the content with every
    CR LF pair replaced by LF, and nothing else replaced. *)
Lemma create_file_writes h p content step_key make_executable t w t' w' :
  cb_keeps (stays (holds_text p (PyStr.replace_s CRLF LF content))) t →
  create_file h p content step_key make_executable (t, w) = (Ok tt, (t', w')) →
  holds_text p (PyStr.replace_s CRLF LF content) w'.
Proof.
  set (Q := holds_text p (PyStr.replace_s CRLF LF content)).
  intros Hcb. unfold create_file, try_except.
  match goal with |- context [bind ?m ?k (t, w)] =>
    destruct (bind m k (t, w)) as [[[]|e|] [t1 w1]] eqn:Hbody
  end.
  - intros [= <- <-].
    apply bind_inv_ok in Hbody as ([] & [t2 w2] & Hstart & Hbody).
    apply bind_inv_ok in Hbody as ([] & [t3 w3] & Hmkdir & Hbody).
    apply bind_inv_ok in Hbody as ([] & [t4 w4] & Hwrite & Hrest).
    pose proof (keeps_update (stays Q) step_key Running "" (t, w)) as Hk2.
    unfold start in Hstart. rewrite Hstart in Hk2.
    destruct (Hk2 Hcb) as [_ Hcb2].
    unfold on_snd in Hmkdir, Hwrite.
    destruct (on_fs (mkdir h (parent p)) w2) as [r3 w3'] eqn:Hmk.
    simplify_eq.
    destruct (on_fs (write_text h p (PyStr.replace_s CRLF LF content)) w3)
      as [r4 w4'] eqn:Hwr.
    simplify_eq. apply write_text_holds in Hwr.
    match type of Hrest with ?rest (t4, w4) = _ =>
      assert (keeps (lifted (stays Q)) rest) as Hkeeps
    end.
    { unfold complete. apply keeps_if; [|apply keeps_update; apply _].
      apply keeps_bind; [apply keeps_on_snd, keeps_os_stat|]. intros st_mode.
      apply keeps_bind; [apply keeps_on_snd, keeps_os_chmod|]. intros _.
      apply keeps_update; apply _. }
    specialize (Hkeeps (t4, w4)). rewrite Hrest in Hkeeps.
    destruct (Hkeeps Hcb2) as [HQ _]. by apply HQ.
  - destruct (is_Exception e); [|done].
    unfold bind. by destruct (error _ _ _) as [[[]|?|] ?].
  - done.
Qed.

(** What [content.replace('\r\n', '\n')] leaves alone: a text without
    line feeds comes out unchanged, whatever carriage returns it has. *)
Lemma replace_crlf_without_lf (s : string) :
  "010"%char ∉ list_ascii_of_string s → PyStr.replace_s CRLF LF s = s.
Proof.
  intros Hlf. unfold PyStr.replace_s.
  rewrite <-(string_of_list_ascii_of_string s) at 2. f_equal.
  change (list_ascii_of_string CRLF) with ["013"%char; "010"%char].
  change (list_ascii_of_string LF) with ["010"%char].
  unfold PyStr.replace.
  induction (list_ascii_of_string s) as [|c l IH]; [done|].
  apply not_elem_of_cons in Hlf as [Hc Hl].
  cbn [PyStr.replace_from PyStr.starts_with].
  destruct l as [|c' l].
  - by rewrite andb_false_r.
  - apply not_elem_of_cons in Hl as [Hc' Hl].
    rewrite (bool_decide_eq_false_2 ("010"%char = c')) by done.
    rewrite andb_false_r. f_equal. apply IH.
    apply not_elem_of_cons. done.
Qed.

(** So a text without line feeds is written as it is, with all its
    carriage returns. *)
Lemma create_file_keeps_cr h p content step_key make_executable t w t' w' :
  "010"%char ∉ list_ascii_of_string content →
  cb_keeps (stays (holds_text p content)) t →
  create_file h p content step_key make_executable (t, w) = (Ok tt, (t', w')) →
  holds_text p content w'.
Proof.
  intros Hlf Hcb Hrun.
  rewrite <-(replace_crlf_without_lf content Hlf) in Hcb |- *.
  by eapply create_file_writes.
Qed.

(** C2 fails on the code.  The text [a CR LF b CR LF] is written as
    [a LF b LF], as the claim says; but only the pair CR LF is replaced:
    [a CR b] is written as it is, carriage return included, and the scan
    being a single pass, [a CR CR LF b] is written as [a CR LF b], which
    still has a CR LF in it.  In all three runs [create_file] returns. *)
Theorem create_file_line_endings :
  let written content :=
    let '(r, (_, w)) :=
      create_file linux_pipe ["out"; "a.txt"] content "file" false
        (new "T", {| keys := []; fs := empty_dir; console := [] |}) in
    (r, read_back ["out"; "a.txt"] (fs w)) in
  written ("a" +:+ CRLF +:+ "b" +:+ CRLF)
    = (Ok tt, Some ("a" +:+ LF +:+ "b" +:+ LF)) ∧
  written ("a" +:+ CR +:+ "b") = (Ok tt, Some ("a" +:+ CR +:+ "b")) ∧
  written ("a" +:+ CR +:+ CRLF +:+ "b")
    = (Ok tt, Some ("a" +:+ CRLF +:+ "b")).
Proof. by vm_compute. Qed.

End CliFacts.

(** ** [ensure_utf8_bom] *)

Module Utf8BomFacts.
Import PyStr PyStrFacts Utf8Bom.

(** Replacing a single character is a [flat_map]. *)
Lemma replace_char_flat (t : char) (new s : str) :
  replace [t] new s = flat_map (λ c, if bool_decide (t = c) then new else [c]) s.
Proof.
  unfold replace. induction s as [|c s IH]; [done|].
  cbn [replace_from starts_with length flat_map]. rewrite andb_true_r.
  simpl in IH. rewrite <-IH. by destruct (bool_decide (t = c)).
Qed.

Lemma universal_after_cr nl s :
  head s ≠ Some LF → universal nl true s = universal nl false s.
Proof.
  destruct s as [|c s]; [done|]. simpl. intros Hc.
  case_bool_decide; [done|]. case_bool_decide; [|done]. naive_solver.
Qed.

(** The text after the CR LF pass and the two character passes, for the
    scan at a match boundary ([k = 0]) and one character into a match
    ([k = 1]). *)
Lemma passes_universal nl s :
  ∀ k, (k ≤ 1)%nat →
    flat_map (λ c, if bool_decide (LF = c) then nl else [c])
      ((λ c, if bool_decide (CR = c) then LF else c) <$>
       replace_from [CR; LF] [LF] k s)
    = universal nl false (drop k s).
Proof.
  induction s as [|c s IH]; intros k Hk.
  - by destruct k.
  - destruct k as [|k].
    + cbn [replace_from drop].
      destruct (starts_with [CR; LF] (c :: s)) eqn:Hsw.
      * apply starts_with_spec in Hsw as [l Hl]. simpl in Hl. simplify_eq.
        cbn [app length Nat.sub fmap list_fmap flat_map].
        rewrite (IH 1%nat) by lia. done.
      * cbn [fmap list_fmap flat_map]. rewrite (IH 0%nat) by lia.
        cbn [drop universal].
        destruct (decide (c = CR)) as [->|Hcr].
        -- rewrite universal_after_cr; [done|].
           destruct s as [|c' s]; [done|]. simpl. intros [= ->].
           by vm_compute in Hsw.
        -- rewrite (bool_decide_eq_false_2 (CR = c)) by done.
           rewrite (bool_decide_eq_false_2 (c = CR)) by done.
           destruct (decide (c = LF)) as [->|Hlf].
           ++ by rewrite !bool_decide_eq_true_2.
           ++ rewrite (bool_decide_eq_false_2 (LF = c)) by done.
              by rewrite (bool_decide_eq_false_2 (c = LF)).
    + destruct k; [|lia]. cbn [replace_from drop].
      rewrite (IH 0%nat) by lia. done.
Qed.

Lemma normalized_universal content newline :
  normalized content newline = universal newline false content.
Proof.
  unfold normalized. rewrite replace_char_flat, replace_char.
  unfold replace. by rewrite (passes_universal newline content 0%nat) by lia.
Qed.

(** X1.  The three [replace] calls of [ensure_utf8_bom] amount to one pass
    of universal newlines: for every content and every [newline], the
    bytes are the signature followed by the UTF-8 encoding of the content
    in which each CR LF pair, each other CR and each other LF is replaced
    by [newline]. *)
Theorem ensure_utf8_bom_one_pass (content newline : str) :
  ensure_utf8_bom content newline =
  (BOM ++.) <$> encode_utf8 (universal newline false content).
Proof. unfold ensure_utf8_bom. by rewrite normalized_universal. Qed.

(** *** Bytes *)

Lemma utf8_char_ascii c : (c < 128)%N → utf8_char c = [c].
Proof. intros Hc. unfold utf8_char. by rewrite (proj2 (N.ltb_lt _ _) Hc). Qed.

Lemma utf8_char_high c :
  (128 ≤ c)%N → utf8_char c ≠ [] ∧ Forall (λ b, (128 ≤ b)%N) (utf8_char c).
Proof.
  intros Hc. unfold utf8_char.
  replace (c <? 128)%N with false by (symmetry; apply N.ltb_ge; lia).
  repeat case_match; (split; [done|]);
    repeat (apply Forall_cons_2;
            [match goal with
             | |- (_ ≤ _ + ?x)%N => generalize x; intros; lia
             end|]);
    apply Forall_nil_2.
Qed.

Lemma paired_high b l rest :
  l ≠ [] → Forall (λ x, (128 ≤ x)%N) l →
  paired b (l ++ rest) = negb b && paired false rest.
Proof.
  intros Hne Hl. revert b Hne.
  induction Hl as [|x l Hx Hl IH]; intros b Hne; [done|].
  cbn [app paired]. unfold LF, CR.
  rewrite !bool_decide_eq_false_2 by lia.
  destruct l as [|y l]; [done|].
  rewrite IH by done. by destruct b.
Qed.

(** Encoding keeps the line terminators where they are. *)
Lemma encode_utf8_paired t :
  ∀ b bs, encode_utf8 t = Some bs → paired b bs = paired b t.
Proof.
  induction t as [|c t IH]; intros b bs; simpl.
  - by intros [= <-].
  - destruct (encodable c); [|done].
    destruct (encode_utf8 t) as [bs'|] eqn:Ht; [|done]. intros [= <-].
    destruct (decide (c < 128)%N) as [Hc|Hc].
    + rewrite utf8_char_ascii by done. cbn [app paired].
      by rewrite !(IH _ bs').
    + destruct (utf8_char_high c) as [Hne Hhigh]; [lia|].
      rewrite paired_high by done. unfold LF, CR.
      rewrite !bool_decide_eq_false_2 by lia. by rewrite (IH _ bs').
Qed.

Lemma encode_utf8_no_cr t bs :
  encode_utf8 t = Some bs → CR ∉ t → CR ∉ bs.
Proof.
  revert bs. induction t as [|c t IH]; intros bs; simpl.
  - intros [= <-]. done.
  - destruct (encodable c); [|done].
    destruct (encode_utf8 t) as [bs'|] eqn:Ht; [|done]. intros [= <-].
    rewrite not_elem_of_cons, elem_of_app. intros [Hc Ht'] [Hin|Hin].
    + destruct (decide (c < 128)%N) as [Hlt|Hge].
      * rewrite utf8_char_ascii in Hin by done. set_solver.
      * destruct (utf8_char_high c) as [_ Hhigh]; [lia|].
        rewrite Forall_forall in Hhigh. apply Hhigh in Hin.
        unfold CR in Hin. lia.
    + by eapply IH.
Qed.

(** *** What the text looks like after the pass *)

Lemma universal_crlf_paired s :
  ∀ b, paired false (universal [CR; LF] b s) = true.
Proof.
  induction s as [|c s IH]; intros b; [done|]. cbn [universal].
  case_bool_decide.
  - cbn [app paired]. rewrite (bool_decide_eq_false_2 (CR = LF)) by done.
    rewrite !bool_decide_eq_true_2 by done. simpl. apply IH.
  - case_bool_decide.
    + destruct b; cbn [app paired]; [apply IH|].
      rewrite (bool_decide_eq_false_2 (CR = LF)) by done.
      rewrite !bool_decide_eq_true_2 by done. simpl. apply IH.
    + cbn [paired]. rewrite !bool_decide_eq_false_2 by done. simpl. apply IH.
Qed.

Lemma universal_lf_no_cr s : ∀ b, CR ∉ universal [LF] b s.
Proof.
  induction s as [|c s IH]; intros b; cbn [universal].
  - apply not_elem_of_nil.
  - case_bool_decide.
    + cbn [app]. apply not_elem_of_cons. split; [done|apply IH].
    + case_bool_decide.
      * destruct b; cbn [app]; [apply IH|].
        apply not_elem_of_cons. split; [done|apply IH].
      * apply not_elem_of_cons. split; [congruence|apply IH].
Qed.

(** X2.  When [ensure_utf8_bom] returns bytes, they begin with the
    signature EF BB BF.  With the default [newline] every LF byte after it
    comes right after a CR byte and every CR byte is followed by a LF
    byte; with [newline="\n"] there is no CR byte at all. *)
Theorem ensure_utf8_bom_terminators (content : str) (bs : bytes) :
  (ensure_utf8_bom content default_newline = Some bs →
   ∃ payload, bs = BOM ++ payload ∧ paired false payload = true) ∧
  (ensure_utf8_bom content [LF] = Some bs →
   ∃ payload, bs = BOM ++ payload ∧ CR ∉ payload).
Proof.
  unfold ensure_utf8_bom. rewrite !normalized_universal. split.
  - destruct (encode_utf8 _) as [payload|] eqn:Henc; [|done].
    intros [= <-]. exists payload. split; [done|].
    rewrite (encode_utf8_paired _ _ _ Henc). apply universal_crlf_paired.
  - destruct (encode_utf8 _) as [payload|] eqn:Henc; [|done].
    intros [= <-]. exists payload. split; [done|].
    eapply encode_utf8_no_cr; [exact Henc|]. apply universal_lf_no_cr.
Qed.

(** The theorem at a text with the three kinds of line ends. *)
Lemma ensure_utf8_bom_terminators_witness :
  ∃ payload,
    [239; 187; 191; 97; 13; 10; 98; 13; 10; 99; 13; 10; 195; 169]%N
    = BOM ++ payload ∧ paired false payload = true.
Proof.
  apply (ensure_utf8_bom_terminators [97; 13; 10; 98; 13; 99; 10; 233]%N).
  reflexivity.
Defined.

(** *** Failure *)

Lemma encode_utf8_is_Some t :
  is_Some (encode_utf8 t) ↔ Forall (λ c, encodable c = true) t.
Proof.
  induction t as [|c t IH]; simpl.
  - split; [by constructor | by eexists].
  - rewrite Forall_cons, <-IH. destruct (encodable c).
    + rewrite fmap_is_Some. naive_solver.
    + split; [by intros [? ?] | by intros [? ?]].
Qed.

Lemma universal_encodable nl s :
  Forall (λ c, encodable c = true) nl →
  ∀ b, Forall (λ c, encodable c = true) (universal nl b s)
       ↔ Forall (λ c, encodable c = true) s.
Proof.
  intros Hnl. induction s as [|c s IH]; intros b; [done|]. cbn [universal].
  rewrite Forall_cons. case_bool_decide as Hcr.
  - subst c. rewrite Forall_app, IH. naive_solver.
  - case_bool_decide as Hlf.
    + subst c. rewrite Forall_app, IH. destruct b; naive_solver.
    + by rewrite Forall_cons, IH.
Qed.

Lemma encodable_all_or_not t :
  Forall (λ c, encodable c = true) t ∨ ∃ c, c ∈ t ∧ encodable c = false.
Proof.
  induction t as [|c t [IH|(c' & Hin & Hc')]].
  - left. constructor.
  - destruct (encodable c) eqn:Hc.
    + left. by constructor.
    + right. exists c. split; [left|done].
  - right. exists c'. split; [by right|done].
Qed.

(** X3.  [ensure_utf8_bom] with the default [newline] fails, with
    [UnicodeEncodeError], exactly when the content holds a code point that
    UTF-8 does not encode (a surrogate); the line terminators themselves
    never make it fail. *)
Theorem ensure_utf8_bom_fails (content : str) :
  ensure_utf8_bom content default_newline = None ↔
  ∃ c, c ∈ content ∧ encodable c = false.
Proof.
  unfold ensure_utf8_bom. rewrite normalized_universal, fmap_None.
  rewrite eq_None_not_Some, encode_utf8_is_Some.
  rewrite universal_encodable by (by repeat constructor).
  split.
  - intros Hnot. by destruct (encodable_all_or_not content).
  - intros (c & Hin & Hc) Hall. rewrite Forall_forall in Hall.
    specialize (Hall c Hin). congruence.
Qed.

(** *** Doing it twice *)

Lemma universal_lf_id s : CR ∉ s → universal [LF] false s = s.
Proof.
  induction s as [|c s IH]; [done|]. rewrite not_elem_of_cons.
  intros [Hc Hs]. cbn [universal].
  rewrite (bool_decide_eq_false_2 (c = CR)) by done.
  case_bool_decide; [subst|]; cbn [app]; by rewrite IH.
Qed.

Lemma universal_crlf_id s :
  ∀ b, paired b s = true →
       (if b then LF :: universal [CR; LF] b s else universal [CR; LF] b s) = s.
Proof.
  induction s as [|c s IH]; intros b; cbn [paired universal].
  - by destruct b.
  - destruct (decide (c = LF)) as [->|Hlf].
    + rewrite (bool_decide_eq_false_2 (LF = CR)) by done.
      rewrite !bool_decide_eq_true_2 by done.
      destruct b; [|done]. cbn [andb app]. intros Hs.
      f_equal. exact (IH false Hs).
    + rewrite !(bool_decide_eq_false_2 (c = LF)) by done.
      destruct (decide (c = CR)) as [->|Hcr].
      * rewrite !bool_decide_eq_true_2 by done.
        destruct b; [done|]. cbn [andb negb app]. intros Hs.
        f_equal. exact (IH true Hs).
      * rewrite !bool_decide_eq_false_2 by done.
        destruct b; [done|]. cbn [andb negb]. intros Hs.
        f_equal. exact (IH false Hs).
Qed.

(** X4.  Normalising twice is normalising once, for the Unix and for the
    Windows [newline]: the text [ensure_utf8_bom] encodes is a fixed point
    of its own normalisation. *)
Theorem normalized_idempotent (content : str) :
  normalized (normalized content [LF]) [LF] = normalized content [LF] ∧
  normalized (normalized content default_newline) default_newline
  = normalized content default_newline.
Proof.
  rewrite !normalized_universal. split.
  - apply universal_lf_id, universal_lf_no_cr.
  - apply (universal_crlf_id _ false), universal_crlf_paired.
Qed.

End Utf8BomFacts.

(** ** [format_ascii_log] *)

Module AsciiLogFacts.
Import AsciiLog.

(** X5.  [format_ascii_log] puts one of the three tags [[INFO]], [[OK]],
    [[ERR]] and a space in front of the message and leaves the message as
    it is; a status that is none of [info], [success], [error] gets the
    tag of [info]; and for a given status different messages give
    different lines. *)
Theorem format_ascii_log_prefix (message status : string) :
  (∃ tag, tag ∈ ["[INFO]"; "[OK]"; "[ERR]"] ∧
          format_ascii_log message status = tag +:+ " " +:+ message) ∧
  (status ∉ ["info"; "success"; "error"] →
   format_ascii_log message status = format_ascii_log message "info") ∧
  (∀ message', format_ascii_log message status
               = format_ascii_log message' status → message = message').
Proof.
  split_and!.
  - unfold format_ascii_log, py_get, prefix_map.
    cbn [list_find]. repeat (case_decide; simpl); eexists; (split; [|done]);
      set_solver.
  - unfold format_ascii_log, py_get, prefix_map.
    rewrite !not_elem_of_cons. intros (? & ? & ? & _).
    cbn [list_find]. by repeat (case_decide; simpl; [done|]).
  - intros message'. unfold format_ascii_log.
    generalize (py_get prefix_map status "[INFO]"). intros tag Heq.
    apply (inj (String.append tag)) in Heq.
    by apply (inj (String.append " ")) in Heq.
Qed.

(** The theorem at an unknown status. *)
Lemma format_ascii_log_prefix_witness :
  format_ascii_log "done" "warning" = "[INFO] done".
Proof.
  destruct (format_ascii_log_prefix "done" "warning") as (_ & Hfallback & _).
  rewrite Hfallback; [reflexivity|]. by apply (bool_decide_unpack _).
Defined.

End AsciiLogFacts.

(** ** [sanitize_branch_name]: what it leaves alone *)

Module SanitizeFacts.
Import PyStr PyStrFacts PowershellUtils PowershellUtilsFacts SafeNames.

(** [lstrip] cuts a prefix off, and what is left does not start with
    white space. *)
Lemma lstrip_suffix {A} (sp : A → bool) (s : list A) :
  ∃ pre, s = pre ++ lstrip sp s.
Proof.
  induction s as [|c s [pre IH]]; simpl; [by exists []|].
  destruct (sp c); [|by exists []]. exists (c :: pre). simpl. by f_equal.
Qed.

Lemma lstrip_head {A} (sp : A → bool) (s : list A) (c : A) :
  head (lstrip sp s) = Some c → sp c = false.
Proof.
  induction s as [|x s IH]; simpl; [done|].
  destruct (sp x) eqn:Hx; [done|]. simpl. by intros [= <-].
Qed.

Lemma lstrip_id {A} (sp : A → bool) (s : list A) :
  (∀ c, head s = Some c → sp c = false) → lstrip sp s = s.
Proof. destruct s as [|c s]; simpl; [done|]. intros H. by rewrite H. Qed.

Lemma strip_id {A} (sp : A → bool) (s : list A) :
  (∀ c, head s = Some c → sp c = false) →
  (∀ c, last s = Some c → sp c = false) →
  strip sp s = s.
Proof.
  intros Hh Hl. unfold strip, rstrip. rewrite (lstrip_id sp s Hh).
  rewrite lstrip_id, reverse_involutive; [done|].
  intros c. rewrite head_reverse. apply Hl.
Qed.

(** Both ends of a stripped text are not white space. *)
Lemma strip_ends {A} (sp : A → bool) (s : list A) (c : A) :
  head (strip sp s) = Some c ∨ last (strip sp s) = Some c → sp c = false.
Proof.
  unfold strip, rstrip. set (t := lstrip sp s).
  destruct (lstrip_suffix sp (reverse t)) as [pre Hpre].
  intros [Hc|Hc].
  - apply (lstrip_head sp s). fold t.
    apply (f_equal reverse) in Hpre.
    rewrite reverse_involutive, reverse_app in Hpre. rewrite Hpre.
    destruct (reverse (lstrip sp (reverse t))); [done|]. exact Hc.
  - rewrite last_reverse in Hc. by apply lstrip_head in Hc.
Qed.

(** One pass of [replace("--", "-")] keeps the first and the last
    character of the text. *)
Lemma replace_dashes_head (s : str) :
  head (replace dashdash dash s) = head s.
Proof.
  unfold replace. simpl. destruct s as [|c s]; [done|].
  cbn [replace_from]. destruct (starts_with dashdash (c :: s)) eqn:Hsw; [|done].
  apply starts_with_spec in Hsw as [l Hl]. simpl in Hl. by simplify_eq.
Qed.

Lemma replace_dashes_last (k : nat) (s : str) :
  (k ≤ 1)%nat →
  last (replace_from dashdash dash k s) = last (drop k s).
Proof.
  revert k. induction s as [|c s IH]; intros k Hk.
  - by destruct k.
  - destruct k as [|k]; cbn [replace_from drop].
    + destruct (starts_with dashdash (c :: s)) eqn:Hsw.
      * change dashdash with [dash_char; dash_char] in *.
        change dash with [dash_char] in *.
        apply starts_with_spec in Hsw as [l Hl].
        injection Hl as -> ->. cbn [length Nat.sub app].
        rewrite last_cons, (IH 1%nat) by lia. cbn [drop].
        rewrite drop_0, !last_cons. by destruct (last l).
      * rewrite !last_cons, (IH 0%nat) by lia. done.
    + rewrite (IH k) by lia. done.
Qed.

Lemma collapse_ends (fuel : nat) (s r : str) :
  collapse fuel s = Some r → head r = head s ∧ last r = last s.
Proof.
  revert s. induction fuel as [|fuel IH]; intros s; simpl.
  - destruct (contains dashdash s); [done|]. by intros [= ->].
  - destruct (contains dashdash s); [|by intros [= ->]].
    intros [-> ->]%IH. split; [apply replace_dashes_head|].
    apply (replace_dashes_last 0). lia.
Qed.

Lemma collapse_id (fuel : nat) (s : str) :
  contains dashdash s = false → collapse fuel s = Some s.
Proof. intros Hc. destruct fuel; simpl; by rewrite Hc. Qed.

Lemma replace_tokens_id (s : str) :
  (∀ c, c ∈ token_chars → c ∉ s) → replace_tokens s = s.
Proof.
  intros Hs. rewrite replace_tokens_map. rewrite <-(list_fmap_id s) at 2.
  apply list_fmap_ext. intros _ c Hc%list_elem_of_lookup_2.
  rewrite bool_decide_eq_false_2; [done|]. intros Hin. by apply (Hs c).
Qed.

(** The token loop turns no character into white space. *)
Lemma replace_tokens_ends (s : str) (c : char) :
  head (replace_tokens s) = Some c ∨ last (replace_tokens s) = Some c →
  (∀ x, head s = Some x ∨ last s = Some x → isspace x = false) →
  isspace c = false.
Proof.
  rewrite replace_tokens_map.
  set (g := λ c : char, if bool_decide (c ∈ token_chars) then dash_char else c).
  assert (∀ x, isspace x = false → isspace (g x) = false) as Hg.
  { intros x Hx. unfold g. by case_bool_decide. }
  intros Hc Hs.
  assert (∃ x, (head s = Some x ∨ last s = Some x) ∧ c = g x) as (x & Hx & ->).
  { destruct Hc as [Hc|Hc].
    - destruct s as [|x s]; [done|]. simpl in Hc. exists x. naive_solver.
    - rewrite fmap_last in Hc. destruct (last s) as [x|]; [|done].
      exists x. naive_solver. }
  by apply Hg, Hs.
Qed.

Lemma sanitize_fuel_safe (fuel : nat) (branch r : str) :
  sanitize_branch_name_fuel fuel branch = Some r → safe_name r.
Proof.
  unfold sanitize_branch_name_fuel.
  destruct (collapse fuel _) as [r0|] eqn:Hr0; [|done]. intros [= <-].
  destruct r0 as [|c0 r0]; cbn [or_branch].
  { unfold safe_name. split_and!; [done| |done|].
    - intros c Hc Hin. vm_compute in Hin. unfold token_chars in Hc.
      set_unfold. naive_solver.
    - intros c [[= <-]|[= <-]]; done. }
  pose proof (collapse_ends _ _ _ Hr0) as [Hh Hl].
  assert (contains dashdash (c0 :: r0) = false ∧
          ∀ c, c ∈ c0 :: r0 → c ∈ replace_tokens (strip isspace branch))
    as [Hclean Helem].
  { clear Hh Hl. revert Hr0. generalize (replace_tokens (strip isspace branch)).
    generalize (c0 :: r0). clear. intros r. 
    induction fuel as [|fuel IH]; intros s; simpl.
    - destruct (contains dashdash s) eqn:Hc; [done|]. by intros [= ->].
    - destruct (contains dashdash s) eqn:Hc; [|by intros [= ->]].
      intros [Hr Hin]%IH. split; [done|]. intros c Hin'%Hin.
      apply replace_from_elem in Hin' as [?|Hd]; [done|].
      apply contains_spec in Hc as (l1 & l2 & ->).
      apply list_elem_of_singleton in Hd as ->. set_solver. }
  split_and!; [done| |done|].
  - intros c Hc Hin%Helem. by apply replace_tokens_clean in Hin.
  - intros c Hc. rewrite Hh, Hl in Hc.
    apply (replace_tokens_ends _ _ Hc). apply strip_ends.
Qed.

Lemma sanitize_fuel_id (fuel : nat) (r : str) :
  safe_name r → sanitize_branch_name_fuel fuel r = Some r.
Proof.
  intros (Hne & Htok & Hdd & Hends). unfold sanitize_branch_name_fuel.
  rewrite strip_id by naive_solver.
  rewrite replace_tokens_id, collapse_id by done. simpl.
  by destruct r.
Qed.

(** X6.  A name that is not empty, holds none of the characters
    [/ \ : space . ~ ^ [ ]], nowhere two dashes in a row and no white
    space at its ends comes back from [sanitize_branch_name] as it is. *)
Theorem sanitize_branch_name_fixed (branch : str) :
  safe_name branch → sanitize_branch_name branch = Some branch.
Proof. apply sanitize_fuel_id. Qed.

Lemma sanitize_branch_name_fixed_witness :
  sanitize_branch_name (lit "fix-42_a") = Some (lit "fix-42_a").
Proof.
  apply sanitize_branch_name_fixed. unfold safe_name. split_and!.
  - done.
  - intros c Hc. apply (bool_decide_unpack _). revert c Hc.
    apply Forall_forall. repeat constructor; by vm_compute.
  - reflexivity.
  - intros c [[= <-]|[= <-]]; reflexivity.
Defined.

(** X7.  [sanitize_branch_name] is idempotent: sanitizing its result
    changes nothing, and that result is a safe name, with no white space
    left at its ends. *)
Theorem sanitize_branch_name_idempotent (branch : str) :
  ∃ r, sanitize_branch_name branch = Some r ∧ safe_name r ∧
       sanitize_branch_name r = Some r.
Proof.
  destruct (collapse_total (length branch)
              (replace_tokens (strip isspace branch))) as (r0 & Hr0 & _).
  { rewrite replace_tokens_length. apply strip_length. }
  exists (or_branch r0).
  assert (sanitize_branch_name branch = Some (or_branch r0)) as Hr.
  { unfold sanitize_branch_name, sanitize_branch_name_fuel. by rewrite Hr0. }
  pose proof (sanitize_fuel_safe _ _ _ Hr) as Hsafe.
  split_and!; [done..|]. by apply sanitize_fuel_id.
Qed.
End SanitizeFacts.

(** ** [StepTracker]: steps in place, keys, and the refresh *)

Module StepsFacts.
Import Py Tracker Keeps TrackerFacts Steps Scenarios Examples.

Lemma update_first_find k st d l :
  update_first k st d l =
  (λ '(i, s), <[i := touched st d s]> l) <$> find_step k l.
Proof.
  unfold find_step. induction l as [|s l IH]; [done|].
  cbn [update_first list_find]. case_decide as Hk.
  - by rewrite bool_decide_eq_true_2.
  - rewrite bool_decide_eq_false_2, IH by done.
    destruct (list_find _ l) as [[i x]|]; done.
Qed.

Lemma find_step_None k l : find_step k l = None ↔ k ∉ key <$> l.
Proof.
  unfold find_step. rewrite list_find_None, Forall_forall, list_elem_of_fmap.
  naive_solver.
Qed.

Lemma updated_find k st d l i s :
  find_step k l = Some (i, s) → updated k st d l = <[i := touched st d s]> l.
Proof. intros Hf. unfold updated. by rewrite update_first_find, Hf. Qed.

Lemma updated_absent k st d l :
  k ∉ key <$> l → updated k st d l = l ++ [Step k k st d].
Proof. intros Hk. unfold updated. by rewrite update_first_None. Qed.

Lemma updated_keys k st d l :
  key <$> updated k st d l =
  if bool_decide (k ∈ key <$> l) then key <$> l else (key <$> l) ++ [k].
Proof.
  unfold updated. case_bool_decide as Hk.
  - destruct (update_first k st d l) as [l'|] eqn:Hu.
    + by apply update_first_keys in Hu.
    + rewrite update_first_find in Hu.
      destruct (find_step k l) eqn:Hf; [by destruct p|].
      by apply find_step_None in Hf.
  - rewrite update_first_None by done. simpl. by rewrite fmap_app.
Qed.

Section WithEnv.
Context {E : Type}.
Implicit Types (t : StepTracker E) (e : E).

(** The tracker after a call, whatever the callback did. *)
Lemma maybe_refresh_tracker t e : (_maybe_refresh (t, e)).2.1 = t.
Proof.
  destruct (maybe_refresh_safe t e) as (r & e' & -> & _). done.
Qed.

Lemma do_call_tracker (c : call) t e :
  (do_call c (t, e)).2.1 =
  match c with
  | CallAdd k lbl =>
      if bool_decide (k ∈ key <$> steps t) then t
      else set_steps (steps t ++ [Step k lbl Pending ""]) t
  | CallStart k d => set_steps (updated k Running d (steps t)) t
  | CallComplete k d => set_steps (updated k Done d (steps t)) t
  | CallError k d => set_steps (updated k Error d (steps t)) t
  end.
Proof.
  destruct c as [k lbl|k d|k d|k d]; cbn [do_call]; unfold start, complete, error;
    rewrite ?update_eq, ?add_eq, ?maybe_refresh_tracker; try done.
  case_bool_decide; [done|]. apply maybe_refresh_tracker.
Qed.

(** X8.  [start], [complete] and [error] on a registered key change the
    first step with that key, in place: it gets the new status, and the
    new detail unless that is empty; its key and label, every other step,
    the order, the title and the callback stay as they were, whatever
    the callback does. *)
Theorem update_registered_in_place t e (k : string) (st : status) (d : string)
    (i : nat) (s : step) :
  find_step k (steps t) = Some (i, s) →
  let t' := (_update k st d (t, e)).2.1 in
  steps t' = <[i := touched st d s]> (steps t) ∧
  steps t' !! i = Some (touched st d s) ∧
  (∀ j, j ≠ i → steps t' !! j = steps t !! j) ∧
  key <$> steps t' = key <$> steps t ∧
  label <$> steps t' = label <$> steps t ∧
  title t' = title t ∧ _refresh_cb t' = _refresh_cb t.
Proof.
  intros Hf t'. subst t'. rewrite update_eq, maybe_refresh_tracker.
  cbn [steps set_steps title _refresh_cb]. rewrite (updated_find _ _ _ _ _ _ Hf).
  apply list_find_Some in Hf as (Hi & Hk & _).
  assert (i < length (steps t))%nat by by eapply lookup_lt_Some.
  split_and!; [done| |..|done|done].
  - by apply list_lookup_insert_eq.
  - intros j Hj. by apply list_lookup_insert_ne.
  - rewrite list_fmap_insert. apply list_insert_id.
    by rewrite list_lookup_fmap, Hi.
  - rewrite list_fmap_insert. apply list_insert_id.
    by rewrite list_lookup_fmap, Hi.
Qed.

(** X9.  Every mutating call keeps the title and the callback, and
    leaves the keys as they are or puts one new key, its own, at the
    end; so keys that are pairwise distinct stay so. *)
Theorem tracker_keys_grow t e (c : call) :
  let t' := (do_call c (t, e)).2.1 in
  title t' = title t ∧ _refresh_cb t' = _refresh_cb t ∧
  (key <$> steps t' =
   if bool_decide (call_key c ∈ key <$> steps t) then key <$> steps t
   else (key <$> steps t) ++ [call_key c]) ∧
  (NoDup (key <$> steps t) → NoDup (key <$> steps t')).
Proof.
  intros t'. subst t'. rewrite do_call_tracker.
  assert (∀ l' : list step,
    key <$> l' =
      (if bool_decide (call_key c ∈ key <$> steps t) then key <$> steps t
       else (key <$> steps t) ++ [call_key c]) →
    NoDup (key <$> steps t) → NoDup (key <$> l')) as Hnd.
  { intros l' ->. case_bool_decide as Hk; [done|]. intros Hn.
    apply NoDup_app. split_and!; [done| |apply NoDup_singleton].
    intros x Hx ->%list_elem_of_singleton. done. }
  destruct c as [k lbl|k d|k d|k d]; cbn [call_key] in Hnd |- *.
  - case_bool_decide as Hk; [done|]. cbn [steps set_steps title _refresh_cb].
    split_and!; [done|done|by rewrite fmap_app|].
    apply Hnd. by rewrite fmap_app.
  - split_and!; [done|done|apply updated_keys|apply Hnd, updated_keys].
  - split_and!; [done|done|apply updated_keys|apply Hnd, updated_keys].
  - split_and!; [done|done|apply updated_keys|apply Hnd, updated_keys].
Qed.

(** X10.  The callback is run after the mutation and on the mutated
    steps: a call that changes the steps leaves the environment as one
    run of the callback on the new steps leaves it, and returns unless
    that run raised something that is no [Exception], or blocked; [add]
    with a key that is taken does not run it. *)
Theorem refresh_after_mutation t e (cb : callback E) (c : call) :
  _refresh_cb t = Some cb →
  let t' := (do_call c (t, e)).2.1 in
  let ran := cb (title t) (steps t') e in
  if idle c (steps t) then do_call c (t, e) = (Ok tt, (t, e))
  else
    (do_call c (t, e)).2 = (t', ran.2) ∧
    (do_call c (t, e)).1 =
      match ran.1 with
      | Ok _ => Ok tt
      | Raise x => if is_Exception x then Ok tt else Raise x
      | Blocked => Blocked
      end.
Proof.
  intros Hcb t' ran. subst t' ran. rewrite do_call_tracker.
  assert (∀ l, _maybe_refresh (set_steps l t, e) =
    match cb (title t) l e with
    | (Ok _, e') => (Ok tt, (set_steps l t, e'))
    | (Raise x, e') =>
        if is_Exception x then (Ok tt, (set_steps l t, e'))
        else (Raise x, (set_steps l t, e'))
    | (Blocked, e') => (Blocked, (set_steps l t, e'))
    end) as Hrun.
  { intros l. rewrite maybe_refresh_eq. cbn [_refresh_cb set_steps title steps].
    by rewrite Hcb. }
  destruct c as [k lbl|k d|k d|k d]; cbn [idle do_call];
    unfold start, complete, error; rewrite ?update_eq, ?add_eq.
  - case_bool_decide; [done|]. rewrite Hrun. cbn [steps set_steps].
    destruct (cb _ _ e) as [[[]|x|] e']; [done| |done].
    cbn [fst snd]. by destruct (is_Exception x).
  - rewrite Hrun. cbn [steps set_steps].
    destruct (cb _ _ e) as [[[]|x|] e']; [done| |done].
    cbn [fst snd]. by destruct (is_Exception x).
  - rewrite Hrun. cbn [steps set_steps].
    destruct (cb _ _ e) as [[[]|x|] e']; [done| |done].
    cbn [fst snd]. by destruct (is_Exception x).
  - rewrite Hrun. cbn [steps set_steps].
    destruct (cb _ _ e) as [[[]|x|] e']; [done| |done].
    cbn [fst snd]. by destruct (is_Exception x).
Qed.
End WithEnv.

(** The three theorems at a tracker of two steps, and at one whose
    callback fails. *)
Lemma update_registered_in_place_witness :
  steps (_update "script" Done "" (two_steps, tt)).2.1
  = [Step "dirs" "Criar" Pending ""; Step "script" "Gerar" Done "x"].
Proof.
  destruct (update_registered_in_place two_steps tt "script" Done "" 1
              (Step "script" "Gerar" Running "x") eq_refl) as [H _].
  exact H.
Defined.

Lemma tracker_keys_grow_witness :
  NoDup (key <$> steps (do_call (CallStart "prompt" "") (two_steps, tt)).2.1).
Proof.
  destruct (tracker_keys_grow two_steps tt (CallStart "prompt" ""))
    as (_ & _ & _ & H).
  apply H. apply (bool_decide_unpack _). by vm_compute.
Defined.

Lemma refresh_after_mutation_witness :
  (do_call (CallStart "dirs" "") (tracker_with failing_cb, tt)).1 = Ok tt.
Proof.
  pose proof (refresh_after_mutation (tracker_with failing_cb) tt failing_cb
                (CallStart "dirs" "") eq_refl) as H.
  cbn [idle] in H. destruct H as [_ H]. exact H.
Defined.

End StepsFacts.

(** ** The selector, key by key *)

Module SelectorKeysFacts.
Import Py Tracker World Selector Cli Keeps SelectorFacts WorldFacts SelectorKeys.
Import Scenarios Examples.

Lemma index_lookup (d : string) (l : list string) :
  d ∈ l → l !! Z.to_nat (index d l) = Some d.
Proof.
  induction l as [|y l IH]; [by intros ?%elem_of_nil|].
  rewrite elem_of_cons. cbn [index]. case_bool_decide as Hy.
  - intros _. by subst.
  - intros [->|Hin]; [done|].
    pose proof (index_range d l Hin). unfold len in *.
    replace (Z.to_nat (1 + index d l)) with (S (Z.to_nat (index d l))) by lia.
    by apply IH.
Qed.

Lemma initial_index_lookup (option_keys : list string)
    (default_key : option string) :
  option_keys !! Z.to_nat (initial_index option_keys default_key)
  = preselected option_keys default_key.
Proof.
  unfold initial_index, preselected.
  assert (option_keys !! Z.to_nat 0 = head option_keys) as H0.
  { by destruct option_keys. }
  destruct default_key as [d|]; [|done].
  destruct (bool_decide (d ≠ "")); simpl; [|done].
  case_bool_decide; [|done]. by apply index_lookup.
Qed.

Lemma step_index_range (n i : Z) (k : readkey) :
  1 <= n → 0 <= i <= n - 1 → 0 <= step_index n i k <= n - 1.
Proof.
  intros Hn Hi. unfold step_index.
  destruct (key_name k) as [s|]; [|done].
  repeat case_bool_decide; try done;
    match goal with |- context [?a mod n] =>
      pose proof (Z.mod_pos_bound a n ltac:(lia)); lia
    end.
Qed.

Lemma trail_range (n : Z) (presses : list readkey) :
  ∀ i, 1 <= n → 0 <= i <= n - 1 →
       Forall (λ j, 0 <= j <= n - 1) (trail n i presses) ∧
       0 <= foldl (step_index n) i presses <= n - 1.
Proof.
  induction presses as [|k presses IH]; intros i Hn Hi; simpl.
  - by split.
  - destruct (IH (step_index n i k) Hn) as [Hpos Hlast].
    { by apply step_index_range. }
    split; [by constructor | done].
Qed.

(** One pass of the loop, by the kind of the key. *)
Lemma select_pass_navigates prompt_text option_keys i k ks w :
  1 <= len option_keys → navigates k = true → keys w = k :: ks →
  select_pass prompt_text option_keys i w =
  (Ok (step_index (len option_keys) i k, None),
   drawn prompt_text option_keys i ks w).
Proof.
  intros Hn Hk Hw.
  unfold select_pass, bind, show, modify, try_except, get_key, bind,
    readchar_readkey, py_mod. cbn. rewrite Hw.
  replace (len option_keys =? 0) with false by lia.
  unfold navigates, confirms, cancels, step_index in *.
  destruct k as [| | | | | | |s]; try done; cbn in Hk |- *.
  apply andb_true_iff in Hk as [Henter Hesc].
  apply negb_true_iff, bool_decide_eq_false in Henter, Hesc.
  rewrite (bool_decide_eq_false_2 (s = "enter")) by congruence.
  rewrite (bool_decide_eq_false_2 (s = "escape")) by congruence.
  by repeat case_bool_decide.
Qed.

Lemma select_pass_confirms prompt_text option_keys i k ks w x :
  confirms k = true → keys w = k :: ks → 0 <= i →
  option_keys !! Z.to_nat i = Some x →
  select_pass prompt_text option_keys i w =
  (Ok (i, Some x), drawn prompt_text option_keys i ks w).
Proof.
  intros Hk Hw Hi Hx.
  assert (∀ s : world, py_getitem option_keys i s = (Ok x, s)) as Hget.
  { intros s. unfold py_getitem. replace (i <? 0) with false by lia.
    replace (i <? 0) with false by lia. by rewrite Hx. }
  unfold select_pass, bind, show, modify, try_except, get_key, bind,
    readchar_readkey. cbn -[py_getitem]. rewrite Hw.
  unfold confirms in Hk. apply bool_decide_eq_true in Hk.
  destruct k as [| | | | | | |s]; try done; cbn -[py_getitem] in Hk |- *.
  - repeat (case_bool_decide; try done). cbv beta. by rewrite Hget.
  - injection Hk as ->.
    repeat (case_bool_decide; try done). cbv beta. by rewrite Hget.
Qed.

Lemma select_pass_cancels prompt_text option_keys i k ks w :
  cancels k = true → keys w = k :: ks →
  select_pass prompt_text option_keys i w =
  (Raise (Exit 1),
   set_console
     (console (drawn prompt_text option_keys i ks w) ++ [Line (cancel_notice k)])
     (drawn prompt_text option_keys i ks w)).
Proof.
  intros Hk Hw.
  unfold select_pass, bind, show, modify, try_except, get_key, bind,
    readchar_readkey. cbn. rewrite Hw.
  unfold cancels in Hk.
  destruct k as [| | | | | | |s]; try done; cbn in Hk |- *.
  apply bool_decide_eq_true in Hk as ->. done.
Qed.

(** A run of presses that let the loop go on. *)
Lemma select_loop_navigates prompt_text option_keys presses :
  ∀ fuel i rest w,
    1 <= len option_keys → Forall (λ k, navigates k = true) presses →
    keys w = presses ++ rest →
    select_loop (length presses + fuel) prompt_text option_keys i w =
    select_loop fuel prompt_text option_keys
      (foldl (step_index (len option_keys)) i presses)
      {| keys := rest; fs := fs w;
         console := console w ++
           (SelectionPanel prompt_text option_keys
              <$> trail (len option_keys) i presses) |}.
Proof.
  induction presses as [|k presses IH]; intros fuel i rest w Hn Hks Hw.
  - simpl in *. rewrite app_nil_r. destruct w; simpl in *. by subst.
  - apply Forall_cons in Hks as [Hk Hks].
    cbn [length Nat.add select_loop]. unfold bind at 1.
    rewrite (select_pass_navigates _ _ _ k (presses ++ rest)) by done.
    rewrite (IH fuel _ rest) by done.
    cbn [foldl trail fmap list_fmap keys fs console drawn].
    by rewrite <-app_assoc.
Qed.

(** The selector up to the pass that reads the key behind the run. *)
Lemma select_with_arrows_run {V} (options : list (string * V)) prompt_text
    default_key presses rest w :
  let n := len (options.*1) in
  let i0 := initial_index (options.*1) default_key in
  1 <= n → Forall (λ k, navigates k = true) presses →
  keys w = presses ++ rest →
  select_with_arrows options prompt_text default_key w =
  select_loop (S (length rest)) prompt_text (options.*1)
    (foldl (step_index n) i0 presses)
    {| keys := rest; fs := fs w;
       console := console w ++ Line "" ::
         (SelectionPanel prompt_text (options.*1) <$> i0 :: trail n i0 presses) |}.
Proof.
  intros n i0 Hn Hks Hw.
  unfold select_with_arrows, bind at 1 2 3, print, show, modify, gets.
  cbn -[select_loop]. rewrite Hw, length_app.
  replace (S (length presses + length rest))
    with (length presses + S (length rest))%nat by lia.
  rewrite (select_loop_navigates _ _ presses _ _ rest) by done.
  cbn [keys fs console set_console fmap list_fmap].
  by rewrite <-!app_assoc.
Qed.

(** Enter as the first key: the option the selector starts on. *)
Lemma select_with_arrows_enter {V} (options : list (string * V)) prompt_text
    default_key k rest w x :
  confirms k = true → keys w = k :: rest →
  preselected (options.*1) default_key = Some x →
  let i0 := initial_index (options.*1) default_key in
  select_with_arrows options prompt_text default_key w =
  (Ok x,
   {| keys := rest; fs := fs w;
      console := console w ++
        [Line ""; SelectionPanel prompt_text (options.*1) i0;
         SelectionPanel prompt_text (options.*1) i0] |}).
Proof.
  intros Hk Hw Hx i0. rewrite <-initial_index_lookup in Hx. fold i0 in Hx.
  assert (1 <= len (options.*1)) as Hn.
  { apply lookup_lt_Some in Hx. unfold len. lia. }
  pose proof (initial_index_range (options.*1) default_key Hn) as Hi.
  rewrite (select_with_arrows_run _ _ _ [] (k :: rest)) by done.
  cbn [select_loop foldl trail fmap list_fmap]. fold i0.
  erewrite bind_ok; [|by eapply select_pass_confirms; [done|done|lia|]].
  unfold ret, drawn. cbn [keys fs console]. do 2 f_equal.
  by rewrite <-app_assoc.
Qed.

Lemma panels_snoc {A B} (f : A → B) (i0 : A) (l : list A) (i : A) :
  (f <$> i0 :: l) ++ [f i] = f <$> i0 :: l ++ [i].
Proof. by rewrite app_comm_cons, fmap_app. Qed.

(** X11.  After a run of presses that are neither Enter nor Escape nor
    Ctrl-C, Enter makes the selector return the option at the index the
    run has led to, the keys behind it left unread and the files as they
    were; the panel has been drawn once at the start and once before each
    key.  With no press before Enter that option is the default key, when
    one is given, is not empty and is an option, and the first option
    otherwise. *)
Theorem selector_enter_returns {V} (options : list (string * V))
    (prompt_text : string) (default_key : option string)
    (presses : list readkey) (k : readkey) (rest : list readkey) (w : world) :
  let n := len (options.*1) in
  let i0 := initial_index (options.*1) default_key in
  let i := foldl (step_index n) i0 presses in
  1 <= n → Forall (λ k, navigates k = true) presses → confirms k = true →
  keys w = presses ++ k :: rest →
  ∃ x, options.*1 !! Z.to_nat i = Some x ∧
       select_with_arrows options prompt_text default_key w =
       (Ok x,
        {| keys := rest; fs := fs w;
           console := console w ++ Line "" ::
             (SelectionPanel prompt_text (options.*1)
                <$> i0 :: trail n i0 presses ++ [i]) |}) ∧
       (presses = [] → Some x = preselected (options.*1) default_key).
Proof.
  intros n i0 i Hn Hks Hk Hw.
  destruct (trail_range n presses i0 Hn) as [_ Hi].
  { by apply initial_index_range. }
  fold i in Hi.
  destruct (lookup_lt_is_Some_2 (options.*1) (Z.to_nat i)) as [x Hx].
  { unfold n, len in Hi. lia. }
  exists x. split_and!; [done| |].
  - rewrite (select_with_arrows_run _ _ _ presses (k :: rest)) by done.
    cbn [select_loop]. fold n i0 i.
    erewrite bind_ok; [|by eapply select_pass_confirms; [done|done|lia|]].
    unfold ret, drawn. cbn [keys fs console]. do 2 f_equal.
    rewrite <-app_assoc. cbn [app]. do 2 f_equal.
    apply panels_snoc.
  - intros ->. rewrite <-Hx. subst i. cbn [foldl].
    apply initial_index_lookup.
Qed.

(** X12.  After such a run Escape or Ctrl-C ends the selector with
    [typer.Exit(1)], status 1: the notice of cancellation is the last
    line on the console, after a line break when the key was Ctrl-C; the
    keys behind are left unread and the files are as they were. *)
Theorem selector_cancel_exits {V} (options : list (string * V))
    (prompt_text : string) (default_key : option string)
    (presses : list readkey) (k : readkey) (rest : list readkey) (w : world) :
  let n := len (options.*1) in
  let i0 := initial_index (options.*1) default_key in
  let i := foldl (step_index n) i0 presses in
  1 <= n → Forall (λ k, navigates k = true) presses → cancels k = true →
  keys w = presses ++ k :: rest →
  select_with_arrows options prompt_text default_key w =
  (Raise (Exit 1),
   {| keys := rest; fs := fs w;
      console := console w ++ Line "" ::
        (SelectionPanel prompt_text (options.*1)
           <$> i0 :: trail n i0 presses ++ [i]) ++
        [Line (cancel_notice k)] |}) ∧
  exit_status (select_with_arrows options prompt_text default_key w).1 = Some 1.
Proof.
  intros n i0 i Hn Hks Hk Hw.
  assert (select_with_arrows options prompt_text default_key w =
    (Raise (Exit 1),
     {| keys := rest; fs := fs w;
        console := console w ++ Line "" ::
          (SelectionPanel prompt_text (options.*1)
             <$> i0 :: trail n i0 presses ++ [i]) ++
          [Line (cancel_notice k)] |})) as ->; [|done].
  rewrite (select_with_arrows_run _ _ _ presses (k :: rest)) by done.
  cbn [select_loop]. fold n i0 i.
  erewrite bind_raise; [|by eapply select_pass_cancels].
  unfold drawn, set_console. cbn [keys fs console]. do 2 f_equal.
  rewrite <-!app_assoc. cbn [app]. do 2 f_equal.
  by rewrite <-panels_snoc, <-app_assoc.
Qed.

(** X13.  No other key ends the selector: when the keys run out after
    such a run it waits, all keys read, the panel drawn for the key to
    come and nothing else shown. *)
Theorem selector_waits {V} (options : list (string * V))
    (prompt_text : string) (default_key : option string)
    (presses : list readkey) (w : world) :
  let n := len (options.*1) in
  let i0 := initial_index (options.*1) default_key in
  let i := foldl (step_index n) i0 presses in
  1 <= n → Forall (λ k, navigates k = true) presses → keys w = presses →
  select_with_arrows options prompt_text default_key w =
  (Blocked,
   {| keys := []; fs := fs w;
      console := console w ++ Line "" ::
        (SelectionPanel prompt_text (options.*1)
           <$> i0 :: trail n i0 presses ++ [i]) |}).
Proof.
  intros n i0 i Hn Hks Hw.
  rewrite (select_with_arrows_run _ _ _ presses [])
    by (try done; by rewrite app_nil_r).
  fold n i0 i. cbn [select_loop length]. unfold bind.
  unfold select_pass, bind, show, modify, try_except, get_key, bind,
    readchar_readkey. cbn [keys fs console set_console]. f_equal.
  unfold set_console. cbn [keys fs console]. f_equal.
  rewrite <-app_assoc. cbn [app]. do 2 f_equal.
  apply panels_snoc.
Qed.

Lemma select_pass_no_options prompt_text k ks w :
  keys w = k :: ks →
  (is_arrow k = true →
   (select_pass prompt_text [] 0 w).1
   = Raise (Exception "ZeroDivisionError" "integer modulo by zero")) ∧
  (k = ENTER →
   (select_pass prompt_text [] 0 w).1
   = Raise (Exception "IndexError" "list index out of range")).
Proof.
  intros Hw.
  unfold select_pass, bind, show, modify, try_except, get_key, bind,
    readchar_readkey. cbn. rewrite Hw.
  split; [by destruct k | by intros ->].
Qed.

(** X14.  With no option at all the selector does not get past its
    first key, unless that key cancels: an arrow key makes it raise
    [ZeroDivisionError] and Enter [IndexError], neither of which it
    catches. *)
Theorem selector_without_options {V} (prompt_text : string)
    (default_key : option string) (k : readkey) (rest : list readkey)
    (w : world) :
  keys w = k :: rest →
  let r := (select_with_arrows (@nil (string * V)) prompt_text default_key w).1 in
  (is_arrow k = true →
   r = Raise (Exception "ZeroDivisionError" "integer modulo by zero")) ∧
  (k = ENTER → r = Raise (Exception "IndexError" "list index out of range")).
Proof.
  intros Hw r. subst r.
  assert (initial_index [] default_key = 0) as Hi0.
  { unfold initial_index. destruct default_key as [d|]; [|done].
    rewrite (bool_decide_eq_false_2 (d ∈ [])) by apply not_elem_of_nil.
    by rewrite andb_false_r. }
  unfold select_with_arrows, bind at 1 2 3, print, show, modify, gets.
  cbn -[select_loop]. cbn [select_loop]. rewrite Hi0. unfold bind at 1.
  match goal with |- context [select_pass _ _ _ ?w0] => set (w1 := w0) end.
  destruct (select_pass_no_options prompt_text k rest w1 Hw) as [Ha He].
  unfold bind.
  destruct (select_pass prompt_text [] 0 w1) as [r w2]. cbn [fst] in *.
  split.
  - intros Hk. by rewrite (Ha Hk).
  - intros Hk. by rewrite (He Hk).
Qed.

Lemma step_index_arrows (n i : Z) :
  step_index n i DOWN = (i + 1) mod n ∧ step_index n i UP = (i - 1) mod n.
Proof. split; reflexivity. Qed.

Lemma step_index_downs (n i : Z) (m : nat) :
  1 <= n → 0 <= i <= n - 1 →
  foldl (step_index n) i (replicate m DOWN) = (i + Z.of_nat m) mod n.
Proof.
  intros Hn. revert i. induction m as [|m IH]; intros i Hi.
  - cbn. rewrite Z.add_0_r, Z.mod_small; lia.
  - cbn [replicate foldl]. rewrite IH.
    + rewrite (proj1 (step_index_arrows n i)), Zplus_mod_idemp_l.
      f_equal. lia.
    + apply step_index_range; [done|lia].
Qed.

Lemma step_index_ups (n i : Z) (m : nat) :
  1 <= n → 0 <= i <= n - 1 →
  foldl (step_index n) i (replicate m UP) = (i - Z.of_nat m) mod n.
Proof.
  intros Hn. revert i. induction m as [|m IH]; intros i Hi.
  - cbn. rewrite Z.sub_0_r, Z.mod_small; lia.
  - cbn [replicate foldl]. rewrite IH.
    + rewrite (proj2 (step_index_arrows n i)), Zminus_mod_idemp_l.
      f_equal. lia.
    + apply step_index_range; [done|lia].
Qed.

(** X15.  The highlight moves on a ring: as many Down presses, or as
    many Up presses, as there are options bring it back to where it was,
    and Up undoes Down; so Enter after a full round, or after Down and
    Up, returns what Enter alone would have returned, the option the
    selector started on. *)
Theorem selector_full_round {V} (options : list (string * V))
    (prompt_text : string) (default_key : option string) (x : string)
    (rest : list readkey) (w : world) :
  let n := length options in
  preselected (options.*1) default_key = Some x →
  (keys w = replicate n DOWN ++ ENTER :: rest ∨
   keys w = replicate n UP ++ ENTER :: rest ∨
   keys w = [DOWN; UP] ++ ENTER :: rest) →
  (select_with_arrows options prompt_text default_key w).1 = Ok x ∧
  keys (select_with_arrows options prompt_text default_key w).2 = rest.
Proof.
  intros n Hx Hkeys.
  set (i0 := initial_index (options.*1) default_key).
  assert (options.*1 !! Z.to_nat i0 = Some x) as Hi0.
  { unfold i0. by rewrite initial_index_lookup. }
  assert (1 <= len (options.*1)) as Hn.
  { apply lookup_lt_Some in Hi0. unfold len. lia. }
  pose proof (initial_index_range (options.*1) default_key Hn) as Hi.
  fold i0 in Hi.
  assert (len (options.*1) = Z.of_nat n) as Hlen.
  { unfold len, n. by rewrite length_fmap. }
  assert (∃ presses, Forall (λ k, navigates k = true) presses ∧
            keys w = presses ++ ENTER :: rest ∧
            foldl (step_index (len (options.*1))) i0 presses = i0)
    as (presses & Hnav & Hw & Hback).
  { destruct Hkeys as [Hw|[Hw|Hw]].
    - exists (replicate n DOWN). split_and!; [|done|].
      + by apply Forall_replicate.
      + rewrite step_index_downs by done. rewrite Hlen.
        rewrite <-(Z.mul_1_l (Z.of_nat n)) at 1.
        rewrite Z.mod_add, Z.mod_small by lia. done.
    - exists (replicate n UP). split_and!; [|done|].
      + by apply Forall_replicate.
      + rewrite step_index_ups by done. rewrite Hlen.
        replace (i0 - Z.of_nat n) with (i0 + (-1) * Z.of_nat n) by lia.
        rewrite Z.mod_add, Z.mod_small by lia. done.
    - exists [DOWN; UP]. split_and!; [by repeat constructor|done|].
      change [DOWN; UP] with (replicate 1 DOWN ++ replicate 1 UP).
      rewrite foldl_app, step_index_downs, step_index_ups; [|done|..|done|done].
      + rewrite Zminus_mod_idemp_l.
        replace (i0 + Z.of_nat 1 - Z.of_nat 1) with i0 by lia.
        apply Z.mod_small. lia.
      + pose proof (Z.mod_pos_bound (i0 + Z.of_nat 1) (len (options.*1))).
        lia. }
  rewrite (select_with_arrows_run _ _ _ presses (ENTER :: rest)) by done.
  cbn [select_loop]. fold i0. rewrite Hback.
  erewrite bind_ok;
    [|eapply (select_pass_confirms _ _ _ ENTER rest); [done|done|lia|exact Hi0]].
  done.
Qed.

(** The four theorems at the menu of script types: Down, a letter and
    Enter; Down and Escape; Down alone; and Up with no option. *)
Lemma selector_enter_returns_witness :
  (select_with_arrows SCRIPT_TYPE_CHOICES "Script" (Some "sh")
     (typed [DOWN; Char "x"; ENTER; UP])).1 = Ok "ps".
Proof.
  destruct (selector_enter_returns SCRIPT_TYPE_CHOICES "Script" (Some "sh")
              [DOWN; Char "x"] ENTER [UP] (typed [DOWN; Char "x"; ENTER; UP]))
    as (x & Hx & Hrun & _); [done|by repeat constructor|done|done|].
  rewrite Hrun. vm_compute in Hx. by injection Hx as <-.
Defined.

Lemma selector_cancel_exits_witness :
  exit_status
    (select_with_arrows SCRIPT_TYPE_CHOICES "Script" (Some "sh")
       (typed [DOWN; ESC; ENTER])).1 = Some 1.
Proof.
  apply (selector_cancel_exits SCRIPT_TYPE_CHOICES "Script" (Some "sh")
           [DOWN] ESC [ENTER] (typed [DOWN; ESC; ENTER]));
    [done|by repeat constructor|done|done].
Defined.

Lemma selector_waits_witness :
  (select_with_arrows SCRIPT_TYPE_CHOICES "Script" (Some "sh")
     (typed [DOWN])).1 = Blocked.
Proof.
  rewrite (selector_waits SCRIPT_TYPE_CHOICES "Script" (Some "sh")
             [DOWN] (typed [DOWN]));
    [done|done|by repeat constructor|done].
Defined.

Lemma selector_without_options_witness :
  (select_with_arrows (@nil (string * string)) "Script" None (typed [UP])).1
  = Raise (Exception "ZeroDivisionError" "integer modulo by zero").
Proof.
  destruct (selector_without_options (V:=string) "Script" None UP []
              (typed [UP]) eq_refl) as [H _].
  by apply H.
Defined.

Lemma selector_full_round_witness :
  (select_with_arrows SCRIPT_TYPE_CHOICES "Script" (Some "ps")
     (typed [DOWN; DOWN; ENTER])).1 = Ok "ps".
Proof.
  apply (selector_full_round SCRIPT_TYPE_CHOICES "Script" (Some "ps") "ps" []
           (typed [DOWN; DOWN; ENTER])); [done|by left].
Defined.

End SelectorKeysFacts.

(** ** The file system calls *)

Module FsFacts.
Import Py Tracker World Keeps Frame.

#[global] Instance touches_refl ps : Reflexive (touches ps).
Proof. intros f q _. by left. Qed.

#[global] Instance touches_trans ps : Transitive (touches ps).
Proof.
  intros f1 f2 f3 H12 H23 q Hq.
  destruct (H12 q Hq) as [H1|[H1 H1']], (H23 q Hq) as [H2|[H2 H2']].
  - left. congruence.
  - right. split; congruence.
  - right. split; congruence.
  - congruence.
Qed.

#[global] Instance touches_world_refl ps : Reflexive (touches_world ps).
Proof. intros w. unfold touches_world. reflexivity. Qed.

#[global] Instance touches_world_trans ps : Transitive (touches_world ps).
Proof. intros w1 w2 w3. unfold touches_world. apply transitivity. Qed.

#[global] Instance same_fs_refl : Reflexive same_fs.
Proof. by intros w. Qed.

#[global] Instance same_fs_trans : Transitive same_fs.
Proof. intros w1 w2 w3. unfold same_fs. congruence. Qed.

#[global] Instance made_above_refl d : Reflexive (made_above d).
Proof. intros f q. by left. Qed.

Lemma made_above_trans d1 d2 f1 f2 f3 :
  d1 `prefix_of` d2 → made_above d1 f1 f2 → made_above d2 f2 f3 →
  made_above d2 f1 f3.
Proof.
  intros Hd H12 H23 q.
  destruct (H12 q) as [H1|(H1 & H1' & Hq1)], (H23 q) as [H2|(H2 & H2' & Hq2)].
  - left. congruence.
  - right. split_and!; congruence.
  - right. split_and!; [congruence..|]. by etrans.
  - congruence.
Qed.

Lemma made_above_touches d ps f f' : made_above d f f' → touches ps f f'.
Proof. intros H q _. destruct (H q) as [?|(? & ? & _)]; auto. Qed.

Lemma touches_mono ps ps' f f' :
  ps ⊆ ps' → touches ps f f' → touches ps' f f'.
Proof. intros Hps H q Hq. apply H. set_solver. Qed.

Lemma os_fault_OSError e : os_fault e = true → is_OSError e = true.
Proof. by intros [? _]%andb_true_iff. Qed.

Lemma os_fault_Exception e : os_fault e = true → is_Exception e = true.
Proof. intros ?%os_fault_OSError. by destruct e. Qed.

Lemma os_fault_str e : os_fault e = true → exc_str e ≠ "".
Proof.
  intros [_ H]%andb_true_iff. by apply negb_true_iff, bool_decide_eq_false in H.
Qed.

Section Host.
Context (h : host).

Lemma creatable_os p f e : creatable h p f = Some e → os_fault e = true.
Proof.
  unfold creatable. destruct p; [by intros [= <-]|].
  destruct (f !! parent _) as [[[]|]|]; intros [= <-]; done.
Qed.

(** [os.mkdir] makes the one directory, where there was nothing, or
    raises an [OSError] and leaves the files alone. *)
Lemma os_mkdir_spec p f :
  match os_mkdir h p f with
  | (Ok _, f') => f !! p = None ∧ f' = <[p := Dir true]> f
  | (Raise e, f') => f' = f ∧ os_fault e = true
  | (Blocked, _) => False
  end.
Proof.
  unfold os_mkdir. destruct (f !! p) eqn:Hp; [done|].
  destruct (creatable h p f) as [e|] eqn:Hc; [|done].
  split; [done|]. by eapply creatable_os.
Qed.

Lemma os_mkdir_made p f r f' :
  os_mkdir h p f = (r, f') → made_above p f f'.
Proof.
  intros Hm. pose proof (os_mkdir_spec p f) as Hs. rewrite Hm in Hs.
  destruct r as [[]|e|]; [|by destruct Hs as [-> _]|done].
  destruct Hs as [Hp ->]. intros q. destruct (decide (q = p)) as [->|Hq].
  - right. by rewrite lookup_insert_eq.
  - left. by rewrite lookup_insert_ne.
Qed.

(** [mkdir(parents=True, exist_ok=True)] only makes directories, at the
    path or above it, and it returns or raises an [OSError]. *)
Lemma exist_ok_spec p e f r f' :
  os_fault e = true →
  bind (is_dir p) (λ d : bool, if d then ret tt else raise e) f = (r, f') →
  f' = f ∧ match r with
           | Ok _ => True
           | Raise e1 => os_fault e1 = true
           | Blocked => False
           end.
Proof.
  intros He. unfold bind, is_dir, gets, raise, ret.
  destruct (f !! p) as [[]|]; by intros [= <- <-].
Qed.

Lemma mkdir_rev_spec rp :
  ∀ f r f', mkdir_rev h rp f = (r, f') →
    made_above (reverse rp) f f' ∧
    match r with
    | Ok _ => True
    | Raise e => os_fault e = true
    | Blocked => False
    end.
Proof.
  induction rp as [|x rp IH]; intros f r f' Hrun;
    cbn [mkdir_rev] in Hrun; unfold try_except at 1 in Hrun.
  - pose proof (os_mkdir_spec (reverse []) f) as Hs.
    pose proof (os_mkdir_made (reverse []) f) as Hm.
    destruct (os_mkdir h (reverse []) f) as [[[]|e|] f1]; [| |done].
    + simplify_eq. split; [by eapply Hm|done].
    + destruct Hs as [-> He]. rewrite (os_fault_OSError _ He) in Hrun.
      destruct (is_FileNotFoundError e).
      * unfold raise in Hrun. simplify_eq. split; [reflexivity|done].
      * apply exist_ok_spec in Hrun as [-> Hr]; [|done].
        split; [reflexivity|done].
  - pose proof (os_mkdir_spec (reverse (x :: rp)) f) as Hs.
    pose proof (os_mkdir_made (reverse (x :: rp)) f) as Hm.
    destruct (os_mkdir h (reverse (x :: rp)) f) as [[[]|e|] f1]; [| |done].
    { simplify_eq. split; [by eapply Hm|done]. }
    destruct Hs as [-> He]. rewrite (os_fault_OSError _ He) in Hrun. clear Hm.
    destruct (is_FileNotFoundError e).
    2:{ apply exist_ok_spec in Hrun as [-> Hr]; [|done].
        split; [reflexivity|done]. }
    unfold bind at 1 in Hrun.
    assert (reverse rp `prefix_of` reverse (x :: rp)) as Hpre.
    { rewrite reverse_cons. by apply prefix_app_r. }
    destruct (mkdir_rev h rp f) as [[[]|e1|] f1] eqn:Hrec;
      apply IH in Hrec as [Hmade Hres]; [| |done].
    2:{ simplify_eq. split; [|done].
        eapply made_above_trans; [done..|reflexivity]. }
    unfold try_except in Hrun.
    pose proof (os_mkdir_spec (reverse (x :: rp)) f1) as Hs.
    pose proof (os_mkdir_made (reverse (x :: rp)) f1) as Hm.
    destruct (os_mkdir h (reverse (x :: rp)) f1) as [[[]|e2|] f2]; [| |done].
    + simplify_eq. split; [|done].
      eapply made_above_trans; [done..|]. by eapply Hm.
    + destruct Hs as [-> He2]. rewrite (os_fault_OSError _ He2) in Hrun.
      apply exist_ok_spec in Hrun as [-> Hr]; [|done].
      split; [|done]. eapply made_above_trans; [done..|reflexivity].
Qed.

Lemma mkdir_made p f : made_above p f (mkdir h p f).2.
Proof.
  unfold mkdir. destruct (mkdir_rev h (reverse p) f) as [r f'] eqn:Hrun.
  apply mkdir_rev_spec in Hrun as [H _].
  by rewrite reverse_involutive in H.
Qed.

Lemma mkdir_fails_os p : fails_os (mkdir h p).
Proof.
  intros f. unfold mkdir.
  destruct (mkdir_rev h (reverse p) f) as [r f'] eqn:Hrun.
  by apply mkdir_rev_spec in Hrun as [_ H].
Qed.

(** [open(p, 'w')] and [write]: the file gets the text, and keeps its
    mode if it was there; or an [OSError] is raised and the files are
    left alone. *)
Lemma write_text_spec p content f :
  match write_text h p content f with
  | (Ok _, f') =>
      f' = <[p := File (written_mode h false (f !! p)) content]> f
  | (Raise e, f') => f' = f ∧ os_fault e = true
  | (Blocked, _) => False
  end.
Proof.
  unfold write_text, written_mode. rewrite andb_false_l.
  destruct (f !! p) as [[|mode data]|] eqn:Hp; [done| |].
  - by destruct (Z.testbit mode 7).
  - destruct (creatable h p f) as [e|] eqn:Hc; [|done].
    split; [done|]. by eapply creatable_os.
Qed.

Lemma os_stat_spec p f :
  match os_stat h p f with
  | (Ok mode, f') =>
      f' = f ∧ ∀ mode' data, f !! p = Some (File mode' data) → mode = mode'
  | (Raise e, f') => f' = f ∧ f !! p = None ∧ os_fault e = true
  | (Blocked, _) => False
  end.
Proof.
  unfold os_stat. destruct (f !! p) as [[[]|]|]; try done.
  split; [done|]. by intros ?? [= <- _].
Qed.

Lemma os_chmod_spec p mode f :
  match os_chmod h p mode f with
  | (Ok _, f') =>
      ∀ mode' data, f !! p = Some (File mode' data) →
        f' = <[p := File mode data]> f
  | (Raise e, f') => f' = f ∧ f !! p = None ∧ os_fault e = true
  | (Blocked, _) => False
  end.
Proof.
  unfold os_chmod. destruct (f !! p) as [[|]|]; try done.
  by intros ?? [= _ <-].
Qed.

(** The calls of [create_file] on the files: directories are made above
    the file, and then the file holds the content, with its mode; or an
    [OSError] is raised, with nothing but such directories made. *)
Lemma fs_calls_spec p content make_executable f :
  match fs_calls h p content make_executable f with
  | (Ok _, f') =>
      ∃ f1, made_above (parent p) f f1 ∧
        f' = <[p := File (written_mode h make_executable (f !! p)) content]> f1
  | (Raise e, f') => os_fault e = true ∧ made_above (parent p) f f'
  | (Blocked, _) => False
  end.
Proof.
  unfold fs_calls. unfold bind at 1.
  pose proof (mkdir_made (parent p) f) as Hmade.
  pose proof (mkdir_fails_os (parent p) f) as Hos.
  destruct (mkdir h (parent p) f) as [[[]|e|] f1]; cbn [fst snd] in *;
    [|done..].
  unfold bind at 1. pose proof (write_text_spec p content f1) as Hwr.
  destruct (write_text h p content f1) as [[[]|e|] f2] eqn:Hw; [| |done].
  2:{ by destruct Hwr as [-> ?]. }
  assert (f1 !! p = f !! p) as Hp.
  { destruct (Hmade p) as [?|(_ & Hdir & _)]; [done|].
    unfold write_text in Hw. by rewrite Hdir in Hw. }
  rewrite Hp in Hwr. unfold written_mode in *. rewrite andb_false_l in Hwr.
  destruct (make_executable && _).
  - unfold bind.
    pose proof (os_stat_spec p f2) as Hst.
    assert (f2 !! p = Some (File
      match f !! p with Some (File mode _) => mode | _ => Z.ldiff 438 (umask h) end
      content)) as Hf2.
    { subst f2. by rewrite lookup_insert_eq. }
    destruct (os_stat h p f2) as [[mode|e|] f3]; [| |done].
    2:{ destruct Hst as (_ & Hnone & _). congruence. }
    destruct Hst as [-> Hmode]. rewrite <-(Hmode _ _ Hf2).
    pose proof (os_chmod_spec p (Z.lor mode 73) f2) as Hch.
    destruct (os_chmod h p (Z.lor mode 73) f2) as [[[]|e|] f4]; [| |done].
    2:{ destruct Hch as (_ & Hnone & _). congruence. }
    exists f1. split; [done|]. rewrite (Hch _ _ Hf2). subst f2.
    by rewrite insert_insert_eq.
  - exists f1. by split.
Qed.

End Host.

Lemma on_fs_bind {T A B : Type} (m : M files A)
    (k : A → M (T * world) B) (t : T) (w : world) :
  bind (on_snd (on_fs m)) k (t, w) =
  match m (fs w) with
  | (Ok a, f') => k a (t, set_fs f' w)
  | (Raise e, f') => (Raise e, (t, set_fs f' w))
  | (Blocked, f') => (Blocked, (t, set_fs f' w))
  end.
Proof. unfold bind, on_snd, on_fs. by destruct (m (fs w)) as [[]]. Qed.

End FsFacts.

(** ** [create_file] *)

Module CreateFileFacts.
Import Py Tracker World Selector Cli Keeps TrackerFacts TrackerKeeps.
Import Steps StepsFacts Frame FsFacts Scenarios Examples.

Section WithEnv.
Context {E : Type}.
Implicit Types (t : StepTracker E) (e : E).

(** A call of [_update] raises no fault. *)
Lemma update_no_fault k st d t e :
  ∃ r e', _update k st d (t, e)
          = (r, (set_steps (updated k st d (steps t)) t, e')) ∧
          ∀ x, r = Raise x → is_Exception x = false.
Proof.
  rewrite update_eq.
  destruct (maybe_refresh_safe (set_steps (updated k st d (steps t)) t) e)
    as (r & e' & Hrun & Hr & _).
  by exists r, e'.
Qed.

(** On a quiet tracker it returns. *)
Lemma update_quiet k st d t e :
  quiet t →
  ∃ e', _update k st d (t, e)
        = (Ok tt, (set_steps (updated k st d (steps t)) t, e')).
Proof.
  intros Hq. rewrite update_eq.
  destruct (_refresh_cb t) as [cb|] eqn:Hcb.
  - apply (maybe_refresh_swallows _ _ cb); [done|]. by apply Hq.
  - exists e. rewrite maybe_refresh_eq. cbn [_refresh_cb set_steps].
    by rewrite Hcb.
Qed.
End WithEnv.

Section Host.
Context (h : host).

(** [create_file], call by call: the step is started, the calls on the
    files are made, and the step is completed, or, when one of them has
    raised, put in error before the exception is raised again. *)
Lemma create_file_eq p content step_key make_executable
    (t : StepTracker world) (w : world) :
  create_file h p content step_key make_executable (t, w) =
  match start step_key "" (t, w) with
  | (Ok _, (t1, w1)) =>
      match fs_calls h p (PyStr.replace_s CRLF LF content) make_executable
              (fs w1) with
      | (Ok _, f') =>
          complete step_key (done_detail h make_executable) (t1, set_fs f' w1)
      | (Raise e, f') =>
          bind (error step_key (exc_str e)) (λ _, raise e) (t1, set_fs f' w1)
      | (Blocked, f') => (Blocked, (t1, set_fs f' w1))
      end
  | (Raise x, s) => (Raise x, s)
  | (Blocked, s) => (Blocked, s)
  end.
Proof.
  unfold create_file, try_except. unfold bind at 1.
  destruct (update_no_fault step_key Running "" t w) as (r0 & w1 & Hst & Hr0).
  unfold start. rewrite Hst.
  set (t1 := set_steps _ t). clearbody t1.
  destruct r0 as [[]|x|]; [|by rewrite (Hr0 x)|done].
  assert (∀ d w2,
    (let (r, s') := complete step_key d (t1, w2) in
     match r with
     | Ok a => (Ok a, s')
     | Raise e => if is_Exception e
                  then bind (error step_key (exc_str e)) (λ _, raise e) s'
                  else (Raise e, s')
     | Blocked => (Blocked, s')
     end) = complete step_key d (t1, w2)) as Hdone.
  { intros d w2. unfold complete.
    destruct (update_no_fault step_key Done d t1 w2) as (r & w3 & -> & Hr).
    destruct r as [[]|x|]; [done| |done]. by rewrite (Hr x). }
  unfold fs_calls, done_detail.
  rewrite on_fs_bind.
  pose proof (mkdir_fails_os h (parent p) (fs w1)) as Hmk.
  destruct (mkdir h (parent p) (fs w1)) as [[[]|e|] f1] eqn:Hmkdir;
    cbn [fst] in Hmk; [| |done].
  2:{ rewrite (bind_raise (mkdir h (parent p)) _ _ _ _ Hmkdir).
      by rewrite (os_fault_Exception e). }
  rewrite (bind_ok (mkdir h (parent p)) _ _ _ _ Hmkdir).
  rewrite on_fs_bind. cbn [fs set_fs].
  pose proof (write_text_spec h p (PyStr.replace_s CRLF LF content) f1) as Hwr.
  destruct (write_text h p _ f1) as [[[]|e|] f2] eqn:Hwrite; [| |done].
  2:{ rewrite (bind_raise (write_text h p _) _ _ _ _ Hwrite).
      destruct Hwr as [_ He]. by rewrite (os_fault_Exception e). }
  rewrite (bind_ok (write_text h p _) _ _ _ _ Hwrite).
  clear Hwr. destruct (make_executable && _); [|by rewrite Hdone].
  rewrite on_fs_bind. cbn [fs set_fs].
  pose proof (os_stat_spec h p f2) as Hs.
  destruct (os_stat h p f2) as [[mode|e|] f3] eqn:Hstat; [| |done].
  2:{ rewrite (bind_raise (os_stat h p) _ _ _ _ Hstat).
      destruct Hs as (_ & _ & He). by rewrite (os_fault_Exception e). }
  rewrite (bind_ok (os_stat h p) _ _ _ _ Hstat).
  rewrite on_fs_bind. cbn [fs set_fs].
  pose proof (os_chmod_spec h p (Z.lor mode 73) f3) as Hc.
  destruct (os_chmod h p _ f3) as [[[]|e|] f4]; [| |done].
  2:{ destruct Hc as (_ & _ & He). by rewrite (os_fault_Exception e). }
  by rewrite Hdone.
Qed.

Lemma find_step_updated k st d l :
  ∃ i s, find_step k (updated k st d l) = Some (i, s) ∧
         key s = k ∧ status_of s = st ∧ (d ≠ "" → detail s = d).
Proof.
  destruct (find_step k l) as [[i s]|] eqn:Hf.
  - rewrite (updated_find _ _ _ _ _ _ Hf). exists i, (touched st d s).
    apply list_find_Some in Hf as (Hi & Hk & Hleast).
    assert (i < length l)%nat by by eapply lookup_lt_Some.
    split_and!; [|done|done|].
    + apply list_find_Some. split_and!; [|done|].
      * by apply list_lookup_insert_eq.
      * intros j y Hj Hlt. rewrite list_lookup_insert_ne in Hj by lia.
        by eapply Hleast.
    + intros Hd. cbn. by rewrite bool_decide_eq_false_2.
  - pose proof Hf as Hk%find_step_None. rewrite updated_absent by done.
    exists (length l), (Step k k st d). split_and!; [|done..].
    unfold find_step in *. rewrite list_find_app_r by done.
    cbn. by rewrite decide_True.
Qed.

Lemma shows_updated k st d l :
  d ≠ "" → shows_step k st d (updated k st d l).
Proof.
  intros Hd. destruct (find_step_updated k st d l) as (i & s & ? & _ & ? & ?).
  exists i, s. auto.
Qed.

(** A call for another key leaves what a key shows. *)
Lemma shows_other k st d k' st' d' l :
  k ≠ k' → shows_step k st d l → shows_step k st d (updated k' st' d' l).
Proof.
  intros Hne (i & s & Hf & Hst & Hd). exists i, s. split; [|done].
  apply list_find_Some in Hf as (Hi & Hk & Hleast).
  destruct (find_step k' l) as [[j s']|] eqn:Hf'.
  - rewrite (updated_find _ _ _ _ _ _ Hf').
    apply list_find_Some in Hf' as (Hj & Hk' & _).
    assert (i ≠ j) by (intros ->; congruence).
    apply list_find_Some. split_and!; [|done|].
    + by rewrite list_lookup_insert_ne.
    + intros j' y Hy Hlt. destruct (decide (j = j')) as [->|Hjj].
      * rewrite list_lookup_insert_eq in Hy by by eapply lookup_lt_Some.
        injection Hy as <-. cbn. congruence.
      * rewrite list_lookup_insert_ne in Hy by done. by eapply Hleast.
  - apply find_step_None in Hf'. rewrite updated_absent by done.
    apply list_find_app_l, list_find_Some. done.
Qed.

Lemma done_detail_not_empty mx : done_detail h mx ≠ "".
Proof. unfold done_detail. by destruct (mx && _). Qed.

(** What [create_file] does to the files, on a tracker whose callback
    leaves the files alone. *)
Lemma create_file_files p content step_key make_executable
    (t : StepTracker world) (w : world) :
  cb_keeps same_fs t →
  ∃ r t' w' f1,
    create_file h p content step_key make_executable (t, w) = (r, (t', w')) ∧
    made_above (parent p) (fs w) f1 ∧
    let written :=
      <[p := File (written_mode h make_executable (fs w !! p))
                  (PyStr.replace_s CRLF LF content)]> f1 in
    (fs w' = f1 ∨ fs w' = written) ∧
    (r = Ok tt → fs w' = written) ∧
    (∀ e, r = Raise e → is_Exception e = true → fs w' = f1).
Proof.
  intros Hcb. rewrite create_file_eq. unfold start, complete, error.
  pose proof (keeps_update same_fs step_key Running "" (t, w)) as Hk1.
  destruct (update_no_fault step_key Running "" t w) as (r0 & w1 & Hst & Hr0).
  rewrite Hst in Hk1 |- *. destruct (Hk1 Hcb) as [Hw1 Hcb1].
  cbn [fst snd] in Hw1, Hcb1. unfold same_fs in Hw1.
  set (t1 := set_steps _ t) in *. clearbody t1.
  destruct r0 as [[]|x|].
  2:{ exists (Raise x), t1, w1, (fs w). split_and!; [done|reflexivity|..].
      - by left.
      - done.
      - intros e [= <-] He. by rewrite (Hr0 x) in He. }
  2:{ exists Blocked, t1, w1, (fs w). split_and!; [done|reflexivity|..]; try done.
      by left. }
  pose proof (fs_calls_spec h p (PyStr.replace_s CRLF LF content)
                make_executable (fs w1)) as Hfs.
  rewrite Hw1 in Hfs |- *.
  destruct (fs_calls h p _ make_executable (fs w)) as [[[]|e|] f2]; [| |done].
  - destruct Hfs as (f1 & Hmade & ->).
    set (written := <[p := _]> f1).
    pose proof (keeps_update same_fs step_key Done
                  (done_detail h make_executable) (t1, set_fs written w1))
      as Hk2.
    destruct (update_no_fault step_key Done (done_detail h make_executable)
                t1 (set_fs written w1)) as (r2 & w2 & Hdone & Hr2).
    rewrite Hdone in Hk2 |- *. destruct (Hk2 Hcb1) as [Hw2 _].
    cbn [fst snd fs set_fs] in Hw2. unfold same_fs in Hw2.
    eexists r2, _, w2, f1. split_and!; [done|done|by right|done|].
    intros e -> He. by rewrite (Hr2 e) in He.
  - destruct Hfs as [He Hmade].
    pose proof (keeps_update same_fs step_key Error (exc_str e)
                  (t1, set_fs f2 w1)) as Hk2.
    destruct (update_no_fault step_key Error (exc_str e) t1 (set_fs f2 w1))
      as (r2 & w2 & Herr & Hr2).
    rewrite Herr in Hk2. destruct (Hk2 Hcb1) as [Hw2 _].
    cbn [fst snd fs set_fs] in Hw2. unfold same_fs in Hw2.
    unfold bind. rewrite Herr.
    destruct r2 as [[]|x|]; eexists _, _, w2, f2;
      (split_and!; [done|done|by left|done|done]).
Qed.



End Host.

(** X18.  Where it is not Windows, [create_file] asked to make the file
    executable returns with the three execute bits of the mode set and
    every other bit as it was, or as in [0o666 & ~umask] for a new file;
    on Windows the mode is not changed. *)
Theorem create_file_execute_bits (h : host) (p : path)
    (content step_key : string) (t t' : StepTracker world) (w w' : world) :
  cb_keeps same_fs t →
  create_file h p content step_key true (t, w) = (Ok tt, (t', w')) →
  let before := written_mode h false (fs w !! p) in
  ∃ mode data,
    fs w' !! p = Some (File mode data) ∧
    (os_name h = "nt" → mode = before) ∧
    (os_name h ≠ "nt" →
     ∀ b, 0 <= b →
       Z.testbit mode b =
       if bool_decide (b ∈ [0; 3; 6]) then true else Z.testbit before b).
Proof.
  intros Hcb Hrun before.
  destruct (create_file_files h p content step_key true t w Hcb)
    as (r & t1 & w1 & f1 & Hrun' & _ & _ & Hok & _).
  rewrite Hrun in Hrun'. injection Hrun' as <- <- <-.
  rewrite (Hok eq_refl), lookup_insert_eq. eexists _, _. split; [done|].
  subst before. unfold written_mode. cbn [andb].
  split.
  - intros Hnt. by rewrite bool_decide_eq_true_2.
  - intros Hnt b Hb. rewrite bool_decide_eq_false_2 by done. cbn [negb].
    rewrite Z.lor_spec.
    case_bool_decide as Hin.
    + set_unfold. destruct Hin as [->|[->|[->|[]]]]; by rewrite orb_true_r.
    + replace (Z.testbit 73 b) with false; [by rewrite orb_false_r|].
      symmetry. set_unfold.
      destruct (decide (b < 7)) as [Hlt|Hge].
      * assert (b = 1 ∨ b = 2 ∨ b = 4 ∨ b = 5) as [->|[->|[->| ->]]] by lia;
          done.
      * apply (Z.bits_above_log2 73 b); [lia|].
        change (Z.log2 73) with 6. lia.
Qed.



Lemma create_file_execute_bits_witness :
  let s := (create_file linux_pipe ["out"; "a.sh"] "x" "file" true
              (new "T", typed [])).2 in
  ∃ mode data,
    fs s.2 !! ["out"; "a.sh"] = Some (File mode data) ∧
    Z.testbit mode 6 = true.
Proof.
  intros s.
  destruct (create_file_execute_bits linux_pipe ["out"; "a.sh"] "x" "file"
              (new "T") s.1 (typed []) s.2)
    as (mode & data & Hp & _ & Hbits).
  { by intros cb. }
  { reflexivity. }
  exists mode, data. split; [exact Hp|]. by rewrite Hbits.
Defined.

End CreateFileFacts.

(** ** [init]: what it leaves of the files *)

Module InitFrame.
Import Py Tracker World Selector Cli Keeps TrackerFacts TrackerKeeps.
Import WorldFacts CliFacts Frame FsFacts Outcome.

Lemma keeps_weaken {S A} (R R' : S → S → Prop) (m : M S A) :
  (∀ s s', R s s' → R' s s') → keeps R m → keeps R' m.
Proof. intros HR Hm s. apply HR, Hm. Qed.

(** [keeps_bind] for a continuation that is only run on what the first
    part returns. *)
Lemma keeps_bind_ok {S A B} (R : S → S → Prop) `{!Transitive R}
    (m : M S A) (k : A → M S B) :
  keeps R m → (∀ a s s', m s = (Ok a, s') → keeps R (k a)) →
  keeps R (bind m k).
Proof.
  intros Hm Hk s. unfold bind. specialize (Hm s).
  destruct (m s) as [[a|e|] s'] eqn:Hrun; cbn [snd] in *; [|done..].
  etrans; [done|]. by eapply Hk.
Qed.

Lemma py_lookup_in {S V} (d : list (string * V)) (k : string) (s s' : S) v :
  py_lookup d k s = (Ok v, s') → (k, v) ∈ d.
Proof.
  unfold py_lookup. destruct (list_find _ d) as [[i [k' v']]|] eqn:Hf; [|done].
  intros [= <- _]. apply list_find_Some in Hf as (Hi & Hk & _).
  cbn in Hk. subst k'. by eapply list_elem_of_lookup_2.
Qed.

Lemma script_targets :
  joinpath script_dir "git-relatorio.sh" ∈ init_targets ∧
  joinpath script_dir "git-relatorio.ps1" ∈ init_targets.
Proof. unfold init_targets. set_solver. Qed.

Lemma prompt_target (a : string) (cfg : agent) :
  (a, cfg) ∈ AGENT_CONFIG →
  joinpath (joinpath [] (prompt_dir cfg)) "code_review.prompt.md" ∈ init_targets.
Proof.
  intros Hin. unfold init_targets. apply elem_of_app. right.
  apply list_elem_of_fmap. by exists (a, cfg).
Qed.

(** A relation on worlds that showing, making directories and reading a
    mode keep, and writing and changing the mode of a target keep, is
    kept by everything [init] does once the two choices are made. *)
Section Proceed.
Context (h : host).
Context (SCRIPT_CONTENT_SH SCRIPT_CONTENT_PS PROMPT_CONTENT : string).
Context (R : world → world → Prop) `{!Reflexive R, !Transitive R}.
Context (Hshow : ∀ o, keeps R (show o)).
Context (Hmkdir : ∀ p, keeps R (on_fs (mkdir h p))).
Context (Hstat : ∀ p, keeps R (on_fs (os_stat h p))).
Context (Hwrite : ∀ p content, p ∈ init_targets →
                    keeps R (on_fs (write_text h p content))).
Context (Hchmod : ∀ p mode, p ∈ init_targets →
                    keeps R (on_fs (os_chmod h p mode))).

Lemma keeps_create_file_at p content step_key make_executable :
  p ∈ init_targets →
  keeps (lifted R) (create_file h p content step_key make_executable).
Proof.
  intros Hp. unfold create_file, start, complete, error.
  apply keeps_try_except.
  - apply keeps_bind; [apply keeps_update; apply _|]. intros _.
    apply keeps_bind; [apply keeps_on_snd, Hmkdir|]. intros _.
    apply keeps_bind; [by apply keeps_on_snd, Hwrite|]. intros _.
    apply keeps_if; [|apply keeps_update; apply _].
    apply keeps_bind; [apply keeps_on_snd, Hstat|]. intros st_mode.
    apply keeps_bind; [by apply keeps_on_snd, Hchmod|]. intros _.
    apply keeps_update; apply _.
  - intros e. apply keeps_bind; [apply keeps_update; apply _|]. intros _.
    apply keeps_raise.
Qed.

Lemma keeps_with_live_at selected_ai selected_script :
  keeps (lifted R)
    (with_live h SCRIPT_CONTENT_SH SCRIPT_CONTENT_PS PROMPT_CONTENT
       selected_ai selected_script).
Proof.
  unfold with_live, start, complete, error.
  apply keeps_bind; [apply keeps_attach_refresh; [apply _..|]|].
  { intros ??. apply Hshow. }
  intros _. apply keeps_bind_ok; [apply _|apply keeps_py_lookup, _|].
  intros cfg s s' Hcfg%py_lookup_in.
  apply keeps_bind; [apply keeps_update; apply _|]. intros _.
  apply keeps_bind.
  - apply keeps_try_except.
    + apply keeps_bind; [apply keeps_on_snd, Hmkdir|]. intros _.
      apply keeps_bind; [apply keeps_on_snd, Hmkdir|]. intros _.
      apply keeps_bind; [apply keeps_update; apply _|]. intros _. apply keeps_ret.
    + intros e. apply keeps_bind; [apply keeps_update; apply _|]. intros _.
      apply keeps_ret.
  - intros made. apply keeps_if; [apply keeps_ret|].
    apply keeps_bind.
    + apply keeps_if;
        (apply keeps_bind; [apply keeps_create_file_at, script_targets|];
         intros _; apply keeps_ret).
    + intros script_path.
      apply keeps_bind; [by eapply keeps_create_file_at, prompt_target|].
      intros _. apply keeps_ret.
Qed.

Lemma keeps_tracked_at selected_ai selected_script :
  keeps R (tracked h SCRIPT_CONTENT_SH SCRIPT_CONTENT_PS PROMPT_CONTENT
             selected_ai selected_script).
Proof.
  intros w. unfold tracked.
  match goal with |- context [?m (new ?ti, w)] =>
    assert (keeps (lifted R) m) as Hm; [|specialize (Hm (new ti, w))];
    [|destruct (m (new ti, w)) as [[r|e|] [t' w']]]
  end.
  - apply keeps_bind; [apply keeps_add; apply _|]. intros _.
    apply keeps_bind; [apply keeps_add; apply _|]. intros _.
    apply keeps_bind; [apply keeps_add; apply _|]. intros _.
    apply keeps_bind; [apply keeps_gets|]. intros t.
    apply keeps_bind; [apply keeps_on_snd, Hshow|]. intros _.
    apply keeps_with_live_at.
  - by apply Hm.
  - by apply Hm.
  - by apply Hm.
Qed.

Lemma keeps_proceed_at selected_ai selected_script :
  keeps R (proceed h SCRIPT_CONTENT_SH SCRIPT_CONTENT_PS PROMPT_CONTENT
             selected_ai selected_script).
Proof.
  unfold proceed, print, summary, print.
  apply keeps_bind; [apply keeps_py_lookup, _|]. intros cfg.
  apply keeps_bind; [apply Hshow|]. intros _.
  apply keeps_bind; [apply Hshow|]. intros _.
  apply keeps_bind; [apply keeps_tracked_at|].
  intros [[[script_path prompt_path]|] t]; [|apply keeps_ret].
  apply keeps_bind; [|intros _; apply keeps_ret].
  apply keeps_bind; [apply Hshow|]. intros _. apply Hshow.
Qed.
End Proceed.


(** The calls on the files, for the relation [touches]. *)
Section Touches.
Context (h : host) (ps : list path).
Local Abbreviation T := (touches_world ps).

Lemma touches_show (o : out) : keeps T (show o).
Proof. intros w. unfold show, modify, touches_world. reflexivity. Qed.

Lemma touches_mkdir p : keeps T (on_fs (mkdir h p)).
Proof.
  intros w. unfold on_fs, touches_world.
  pose proof (mkdir_made h p (fs w)) as Hm.
  destruct (mkdir h p (fs w)) as [r f']. by eapply made_above_touches.
Qed.

Lemma touches_stat p : keeps T (on_fs (os_stat h p)).
Proof.
  intros w. unfold on_fs, touches_world.
  pose proof (os_stat_spec h p (fs w)) as Hs.
  destruct (os_stat h p (fs w)) as [[mode|e|] f']; [| |done].
  - destruct Hs as [-> _]. reflexivity.
  - destruct Hs as [-> _]. reflexivity.
Qed.

Lemma touches_write p content : p ∈ ps → keeps T (on_fs (write_text h p content)).
Proof.
  intros Hp w. unfold on_fs, touches_world.
  pose proof (write_text_spec h p content (fs w)) as Hs.
  destruct (write_text h p content (fs w)) as [[[]|e|] f']; [| |done].
  - subst f'. intros q Hq. left. cbn. rewrite lookup_insert_ne; [done|].
    by intros ->.
  - destruct Hs as [-> _]. reflexivity.
Qed.

Lemma touches_chmod p mode : p ∈ ps → keeps T (on_fs (os_chmod h p mode)).
Proof.
  intros Hp w. unfold on_fs, touches_world, os_chmod.
  destruct (fs w !! p) as [[|]|]; cbn; try reflexivity;
    intros q Hq; left; (rewrite lookup_insert_ne; [done|]); by intros ->.
Qed.
End Touches.

(** X19.  Whatever the flags, the host and the keys pressed, and
    however it ends, [init] leaves every entry of the working directory
    as it was, except the files it generates (the two scripts and the
    prompt of each assistant): elsewhere all it does is to make
    directories where there was nothing. *)
Theorem init_frame (h : host)
    (SCRIPT_CONTENT_SH SCRIPT_CONTENT_PS PROMPT_CONTENT : string)
    (ai script_type : option string) (here : bool) (ks : list readkey)
    (f : files) :
  touches init_targets f
    (fs (run h SCRIPT_CONTENT_SH SCRIPT_CONTENT_PS PROMPT_CONTENT
           ai script_type here ks f).2).
Proof.
  assert (∀ w w', grows (λ _, True) true w w' →
                  touches_world init_targets w w') as Hfrozen.
  { intros w w' [_ Hfs]. unfold touches_world. rewrite Hfs by done.
    reflexivity. }
  assert (keeps (touches_world init_targets)
            (init h SCRIPT_CONTENT_SH SCRIPT_CONTENT_PS PROMPT_CONTENT
               ai script_type here)) as Hinit.
  { unfold init.
    apply keeps_bind; [apply touches_show|]. intros _.
    apply keeps_bind.
    { eapply keeps_weaken; [exact Hfrozen|]. by apply keeps_resolve_ai. }
    intros selected_ai. apply keeps_bind.
    { eapply keeps_weaken; [exact Hfrozen|]. by apply keeps_resolve_script. }
    intros selected_script.
    apply keeps_proceed_at; try apply _.
    - apply touches_show.
    - apply touches_mkdir.
    - apply touches_stat.
    - apply touches_write.
    - apply touches_chmod. }
  apply (Hinit {| keys := ks; fs := f; console := [] |}).
Qed.

End InitFrame.

(** ** [init]: how it ends *)

Module InitOutcome.
Import Py Tracker World Selector Cli Keeps TrackerFacts TrackerKeeps.
Import WorldFacts CliFacts Frame FsFacts CreateFileFacts InitFrame Outcome.
Import Scenarios Examples.

Section Ends.
Context {S : Type} (I : S → Prop).

Lemma ends_ret {A} Q B (a : A) : ends I Q B (ret a).
Proof. by intros s Hs. Qed.

Lemma ends_raise {A} (Q : exc → Prop) B e : Q e → ends I Q B (raise (A:=A) e).
Proof. by intros He s Hs. Qed.

Lemma ends_bind {A B0} Q B (m : M S A) (k : A → M S B0) :
  ends I Q B m → (∀ a s s', m s = (Ok a, s') → ends I Q B (k a)) →
  ends I Q B (bind m k).
Proof.
  intros Hm Hk s Hs. unfold bind. specialize (Hm s Hs).
  destruct (m s) as [[a|e|] s'] eqn:Hrun; [|done..].
  by eapply Hk.
Qed.

Lemma ends_try_except {A} (Q0 Q : exc → Prop) B (body : M S A) cls handler :
  ends I Q0 B body →
  (∀ e, Q0 e → cls e = true → ends I Q B (handler e)) →
  (∀ e, Q0 e → cls e = false → Q e) →
  ends I Q B (try_except body cls handler).
Proof.
  intros Hbody Hh Hpass s Hs. unfold try_except. specialize (Hbody s Hs).
  destruct (body s) as [[a|e|] s']; [done| |done].
  destruct Hbody as [He Hs']. destruct (cls e) eqn:Hcls.
  - by apply Hh.
  - split; [by apply Hpass|done].
Qed.

Lemma ends_if {A} Q B (b : bool) (m1 m2 : M S A) :
  ends I Q B m1 → ends I Q B m2 → ends I Q B (if b then m1 else m2).
Proof. by destruct b. Qed.

Lemma ends_weaken {A} (Q Q' : exc → Prop) (B B' : Prop) (m : M S A) :
  (∀ e, Q e → Q' e) → (B → B') → ends I Q B m → ends I Q' B' m.
Proof.
  intros HQ HB Hm s Hs. specialize (Hm s Hs).
  destruct (m s) as [[a|e|] s']; [done|naive_solver|auto].
Qed.
End Ends.

(** *** On the tracker *)

Lemma quiet_live (t : StepTracker world) : quiet (with_cb live_update t).
Proof. intros cb [= <-] title0 steps0 w. done. Qed.

Lemma ends_update Q B k st d :
  ends quiet_state Q B (_update (E:=world) k st d).
Proof.
  intros [t w] Hq. destruct (update_quiet k st d t w Hq) as [w' ->]. done.
Qed.

Lemma ends_add Q B k lbl : ends quiet_state Q B (add (E:=world) k lbl).
Proof.
  intros [t w] Hq. rewrite add_eq. case_bool_decide; [done|].
  assert (∀ w', quiet_state
    (set_steps (steps t ++ [Step k lbl Pending ""]) t, w')) as Hq'.
  { intros w'. exact Hq. }
  rewrite maybe_refresh_eq. cbn [_refresh_cb set_steps title steps].
  destruct (_refresh_cb t) as [cb|] eqn:Hcb; [|done].
  pose proof (Hq cb Hcb (title t) (steps t ++ [Step k lbl Pending ""]) w)
    as Hrun.
  destruct (cb _ _ w) as [[[]|x|] w']; cbn [fst] in Hrun; [done| |done].
  by rewrite Hrun.
Qed.

Lemma ends_on_world {A} Q B (m : M world A) :
  ends (λ _, True) Q B m →
  ends quiet_state Q B (on_snd (S1:=StepTracker world) m).
Proof.
  intros Hm [t w] Hq. unfold on_snd. specialize (Hm w I).
  destruct (m w) as [[a|e|] w']; [done| |done].
  by destruct Hm.
Qed.

Lemma ends_on_fs {A : Type} (B : Prop) (m : M files A) :
  fails_os m → ends (λ _, True) (λ e, os_fault e = true) B (on_fs m).
Proof.
  intros Hm w _. unfold on_fs. specialize (Hm (fs w)).
  by destruct (m (fs w)) as [[a|e|] f'].
Qed.

Lemma ends_show Q B o : ends (λ _, True) Q B (show o).
Proof. by intros w _. Qed.

Section Host.
Context (h : host).
Context (SCRIPT_CONTENT_SH SCRIPT_CONTENT_PS PROMPT_CONTENT : string).

Lemma write_text_fails_os p content : fails_os (write_text h p content).
Proof.
  intros f. pose proof (write_text_spec h p content f) as Hs.
  destruct (write_text h p content f) as [[[]|e|] f']; [done| |done].
  by destruct Hs.
Qed.

Lemma os_stat_fails_os p : fails_os (os_stat h p).
Proof.
  intros f. pose proof (os_stat_spec h p f) as Hs.
  destruct (os_stat h p f) as [[mode|e|] f']; [done| |done].
  by destruct Hs as (_ & _ & ?).
Qed.

Lemma os_chmod_fails_os p mode : fails_os (os_chmod h p mode).
Proof.
  intros f. unfold os_chmod. by destruct (f !! p) as [[|]|].
Qed.

Local Abbreviation OS := (λ e : exc, os_fault e = true).

Lemma ends_create_file p content step_key make_executable :
  ends quiet_state OS False
    (create_file h p content step_key make_executable).
Proof.
  unfold create_file, start, complete, error.
  apply (ends_try_except _ OS).
  - apply ends_bind; [apply ends_update|]. intros _ _ _ _.
    apply ends_bind; [apply ends_on_world, ends_on_fs, mkdir_fails_os|].
    intros _ _ _ _.
    apply ends_bind; [apply ends_on_world, ends_on_fs, write_text_fails_os|].
    intros _ _ _ _.
    apply ends_if; [|apply ends_update].
    apply ends_bind; [apply ends_on_world, ends_on_fs, os_stat_fails_os|].
    intros st_mode _ _ _.
    apply ends_bind; [apply ends_on_world, ends_on_fs, os_chmod_fails_os|].
    intros _ _ _ _. apply ends_update.
  - intros e He _. apply ends_bind; [apply ends_update|]. intros _ _ _ _.
    by apply ends_raise.
  - intros e He%os_fault_Exception. congruence.
Qed.

Lemma ends_with_live selected_ai selected_script :
  selected_ai ∈ AGENT_CONFIG.*1 →
  ends quiet_state OS False
    (with_live h SCRIPT_CONTENT_SH SCRIPT_CONTENT_PS PROMPT_CONTENT
       selected_ai selected_script).
Proof.
  intros ((a & cfg) & -> & Hin)%list_elem_of_fmap. cbn [fst].
  unfold with_live, start, complete, error.
  apply ends_bind.
  { intros [t w] _. apply quiet_live. }
  intros _ _ _ _. apply ends_bind.
  { intros s Hs. by rewrite (py_lookup_agent a cfg). }
  intros cfg' _ _ _.
  apply ends_bind; [apply ends_update|]. intros _ _ _ _.
  apply ends_bind.
  - apply (ends_try_except _ OS).
    + apply ends_bind; [apply ends_on_world, ends_on_fs, mkdir_fails_os|].
      intros _ _ _ _.
      apply ends_bind; [apply ends_on_world, ends_on_fs, mkdir_fails_os|].
      intros _ _ _ _.
      apply ends_bind; [apply ends_update|]. intros _ _ _ _. apply ends_ret.
    + intros e _ _. apply ends_bind; [apply ends_update|]. intros _ _ _ _.
      apply ends_ret.
    + intros e He%os_fault_Exception. congruence.
  - intros made _ _ _. apply ends_if; [apply ends_ret|].
    apply ends_bind.
    + apply ends_if;
        (apply ends_bind; [apply ends_create_file|]; intros _ _ _ _;
         apply ends_ret).
    + intros script_path _ _ _.
      apply ends_bind; [apply ends_create_file|]. intros _ _ _ _.
      apply ends_ret.
Qed.

Lemma ends_tracked selected_ai selected_script :
  selected_ai ∈ AGENT_CONFIG.*1 →
  ends (λ _, True) OS False
    (tracked h SCRIPT_CONTENT_SH SCRIPT_CONTENT_PS PROMPT_CONTENT
       selected_ai selected_script).
Proof.
  intros Ha w _. unfold tracked.
  match goal with |- context [?m (new ?ti, w)] =>
    assert (ends quiet_state OS False m) as Hm
  end.
  { apply ends_bind; [apply ends_add|]. intros _ _ _ _.
    apply ends_bind; [apply ends_add|]. intros _ _ _ _.
    apply ends_bind; [apply ends_add|]. intros _ _ _ _.
    apply ends_bind; [by intros s Hs|]. intros t _ _ _.
    apply ends_bind; [apply ends_on_world, ends_show|]. intros _ _ _ _.
    by apply ends_with_live. }
  match goal with |- context [?m (new ?ti, w)] =>
    specialize (Hm (new ti, w)); destruct (m (new ti, w)) as [[r|e|] [t' w']]
  end.
  - done.
  - by destruct Hm.
  - by apply Hm.
Qed.

Lemma ends_proceed selected_ai selected_script :
  selected_ai ∈ AGENT_CONFIG.*1 →
  ends (λ _, True) OS False
    (proceed h SCRIPT_CONTENT_SH SCRIPT_CONTENT_PS PROMPT_CONTENT
       selected_ai selected_script).
Proof.
  intros Ha. pose proof Ha as ((a & cfg) & Heq & Hin)%list_elem_of_fmap.
  cbn [fst] in Heq. subst a.
  unfold proceed, summary, print.
  apply ends_bind.
  { intros s Hs. by rewrite (py_lookup_agent selected_ai cfg). }
  intros cfg' _ _ _.
  apply ends_bind; [apply ends_show|]. intros _ _ _ _.
  apply ends_bind; [apply ends_show|]. intros _ _ _ _.
  apply ends_bind; [by apply ends_tracked|].
  intros [[[script_path prompt_path]|] t] _ _ _; [|apply ends_ret].
  apply ends_bind; [|intros _ _ _ _; apply ends_ret].
  apply ends_bind; [apply ends_show|]. intros _ _ _ _. apply ends_show.
Qed.

(** A choice is made in a menu when there is no flag for it and standard
    input is a terminal. *)
Lemma ends_resolve_ai ai :
  ends (λ _, True) (λ e, e = Exit 1)
    (truthy ai = None ∧ stdin_isatty h = true) (resolve_ai h ai).
Proof.
  intros w _. pose proof (resolve_ai_end h ai w) as Hend.
  destruct (resolve_ai h ai w) as [[a|e|] w'] eqn:Hrun; cbn in Hend;
    [done|done|].
  unfold resolve_ai, print, show, modify, bind, raise, ret in Hrun.
  destruct (truthy ai); [by destruct (py_in _ _)|].
  by destruct (stdin_isatty h).
Qed.

Lemma ends_resolve_script script_type :
  ends (λ _, True) (λ e, e = Exit 1)
    (truthy script_type = None ∧ stdin_isatty h = true)
    (resolve_script h script_type).
Proof.
  intros w _.
  pose proof (select_with_arrows_end SCRIPT_TYPE_CHOICES script_prompt
    (Some (if bool_decide (platform_system h = "Windows") then "ps" else "sh"))
    w ltac:(done)) as Hsel.
  unfold resolve_script, print, show, modify, bind, raise, ret.
  destruct (truthy script_type) as [s|]; [by destruct (py_in _ _)|].
  destruct (stdin_isatty h); cbn [negb]; [|done].
  destruct (select_with_arrows _ _ _ w) as [[a|e|] w']; cbn in Hsel; done.
Qed.

(** How [init] ends. *)
Lemma ends_init ai script_type here :
  ends (λ _, True) init_raises
    (stdin_isatty h = true ∧ (truthy ai = None ∨ truthy script_type = None))
    (init h SCRIPT_CONTENT_SH SCRIPT_CONTENT_PS PROMPT_CONTENT
       ai script_type here).
Proof.
  unfold init.
  apply ends_bind; [apply ends_show|]. intros _ _ _ _.
  apply ends_bind.
  { eapply ends_weaken; [| |apply ends_resolve_ai]; [by left|tauto]. }
  intros selected_ai w w' Hai.
  pose proof (resolve_ai_end h ai w) as Hend. rewrite Hai in Hend.
  apply ends_bind.
  { eapply ends_weaken; [| |apply ends_resolve_script]; [by left|tauto]. }
  intros selected_script _ _ _.
  eapply ends_weaken; [| |by apply ends_proceed]; [by right|done].
Qed.

Lemma same_keys_show o : keeps same_keys (show o).
Proof. by intros w. Qed.

Lemma same_keys_on_fs {A : Type} (m : M files A) : keeps same_keys (on_fs m).
Proof. intros w. unfold on_fs. by destruct (m (fs w)). Qed.

#[local] Instance same_keys_refl : Reflexive same_keys.
Proof. by intros w. Qed.

#[local] Instance same_keys_trans : Transitive same_keys.
Proof. intros w1 w2 w3. unfold same_keys. congruence. Qed.

Lemma same_keys_resolve_ai ai :
  truthy ai ≠ None ∨ stdin_isatty h = false →
  keeps same_keys (resolve_ai h ai).
Proof.
  intros Hno. unfold resolve_ai, print.
  destruct (truthy ai) as [a|].
  - apply keeps_if; [apply keeps_ret|].
    apply keeps_bind; [apply same_keys_show|]. intros _. apply keeps_raise.
  - destruct Hno as [?| ->]; [done|]. cbn [negb].
    apply keeps_bind; [apply same_keys_show|]. intros _. apply keeps_ret.
Qed.

Lemma same_keys_resolve_script script_type :
  truthy script_type ≠ None ∨ stdin_isatty h = false →
  keeps same_keys (resolve_script h script_type).
Proof.
  intros Hno. unfold resolve_script, print.
  destruct (truthy script_type) as [a|].
  - apply keeps_if; [apply keeps_ret|].
    apply keeps_bind; [apply same_keys_show|]. intros _. apply keeps_raise.
  - destruct Hno as [?| ->]; [done|]. cbn [negb].
    apply keeps_bind; [apply same_keys_show|]. intros _. apply keeps_ret.
Qed.


(** X21.  [init] reads keys in its two menus only: when each choice is
    either made by a flag or defaulted because standard input is no
    terminal, it reads no key and does not wait. *)
Theorem init_reads_keys_in_menus (ai script_type : option string)
    (here : bool) (ks : list readkey) (f : files) :
  truthy ai ≠ None ∨ stdin_isatty h = false →
  truthy script_type ≠ None ∨ stdin_isatty h = false →
  let run0 := run h SCRIPT_CONTENT_SH SCRIPT_CONTENT_PS PROMPT_CONTENT
                ai script_type here ks f in
  keys run0.2 = ks ∧ run0.1 ≠ Blocked.
Proof.
  intros Hai Hscript run0. subst run0. unfold run. split.
  - assert (keeps same_keys
              (init h SCRIPT_CONTENT_SH SCRIPT_CONTENT_PS PROMPT_CONTENT
                 ai script_type here)) as Hinit.
    { unfold init.
      apply keeps_bind; [apply same_keys_show|]. intros _.
      apply keeps_bind; [by apply same_keys_resolve_ai|]. intros selected_ai.
      apply keeps_bind; [by apply same_keys_resolve_script|].
      intros selected_script.
      apply keeps_proceed_at; try apply _.
      - apply same_keys_show.
      - intros p. apply same_keys_on_fs.
      - intros p. apply same_keys_on_fs.
      - intros p content _. apply same_keys_on_fs.
      - intros p mode _. apply same_keys_on_fs. }
    apply (Hinit {| keys := ks; fs := f; console := [] |}).
  - pose proof (ends_init ai script_type here
                  {| keys := ks; fs := f; console := [] |} I) as Hend.
    destruct (init _ _ _ _ _ _ _ _) as [[t|e|] w']; [done|done|].
    destruct Hend as [Htty [Hnone|Hnone]].
    + destruct Hai; congruence.
    + destruct Hscript; congruence.
Qed.

End Host.
(** The theorem at a run without a terminal and without flags, keys
    waiting. *)
Lemma init_reads_keys_in_menus_witness :
  keys (run linux_pipe "sh" "ps" "md" None None false [UP; ENTER] empty_dir).2
  = [UP; ENTER].
Proof.
  apply (init_reads_keys_in_menus linux_pipe "sh" "ps" "md" None None false
           [UP; ENTER] empty_dir); by right.
Defined.

End InitOutcome.

(** ** [init]: what it writes *)

Module InitWrites.
Import Py Tracker World Selector Cli Keeps TrackerFacts TrackerKeeps.
Import WorldFacts CliFacts Steps StepsFacts Frame FsFacts CreateFileFacts.
Import InitFrame Outcome InitOutcome Scenarios Examples.

Lemma try_ok {S A} (body : M S A) cls handler s a s' :
  body s = (Ok a, s') → try_except body cls handler s = (Ok a, s').
Proof. intros H. unfold try_except. by rewrite H. Qed.

Lemma fs_calls_ok {A : Type} (m1 m2 : M files unit)
    (k : M (StepTracker world * world) A) t w f' :
  bind m1 (λ _, m2) (fs w) = (Ok tt, f') →
  bind (on_snd (on_fs m1)) (λ _, bind (on_snd (on_fs m2)) (λ _, k)) (t, w)
  = k (t, set_fs f' w).
Proof.
  unfold bind, on_snd, on_fs.
  destruct (m1 (fs w)) as [[[]|e1|] f1]; simpl; [|done..].
  destruct (m2 f1) as [[[]|e2|] f2]; simpl; [|done..].
  by intros [= ->].
Qed.

Section Host.
Context (h : host).

(** [create_file] under the callback of [init]. *)
Lemma create_file_live p content step_key make_executable
    (t : StepTracker world) w :
  _refresh_cb t = Some live_update →
  let l1 := updated step_key Running "" (steps t) in
  let shown l := console w ++ [TrackerTree (title t) l1; TrackerTree (title t) l] in
  create_file h p content step_key make_executable (t, w) =
  match fs_calls h p (PyStr.replace_s CRLF LF content) make_executable (fs w) with
  | (Ok _, f') =>
      let l2 := updated step_key Done (done_detail h make_executable) l1 in
      (Ok tt, (set_steps l2 t, {| keys := keys w; fs := f'; console := shown l2 |}))
  | (Raise e, f') =>
      let l2 := updated step_key Error (exc_str e) l1 in
      (Raise e,
       (set_steps l2 t, {| keys := keys w; fs := f'; console := shown l2 |}))
  | (Blocked, f') =>
      (Blocked,
       (set_steps l1 t,
        {| keys := keys w; fs := f';
           console := console w ++ [TrackerTree (title t) l1] |}))
  end.
Proof.
  intros Hcb l1 shown. rewrite create_file_eq. unfold start, complete, error.
  rewrite update_live by done. cbn [fs set_console].
  destruct (fs_calls h p _ make_executable (fs w)) as [[[]|e|] f'].
  - rewrite update_live by done. cbn [steps set_steps title].
    unfold set_steps, set_console, set_fs, shown.
    cbn [title steps _refresh_cb keys fs console]. by rewrite <-app_assoc.
  - erewrite bind_ok; [|by apply update_live]. cbn [steps set_steps title].
    unfold raise, set_steps, set_console, set_fs, shown.
    cbn [title steps _refresh_cb keys fs console]. by rewrite <-app_assoc.
  - done.
Qed.

Context (SCRIPT_CONTENT_SH SCRIPT_CONTENT_PS PROMPT_CONTENT : string).
Context (a s : string) (cfg : agent).
Context (Ha : (a, cfg) ∈ AGENT_CONFIG).

(** The [with] block when the directories are made: the step [dirs] goes
    to running and then to done, both trees are shown, and the two files
    are created. *)
Lemma with_live_dirs_ok t w f' :
  bind (mkdir h script_dir) (λ _, mkdir h (joinpath [] (prompt_dir cfg)))
    (fs w) = (Ok tt, f') →
  let l1 := updated "dirs" Running "" (steps t) in
  let l2 := updated "dirs" Done "pronto" l1 in
  with_live h SCRIPT_CONTENT_SH SCRIPT_CONTENT_PS PROMPT_CONTENT a s (t, w) =
  bind
    (bind
       (create_file h (script_path_of s)
          (script_content_of SCRIPT_CONTENT_SH SCRIPT_CONTENT_PS s) "script"
          (bool_decide (s = "sh")))
       (λ _, ret (script_path_of s)))
    (λ script_path,
       bind (create_file h (prompt_path_of cfg) PROMPT_CONTENT "prompt" false)
         (λ _, ret (Some (script_path, prompt_path_of cfg))))
    (set_steps l2 (with_cb live_update t),
     {| keys := keys w; fs := f';
        console := console w ++
          [TrackerTree (title t) l1; TrackerTree (title t) l2] |}).
Proof.
  intros Hmk l1 l2. unfold with_live.
  rewrite (bind_ok _ _ _ tt (with_cb live_update t, w)) by done.
  rewrite (bind_ok _ _ _ cfg (with_cb live_update t, w))
    by by apply py_lookup_agent.
  unfold start, complete, error.
  erewrite bind_ok; [|by apply update_live].
  erewrite bind_ok.
  2:{ apply try_ok. erewrite fs_calls_ok; [|exact Hmk].
      erewrite bind_ok; [|by apply update_live]. reflexivity. }
  cbn [negb]. unfold script_path_of, script_content_of, prompt_path_of.
  unfold set_steps, with_cb, set_console, set_fs.
  cbn [title steps _refresh_cb keys fs console]. rewrite <-app_assoc.
  cbn [app]. by case_bool_decide.
Qed.

Lemma script_path_ne_prompt_path : script_path_of s ≠ prompt_path_of cfg.
Proof.
  unfold script_path_of, prompt_path_of, joinpath.
  intros Heq%(f_equal last). revert Heq. rewrite !last_app.
  by case_bool_decide.
Qed.

Lemma mkdirs_fail p1 p2 f r f' :
  bind (mkdir h p1) (λ _, mkdir h p2) f = (r, f') →
  match r with
  | Ok _ => True
  | Raise e => os_fault e = true
  | Blocked => False
  end.
Proof.
  unfold bind. pose proof (mkdir_fails_os h p1 f) as H1.
  destruct (mkdir h p1 f) as [[[]|e1|] f1]; cbn [fst] in H1;
    [|by intros [= <- _]|done].
  pose proof (mkdir_fails_os h p2 f1) as H2. intros Hr. by rewrite Hr in H2.
Qed.

Lemma lor_execute_bits (mode : Z) : Z.land (Z.lor mode 73) 73 = 73.
Proof.
  apply Z.bits_inj'. intros n Hn. rewrite Z.land_spec, Z.lor_spec.
  by destruct (Z.testbit mode n), (Z.testbit 73 n).
Qed.

(** X22.  For valid flags: when [init] returns with the step [dirs]
    done, all three steps are done, the script holds the text embedded
    for the script type and the prompt the embedded prompt, each with
    every CR LF replaced by LF; the script for [sh] has its three execute
    bits set where it is not Windows; and the summary panel is the last
    thing shown. *)
Theorem init_generates (here : bool) (ks : list readkey) (f : files)
    (t : StepTracker world) (w : world) :
  s ∈ SCRIPT_TYPE_CHOICES.*1 →
  run h SCRIPT_CONTENT_SH SCRIPT_CONTENT_PS PROMPT_CONTENT (Some a) (Some s)
    here ks f = (Ok t, w) →
  shows_step "dirs" Done "pronto" (steps t) →
  steps t = all_done h a s ∧
  holds_text (prompt_path_of cfg) (PyStr.replace_s CRLF LF PROMPT_CONTENT) w ∧
  (∃ mode,
     fs w !! script_path_of s =
       Some (File mode
               (PyStr.replace_s CRLF LF
                  (script_content_of SCRIPT_CONTENT_SH SCRIPT_CONTENT_PS s))) ∧
     (s = "sh" → os_name h ≠ "nt" → Z.land mode 73 = 73)) ∧
  (∃ body, last (console w) = Some (SummaryPanel "Próximos Passos" body)).
Proof.
  intros Hs Hrun Hdirs.
  assert (a ∈ AGENT_CONFIG.*1) as Ha'.
  { apply list_elem_of_fmap. by exists (a, cfg). }
  unfold run, init in Hrun.
  erewrite bind_ok in Hrun; [|reflexivity].
  erewrite bind_ok in Hrun; [|by apply resolve_ai_valid].
  erewrite bind_ok in Hrun; [|by apply resolve_script_valid].
  unfold proceed in Hrun.
  erewrite bind_ok in Hrun; [|by apply py_lookup_agent].
  erewrite bind_ok in Hrun; [|reflexivity].
  erewrite bind_ok in Hrun; [|reflexivity].
  match type of Hrun with bind _ _ ?w0 = _ =>
    set (w3 := w0) in Hrun; assert (fs w3 = f) as Hf by reflexivity;
    clearbody w3
  end.
  subst f. unfold bind at 1 in Hrun. rewrite tracked_registers in Hrun.
  set (w4 := set_console _ w3) in Hrun.
  destruct (bind (mkdir h script_dir)
              (λ _, mkdir h (joinpath [] (prompt_dir cfg))) (fs w4))
    as [[[]|e|] f1] eqn:Hmk; pose proof (mkdirs_fail _ _ _ _ _ Hmk) as Hres;
    [| |done].
  2:{ rewrite (with_live_dirs_failure h _ _ _ a s cfg e f1 Ha
                 (os_fault_Exception _ Hres) _ _ Hmk) in Hrun.
      unfold ret in Hrun. injection Hrun as <- _.
      cbn [steps set_steps] in Hdirs.
      destruct Hdirs as (i & s0 & Hfind & Hst & _).
      match type of Hfind with find_step _ (updated ?k ?st ?d ?l) = _ =>
        destruct (find_step_updated k st d l) as (i' & s' & Hfind' & _ & Hst' & _)
      end.
      congruence. }
  rewrite (with_live_dirs_ok _ _ _ Hmk) in Hrun.
  unfold bind at 1 2 in Hrun.
  rewrite create_file_live in Hrun by done. cbn [keys fs console] in Hrun.
  pose proof (fs_calls_spec h (script_path_of s)
    (PyStr.replace_s CRLF LF (script_content_of SCRIPT_CONTENT_SH SCRIPT_CONTENT_PS s))
    (bool_decide (s = "sh")) f1) as Hscript.
  destruct (fs_calls h (script_path_of s) _ _ f1) as [[[]|e|] f2]; [|done..].
  destruct Hscript as (f1' & _ & ->).
  unfold ret at 1 in Hrun. unfold bind at 1 in Hrun.
  rewrite create_file_live in Hrun by done. cbn [keys fs console] in Hrun.
  pose proof (fs_calls_spec h (prompt_path_of cfg)
    (PyStr.replace_s CRLF LF PROMPT_CONTENT) false
    (<[script_path_of s := File
         (written_mode h (bool_decide (s = "sh")) (f1 !! script_path_of s))
         (PyStr.replace_s CRLF LF
            (script_content_of SCRIPT_CONTENT_SH SCRIPT_CONTENT_PS s))]> f1'))
    as Hprompt.
  destruct (fs_calls h (prompt_path_of cfg) _ false _) as [[[]|e|] f3];
    [|done..].
  destruct Hprompt as (f2' & Hmade & ->).
  unfold ret, summary, print, show, modify, bind in Hrun.
  injection Hrun as <- <-. cbn [steps set_steps fs console set_console].
  split_and!.
  - unfold all_done, done_detail, registered. cbn [steps with_cb].
    destruct (bool_decide (s = "sh") && _); reflexivity.
  - unfold holds_text, read_back. cbn [fs set_console].
    by rewrite lookup_insert_eq.
  - eexists. split.
    + rewrite lookup_insert_ne by apply not_eq_sym, script_path_ne_prompt_path.
      destruct (Hmade (script_path_of s)) as [->|[Hnone _]].
      * by rewrite lookup_insert_eq.
      * by rewrite lookup_insert_eq in Hnone.
    + intros -> Hnt. unfold written_mode.
      rewrite bool_decide_eq_true_2 by done.
      rewrite bool_decide_eq_false_2 by done. apply lor_execute_bits.
  - eexists. apply last_snoc.
Qed.

(** X23.  For valid flags, when [init] raises it raises an [OSError]
    of one of the two files, and the last thing shown is the tree with
    that step in error, the message of the exception as its detail, and
    no summary.  Nothing is rolled back: if it is the prompt that failed,
    the script is done and on disk; if it is the script, the prompt is
    still pending. *)
Theorem init_partial (here : bool) (ks : list readkey) (f : files)
    (e : exc) (w : world) :
  s ∈ SCRIPT_TYPE_CHOICES.*1 →
  run h SCRIPT_CONTENT_SH SCRIPT_CONTENT_PS PROMPT_CONTENT (Some a) (Some s)
    here ks f = (Raise e, w) →
  is_OSError e = true ∧
  ∃ l, last (console w) = Some (TrackerTree "Inicializando Review Kit" l) ∧
       shows_step "dirs" Done "pronto" l ∧
       ((shows_step "script" Error (exc_str e) l ∧
         shows_step "prompt" Pending "" l) ∨
        (shows_step "script" Done
           (done_detail h (bool_decide (s = "sh"))) l ∧
         shows_step "prompt" Error (exc_str e) l ∧
         holds_text (script_path_of s)
           (PyStr.replace_s CRLF LF
              (script_content_of SCRIPT_CONTENT_SH SCRIPT_CONTENT_PS s)) w)).
Proof.
  intros Hs Hrun.
  assert (a ∈ AGENT_CONFIG.*1) as Ha'.
  { apply list_elem_of_fmap. by exists (a, cfg). }
  unfold run, init in Hrun.
  erewrite bind_ok in Hrun; [|reflexivity].
  erewrite bind_ok in Hrun; [|by apply resolve_ai_valid].
  erewrite bind_ok in Hrun; [|by apply resolve_script_valid].
  unfold proceed in Hrun.
  erewrite bind_ok in Hrun; [|by apply py_lookup_agent].
  erewrite bind_ok in Hrun; [|reflexivity].
  erewrite bind_ok in Hrun; [|reflexivity].
  match type of Hrun with bind _ _ ?w0 = _ =>
    set (w3 := w0) in Hrun; clearbody w3
  end.
  unfold bind at 1 in Hrun. rewrite tracked_registers in Hrun.
  set (w4 := set_console _ w3) in Hrun.
  destruct (bind (mkdir h script_dir)
              (λ _, mkdir h (joinpath [] (prompt_dir cfg))) (fs w4))
    as [[[]|e0|] f1] eqn:Hmk; pose proof (mkdirs_fail _ _ _ _ _ Hmk) as Hres;
    [| |done].
  2:{ by rewrite (with_live_dirs_failure h _ _ _ a s cfg e0 f1 Ha
                    (os_fault_Exception _ Hres) _ _ Hmk) in Hrun. }
  rewrite (with_live_dirs_ok _ _ _ Hmk) in Hrun.
  unfold bind at 1 2 in Hrun.
  rewrite create_file_live in Hrun by done. cbn [keys fs console] in Hrun.
  pose proof (fs_calls_spec h (script_path_of s)
    (PyStr.replace_s CRLF LF (script_content_of SCRIPT_CONTENT_SH SCRIPT_CONTENT_PS s))
    (bool_decide (s = "sh")) f1) as Hscript.
  destruct (fs_calls h (script_path_of s) _ _ f1) as [[[]|e1|] f2]; [| |done].
  2:{ destruct Hscript as [He1 _]. injection Hrun as <- <-.
      split; [by apply os_fault_OSError|]. eexists.
      split; [cbn [console]; rewrite last_app; reflexivity|].
      pose proof (os_fault_str _ He1) as Hstr.
      cbn [steps set_steps with_cb].
      split; [|left; split].
      - do 2 (apply shows_other; [done|]). by apply shows_updated.
      - by apply shows_updated.
      - do 4 (apply shows_other; [done|]). by eexists 2%nat, _. }
  destruct Hscript as (f1' & _ & ->).
  unfold ret at 1 in Hrun. unfold bind at 1 in Hrun.
  rewrite create_file_live in Hrun by done. cbn [keys fs console] in Hrun.
  match type of Hrun with context [fs_calls h ?p ?c false ?f0] =>
    pose proof (fs_calls_spec h p c false f0) as Hprompt;
    destruct (fs_calls h p c false f0) as [[[]|e2|] f3]; [done| |done]
  end.
  destruct Hprompt as [He2 Hmade]. injection Hrun as <- <-.
  split; [by apply os_fault_OSError|]. eexists.
  split; [cbn [console]; rewrite last_app; reflexivity|].
  pose proof (os_fault_str _ He2) as Hstr.
  pose proof (done_detail_not_empty h (bool_decide (s = "sh"))) as Hdetail.
  cbn [steps set_steps with_cb].
  split; [|right; split_and!].
  - do 4 (apply shows_other; [done|]). by apply shows_updated.
  - do 2 (apply shows_other; [done|]). by apply shows_updated.
  - by apply shows_updated.
  - unfold holds_text, read_back. cbn [fs].
    destruct (Hmade (script_path_of s)) as [->|[Hnone _]].
    + by rewrite lookup_insert_eq.
    + by rewrite lookup_insert_eq in Hnone.
Qed.

End Host.
(** The theorem at a run for Copilot and [sh] in the empty working
    directory of a Linux host. *)
Lemma init_generates_witness :
  let r := run linux_pipe ("a" +:+ CRLF +:+ "b") "ps" "md" (Some "copilot")
             (Some "sh") false [] empty_dir in
  steps (tracker_of r) = all_done linux_pipe "copilot" "sh" ∧
  holds_text [".github"; "prompts"; "code_review.prompt.md"] "md" r.2 ∧
  ∃ mode,
    fs r.2 !! [".code_review"; "scripts"; "git-relatorio.sh"]
    = Some (File mode ("a" +:+ LF +:+ "b")) ∧
    Z.land mode 73 = 73.
Proof.
  intros r.
  destruct (init_generates linux_pipe ("a" +:+ CRLF +:+ "b") "ps" "md"
              "copilot" "sh"
              {| name := "GitHub Copilot"; prompt_dir := ".github/prompts" |}
              ltac:(by left) false [] empty_dir (tracker_of r) r.2)
    as (Hsteps & Hprompt & (mode & Hscript & Hmode) & _).
  - set_solver.
  - by vm_compute.
  - exists 0%nat, (Step "dirs" "Criar estrutura de diretórios" Done "pronto").
    by vm_compute.
  - split_and!; [exact Hsteps|exact Hprompt|].
    exists mode. split; [exact Hscript|]. by apply Hmode.
Defined.

(** The theorem at a run in a directory in which the place of the script
    is taken. *)
Lemma init_partial_witness :
  is_OSError
    match (run linux_pipe "sh" "ps" "md" (Some "copilot") (Some "sh") false []
             taken_dir).1 with
    | Raise e => e
    | _ => Exit 0
    end = true.
Proof.
  set (r := run linux_pipe "sh" "ps" "md" (Some "copilot") (Some "sh") false []
              taken_dir).
  destruct (init_partial linux_pipe "sh" "ps" "md" "copilot" "sh"
              {| name := "GitHub Copilot"; prompt_dir := ".github/prompts" |}
              ltac:(by left) false [] taken_dir
              (IsADirectoryError linux_pipe
                 [".code_review"; "scripts"; "git-relatorio.sh"]) r.2)
    as [He _].
  - set_solver.
  - by vm_compute.
  - exact He.
Defined.

End InitWrites.

(** ** [init]: the choices *)

Module InitChoices.
Import Py Tracker World Selector Cli Keeps TrackerFacts TrackerKeeps.
Import WorldFacts CliFacts SelectorKeys SelectorKeysFacts InitFrame.
Import Scenarios Examples.

Section Host.
Context (h : host).
Context (SCRIPT_CONTENT_SH SCRIPT_CONTENT_PS PROMPT_CONTENT : string).

(** X24.  With no flag for it, or an empty one, a choice defaults to
    [copilot] for the assistant and, for the script, to [ps] where
    [platform.system()] is [Windows] and to [sh] elsewhere: without a
    terminal on standard input the default is taken and announced, no key
    read; with one, it is the option the menu starts on, and Enter as
    the first key takes it. *)
Theorem choices_default (ai script_type : option string) (w : world) :
  let default_script :=
    if bool_decide (platform_system h = "Windows") then "ps" else "sh" in
  truthy ai = None → truthy script_type = None →
  (stdin_isatty h = false →
   resolve_ai h ai w =
     (Ok "copilot",
      set_console (console w ++ [Line (default_message "copilot")]) w) ∧
   resolve_script h script_type w =
     (Ok default_script,
      set_console (console w ++ [Line (default_message default_script)]) w)) ∧
  (stdin_isatty h = true →
   ∀ k rest, confirms k = true → keys w = k :: rest →
     (∃ w', resolve_ai h ai w = (Ok "copilot", w') ∧
            keys w' = rest ∧ fs w' = fs w) ∧
     (∃ w', resolve_script h script_type w = (Ok default_script, w') ∧
            keys w' = rest ∧ fs w' = fs w)).
Proof.
  intros default_script Hai Hscript. unfold resolve_ai, resolve_script.
  rewrite Hai, Hscript. fold default_script. split.
  - by intros ->.
  - intros -> k rest Hk Hw. cbn [negb]. split.
    + erewrite (select_with_arrows_enter AGENT_CONFIG); [|done|done|done].
      by eexists.
    + erewrite (select_with_arrows_enter SCRIPT_TYPE_CHOICES);
        [|done|done|].
      * by eexists.
      * subst default_script. by case_bool_decide.
Qed.

(** X25.  The banner comes first, whatever the flags: also a run that
    exits on an invalid flag has shown it, and nothing shown is ever
    taken back. *)
Theorem banner_first (ai script_type : option string) (here : bool)
    (ks : list readkey) (f : files) :
  ∃ evs,
    console (run h SCRIPT_CONTENT_SH SCRIPT_CONTENT_PS PROMPT_CONTENT
               ai script_type here ks f).2 = Banner :: evs.
Proof.
  unfold run, init. erewrite bind_ok; [|reflexivity].
  match goal with |- context [bind ?m ?k ?w0] =>
    assert (keeps (grows (λ _, True) false) (bind m k)) as Hrest;
      [|destruct (Hrest w0) as [(evs & Hevs & _) _]; exists evs; exact Hevs]
  end.
  apply keeps_bind.
  { eapply InitFrame.keeps_weaken; [|by apply (keeps_resolve_ai h (λ _, True))].
    intros w1 w2 [Hevs _]. by split. }
  intros selected_ai.
  apply keeps_bind; [by apply keeps_resolve_script|]. intros selected_script.
  by apply keeps_proceed.
Qed.

End Host.
(** The theorem on a Linux host without a terminal. *)
Lemma choices_default_witness :
  resolve_script linux_pipe None (typed []) =
  (Ok "sh",
   set_console
     [Line "[dim]Ambiente não interativo, usando 'sh' como padrão.[/dim]"]
     (typed [])).
Proof.
  destruct (choices_default linux_pipe None None (typed []) eq_refl eq_refl)
    as [H _].
  destruct (H eq_refl) as [_ Hscript]. exact Hscript.
Defined.

End InitChoices.
